(** * Weapon-Targeting: the A* search of AStarJFA.py and the batch loops of
      JFA/dataset_generator.py

    The numpy feature matrices are lists of rows of exact rationals ([Qc],
    the canonical rationals: numeric equality is Leibniz equality), so the
    arithmetic of the search is the exact one; rounding is not modelled.
    Python objects that are mutated and shared (the search nodes, whose [g]
    is overwritten and which are reached through [parent] references) live
    in a node store and are named by their index in it. *)

From Stdlib Require Import QArith Qcanon Ascii.
From stdpp Require Import list numbers strings pretty.

Local Open Scope Qc_scope.

(** ** Numbers *)

(** Python's [int(x)] on a float: truncation towards zero. *)
Definition int (x : Qc) : Z := Z.quot (Qnum x) (Zpos (Qden x)).

(** Python's builtin [min(a, b)]: the first argument unless the second is
    strictly smaller. *)
Definition min (a b : Qc) : Qc := if decide (b < a) then b else a.

(** Python's builtin [sum]: a left fold that starts from 0. *)
Definition sum (xs : list Qc) : Qc := foldl Qcplus 0 xs.

(** ** Feature matrices *)

(** The module JFAFeatures (imported as [JF]) numbers the columns of the
    feature axis; the search only uses these four. *)
Record Features := {
  TaskFeatures_SELECTED : nat;
  TaskFeatures_VALUE : nat;
  OpportunityFeatures_SELECTABLE : nat;
  OpportunityFeatures_PSUCCESS : nat
}.

(** [row[f]] for a feature index: the matrices are rectangular and the
    feature indices lie on the feature axis, so the read is total here. *)
Definition feat (f : nat) (row : list Qc) : Qc := default 0 (row !! f).

(** The state dictionary with its three arrays. *)
Record State := {
  Effectors : list (list Qc);
  Targets : list (list Qc);
  Opportunities : list (list (list Qc))
}.

(** [(a != b).any()]: some position holds different entries (arrays of
    different shapes count as different). *)
Fixpoint ne_any {A : Type} (ne : A → A → bool) (a b : list A) : bool :=
  match a, b with
  | [], [] => false
  | x :: a', y :: b' => ne x y || ne_any ne a' b'
  | _, _ => true
  end.

Definition Qc_ne (x y : Qc) : bool := negb (bool_decide (x = y)).

(** The body shared by both branches of [Node.__eq__]. *)
Definition state_eq (s o : State) : bool :=
  if ne_any (ne_any Qc_ne) (Effectors s) (Effectors o) then false
  else if ne_any (ne_any Qc_ne) (Targets s) (Targets o) then false
  else if ne_any (ne_any (ne_any Qc_ne)) (Opportunities s) (Opportunities o) then false
  else true.

(** [state['Opportunities'][:, i, f]] *)
Definition opp_column (state : State) (i f : nat) : list Qc :=
  (λ row, feat f (default [] (row !! i))) <$> Opportunities state.

(** [state['Opportunities'][e, i, f]] *)
Definition opp_at (state : State) (e i f : nat) : Qc :=
  feat f (default [] (default [] (Opportunities state !! e) !! i)).

(** ** heapq

    The list-based binary heap of Python's heapq module, over an arbitrary
    strict comparison [lt] (the [__lt__] of the items). The loops carry a
    fuel that bounds their number of rounds. *)
Section heapq.
Context {A : Type} (lt : A → A → bool).

Fixpoint siftdown_loop (fuel : nat) (heap : list A) (startpos pos : nat)
    (newitem : A) : list A :=
  match fuel with
  | 0 => <[pos := newitem]> heap
  | S fuel =>
      if bool_decide (startpos < pos)%nat then
        let parentpos := ((pos - 1) / 2)%nat in
        match heap !! parentpos with
        | Some parent =>
            if lt newitem parent
            then siftdown_loop fuel (<[pos := parent]> heap) startpos parentpos newitem
            else <[pos := newitem]> heap
        | None => <[pos := newitem]> heap
        end
      else <[pos := newitem]> heap
  end.

Definition _siftdown (heap : list A) (startpos pos : nat) : list A :=
  match heap !! pos with
  | Some newitem => siftdown_loop pos heap startpos pos newitem
  | None => heap
  end.

Definition heappush (heap : list A) (item : A) : list A :=
  _siftdown (heap ++ [item]) 0 (length heap).

(** The loop of [_siftup]: the smaller child moves up until a leaf is
    reached; the result is the heap and the position left free. *)
Fixpoint siftup_loop (fuel : nat) (heap : list A) (pos childpos : nat)
    : list A * nat :=
  match fuel with
  | 0 => (heap, pos)
  | S fuel =>
      if bool_decide (childpos < length heap)%nat then
        let rightpos := (childpos + 1)%nat in
        let childpos :=
          match heap !! childpos, heap !! rightpos with
          | Some l, Some r => if negb (lt l r) then rightpos else childpos
          | _, _ => childpos
          end in
        match heap !! childpos with
        | Some c => siftup_loop fuel (<[pos := c]> heap) childpos (2 * childpos + 1)
        | None => (heap, pos)
        end
      else (heap, pos)
  end.

Definition _siftup (heap : list A) (pos : nat) : list A :=
  match heap !! pos with
  | Some newitem =>
      let '(heap', pos') := siftup_loop (length heap) heap pos (2 * pos + 1) in
      _siftdown (<[pos' := newitem]> heap') pos pos'
  | None => heap
  end.

(** [heappop]: [None] stands for the IndexError of popping an empty list. *)
Definition heappop (heap : list A) : option (A * list A) :=
  match list.last heap with
  | None => None
  | Some lastelt =>
      let heap := take (length heap - 1) heap in
      match heap with
      | [] => Some (lastelt, heap)
      | returnitem :: _ => Some (returnitem, _siftup (<[0%nat := lastelt]> heap) 0)
      end
  end.
End heapq.

(** The heap invariant of heapq for items compared through a key: no item
    is smaller than the item at the parent position [(i - 1) / 2]. *)
Definition ordered_at {A : Type} (key : A → Qc) (heap : list A) (i : nat) : Prop :=
  ∀ x y, heap !! i = Some x → heap !! ((i - 1) / 2)%nat = Some y → key y ≤ key x.

Definition heap_ordered {A : Type} (key : A → Qc) (heap : list A) : Prop :=
  ∀ i, (0 < i)%nat → ordered_at key heap i.

(** The comparison that a key induces. *)
Definition key_lt {A : Type} (key : A → Qc) (a b : A) : bool :=
  bool_decide (key a < key b).

(** Python's [enumerate]. *)
Definition enumerate {A : Type} (l : list A) : list (nat * A) := imap pair l.

(** ** The heuristic estimators *)
Section heuristic.
Context (JF : Features).

(** [np.argpartition(column, -1)[-1:]]: the index that numpy's selection
    leaves at the last position, that of a largest entry of the column.
    Which one it is among equal largest entries is numpy's business, so the
    selection is a parameter here. On an empty column numpy raises; the
    estimator gets there with an empty column only if a selected fraction is
    1.5 or more (below that the move count is 0 and the target is skipped),
    and what is read at the selected index is then not used, the move count
    being negative. *)
Context (argpartition_last : list Qc → nat).

(** The [for move in range(remaining_moves)] loop; [remaining_reward] is
    the running total of the whole heuristic, [value] is local to the
    target. *)
Fixpoint engage (moves : nat) (p value remaining_reward : Qc) : Qc :=
  match moves with
  | 0 => remaining_reward
  | S moves =>
      let reward := value * p in
      engage moves p (value - reward) (remaining_reward + reward)
  end.

Definition remaining_moves (state : State) (i : nat) (target : list Qc) : Z :=
  int (min ((1 - feat (TaskFeatures_SELECTED JF) target) * 2)
           (sum ((λ x, x * 2)
                   <$> opp_column state i (OpportunityFeatures_SELECTABLE JF)))).

(** One round of the loop over [enumerate(state['Targets'])]. *)
Definition heuristic_round (state : State) (remaining_reward : Qc)
    (it : nat * list Qc) : Qc :=
  let '(i, target) := it in
  if decide (feat (TaskFeatures_SELECTED JF) target = 1) then remaining_reward
  else
    let moves := remaining_moves state i target in
    if decide (moves = 0%Z) then remaining_reward
    else
      let value := feat (TaskFeatures_VALUE JF) target in
      let top := argpartition_last (opp_column state i (OpportunityFeatures_PSUCCESS JF)) in
      engage (Z.to_nat moves) (opp_at state top i (OpportunityFeatures_PSUCCESS JF))
             value remaining_reward.

Definition astar_heuristic (state : State) : Qc :=
  foldl (heuristic_round state) 0 (enumerate (Targets state)).
End heuristic.

Definition ucs_heuristic (state : State) : Qc := 0.

(** What numpy documents of [argpartition(column, -1)]: the last position
    holds the index of an entry that no entry of the column exceeds. *)
Definition selects_largest (sel : list Qc → nat) : Prop :=
  ∀ l, l ≠ [] → ∃ p, l !! sel l = Some p ∧ ∀ x, x ∈ l → x ≤ p.

(** *** The estimator as the specification words it

    Section 4.1 of the specification, step by step: the remaining slots of a
    target, its best opportunity, the successive engagements, and the sum
    over the targets. Where the slot count is not a whole number the
    description says nothing ([None]). *)
Section heuristic_spec.
Context (JF : Features).

Definition Qc_min (a b : Qc) : Qc := if decide (a ≤ b) then a else b.
Definition Qc_max (a b : Qc) : Qc := if decide (a ≤ b) then b else a.

(** The natural number that [x] is, if it is one. *)
Definition whole (x : Qc) : option nat :=
  let n := Z.to_nat (Qnum x) in
  if decide (x = Qc_of_Z (Z.of_nat n)) then Some n else None.

(** The number of currently selectable opportunities against target [i]. *)
Definition selectable_count (state : State) (i : nat) : nat :=
  length (filter (λ flag, flag = 1)
                 (opp_column state i (OpportunityFeatures_SELECTABLE JF))).

Definition remainingSlots (state : State) (i : nat) (target : list Qc) : Qc :=
  Qc_min (2 * (1 - feat (TaskFeatures_SELECTED JF) target))
         (2 * Qc_of_Z (Z.of_nat (selectable_count state i))).

(** The maximal success probability among the opportunities against
    target [i]. *)
Definition best_probability (state : State) (i : nat) : Qc :=
  match opp_column state i (OpportunityFeatures_PSUCCESS JF) with
  | [] => 0
  | p :: ps => foldl Qc_max p ps
  end.

(** [slots] successive engagements: each adds [runningValue * p] and takes
    that amount off [runningValue]. *)
Fixpoint engagements (slots : nat) (p runningValue : Qc) : Qc :=
  match slots with
  | 0 => 0
  | S slots =>
      runningValue * p + engagements slots p (runningValue - runningValue * p)
  end.

Definition contribution (state : State) (it : nat * list Qc) : option Qc :=
  let '(i, target) := it in
  if decide (feat (TaskFeatures_SELECTED JF) target = 1) then Some 0
  else
    slots ← whole (remainingSlots state i target);
    Some (if decide (slots = 0%nat) then 0
          else engagements slots (best_probability state i)
                           (feat (TaskFeatures_VALUE JF) target)).

Definition heuristic_spec (state : State) : option Qc :=
  contributions ← mapM (contribution state) (enumerate (Targets state));
  Some (foldr Qcplus 0 contributions).

(** The data model's typing of the columns the estimator reads: a selectable
    flag is 0 or 1. *)
Definition boolean_flags (state : State) : Prop :=
  ∀ e t, opp_at state e t (OpportunityFeatures_SELECTABLE JF) = 0
         ∨ opp_at state e t (OpportunityFeatures_SELECTABLE JF) = 1.

(** Selected fractions move in steps of 0.5 between 0 and 1. *)
Definition half_steps (state : State) : Prop :=
  ∀ target, target ∈ Targets state →
    feat (TaskFeatures_SELECTED JF) target = 0
    ∨ feat (TaskFeatures_SELECTED JF) target = Q2Qc (1 # 2)
    ∨ feat (TaskFeatures_SELECTED JF) target = 1.
End heuristic_spec.

(** One target's share of the estimate in closed form, for selected
    fractions in half steps: nothing for a fully selected target or one
    without a selectable opportunity, otherwise two engagements (fraction 0)
    or one (fraction 0.5) at the largest success probability. *)
Definition estimate (JF : Features) (s : State) (i : nat) (target : list Qc) : Qc :=
  if decide (feat (TaskFeatures_SELECTED JF) target = 1) then 0
  else if decide (selectable_count JF s i = 0%nat) then 0
  else engagements (if decide (feat (TaskFeatures_SELECTED JF) target = 0)
                    then 2 else 1)
                   (best_probability JF s i) (feat (TaskFeatures_VALUE JF) target).

(** ** Search nodes *)

(** A [Node]; [parent] is the reference set by [Node.Parent] ([None] while
    the attribute is absent, which is the root's case). *)
Record Node := {
  g : Qc;
  action : option (nat * nat);
  state : State;
  reward : Qc;
  terminal : bool;
  parent : option nat
}.

Definition set_g (n : Node) (v : Qc) : Node :=
  {| g := v; action := action n; state := state n; reward := reward n;
     terminal := terminal n; parent := parent n |}.

(** [Node.__init__] *)
Definition Node_init (g0 : Qc) (act : option (nat * nat)) (st : State)
    (rew : Qc) (term : bool) : Node :=
  {| g := g0; action := act; state := st; reward := rew; terminal := term;
     parent := None |}.

(** [Node.Parent] *)
Definition Parent (n : Node) (p : nat) : Node :=
  {| g := g n; action := action n; state := state n; reward := reward n;
     terminal := terminal n; parent := Some p |}.

Definition Node_eq (self other : Node) : bool := state_eq (state self) (state other).
Definition Node_lt (self other : Node) : bool := bool_decide (g self < g other).

(** The node store. References held by the frontier, the closed list and the
    [parent] fields always point into the store; the blank node is never
    read. *)
Definition blank : Node :=
  Node_init 0 None {| Effectors := []; Targets := []; Opportunities := [] |} 0 false.

Definition deref (nodes : list Node) (r : nat) : Node := default blank (nodes !! r).

(** [__lt__] between two references, as heapq calls it. *)
Definition ref_lt (nodes : list Node) (a b : nat) : bool :=
  Node_lt (deref nodes a) (deref nodes b).

(** [node in refs] for a list of references: Python tries every element
    with [==]. *)
Definition contains (nodes : list Node) (refs : list nat) (node : Node) : bool :=
  existsb (λ r, Node_eq (deref nodes r) node) refs.

(** [Node.Solution], as the list of actions it renders (the Python string
    writes each action after the text of its parent and a comma, the text of
    the root being empty). The recursion follows [parent] references; [fuel]
    bounds its depth. *)
Fixpoint Solution (fuel : nat) (nodes : list Node) (r : nat) : list (nat * nat) :=
  match fuel with
  | 0 => []
  | S fuel =>
      match action (deref nodes r) with
      | None => []
      | Some a =>
          match parent (deref nodes r) with
          | Some p => Solution fuel nodes p ++ [a]
          | None => [a]
          end
      end
  end.

(** ** The search *)

(** The simulation component [env]: only its transition function is used. *)
Record Simulation := {
  update_state : nat * nat → State → State * Qc * bool
}.

(** What [AStar] returns: the rendered solution or the text "failed", the
    priority or [None], and the two counters. *)
Inductive solution := steps (l : list (nat * nat)) | failed.

Record Result := {
  res_solution : solution;
  res_g : option Qc;
  res_expansions : nat;
  res_branchFactor : nat
}.

(** The local variables of [AStar] that live across loop rounds. *)
Record Locals := {
  nodes : list Node;
  frontier : list nat;
  explored : list nat;
  expansions : nat;
  branchFactor : nat;
  duplicate_states : nat
}.

Inductive outcome := Continue (s : Locals) | Return (r : Result).

Section search.
Context (JF : Features) (env : Simulation) (heuristic : State → Qc).

(** [sum(state['Targets'][:, JF.TaskFeatures.VALUE])] *)
Definition total_value (st : State) : Qc :=
  sum (feat (TaskFeatures_VALUE JF) <$> Targets st).

(** [np.stack(np.where(state['Opportunities'][:, :, SELECTABLE] == True), axis=1)]:
    the (effector, target) pairs whose flag equals 1, row by row. *)
Definition selectable_pairs (st : State) : list (nat * nat) :=
  mjoin (imap (λ e row,
           omap (λ '(t, opp),
                   if decide (feat (OpportunityFeatures_SELECTABLE JF) opp = 1)
                   then Some (e, t) else None)
                (enumerate row))
         (Opportunities st)).

(** The child built for one action of the expansion loop. *)
Definition make_child (nodes : list Node) (r : nat) (act : nat * nat) : Node :=
  let node := deref nodes r in
  let '(new_state, rew, term) := update_state env act (state node) in
  let g' := g node - rew in
  let h := heuristic new_state in
  Parent (Node_init (g' - h) (Some act) new_state rew term) r.

(** One round of the expansion loop for the node referenced by [r]. *)
Definition expand_round (r : nat) (s : Locals) (act : nat * nat) : Locals :=
  let child := make_child (nodes s) r act in
  if negb (contains (nodes s) (explored s) child)
     && negb (contains (nodes s) (frontier s) child)
  then
    let c := length (nodes s) in
    let nodes' := nodes s ++ [child] in
    {| nodes := nodes';
       frontier := heappush (ref_lt nodes') (frontier s) c;
       explored := explored s;
       expansions := expansions s;
       branchFactor := S (branchFactor s);
       duplicate_states := duplicate_states s |}
  else
    {| nodes := nodes s;
       frontier := frontier s;
       explored := explored s;
       expansions := expansions s;
       branchFactor := branchFactor s;
       duplicate_states := S (duplicate_states s) |}.

(** [explored.append(node)] followed by the expansion loop. *)
Definition expand (r : nat) (s : Locals) : Locals :=
  let s1 := {| nodes := nodes s; frontier := frontier s;
               explored := explored s ++ [r];
               expansions := expansions s; branchFactor := branchFactor s;
               duplicate_states := duplicate_states s |} in
  foldl (expand_round r) s1 (selectable_pairs (state (deref (nodes s) r))).

(** The body of the [while] loop once [heappop] has delivered the
    reference [r] and left [rest] as the frontier. *)
Definition loop_body (s : Locals) (r : nat) (rest : list nat) : outcome :=
  let node := deref (nodes s) r in
  if contains (nodes s) (explored s) node then
    Continue {| nodes := nodes s; frontier := rest; explored := explored s;
                expansions := expansions s; branchFactor := branchFactor s;
                duplicate_states := duplicate_states s |}
  else
    let expansions' := S (expansions s) in
    match parent node with
    | Some p =>
        let expected := g (deref (nodes s) p) - reward node in
        if terminal node then
          if decide (g node = expected) then
            Return {| res_solution := steps (Solution (length (nodes s)) (nodes s) r);
                      res_g := Some (g node);
                      res_expansions := expansions';
                      res_branchFactor := branchFactor s |}
          else
            let nodes' := <[r := set_g node expected]> (nodes s) in
            Continue {| nodes := nodes';
                        frontier := heappush (ref_lt nodes') rest r;
                        explored := explored s;
                        expansions := expansions';
                        branchFactor := branchFactor s;
                        duplicate_states := duplicate_states s |}
        else
          Continue (expand r {| nodes := <[r := set_g node expected]> (nodes s);
                                frontier := rest; explored := explored s;
                                expansions := expansions';
                                branchFactor := branchFactor s;
                                duplicate_states := duplicate_states s |})
    | None =>
        Continue (expand r {| nodes := nodes s; frontier := rest;
                              explored := explored s;
                              expansions := expansions';
                              branchFactor := branchFactor s;
                              duplicate_states := duplicate_states s |})
    end.

(** One round of [while frontier:]; [None] when the frontier is empty. *)
Definition iteration (s : Locals) : option outcome :=
  match heappop (ref_lt (nodes s)) (frontier s) with
  | Some (r, rest) => Some (loop_body s r rest)
  | None => None
  end.

(** The [while] loop with its final [return]; [fuel] bounds the number of
    rounds and [None] means that it ran out. *)
Fixpoint AStar_loop (fuel : nat) (s : Locals) : option Result :=
  match fuel with
  | 0 => None
  | S fuel =>
      match frontier s with
      | [] => Some {| res_solution := failed; res_g := None;
                      res_expansions := expansions s;
                      res_branchFactor := branchFactor s |}
      | _ :: _ =>
          match iteration s with
          | Some (Continue s') => AStar_loop fuel s'
          | Some (Return r) => Some r
          | None => None
          end
      end
  end.

(** The locals after the statements that precede the loop. *)
Definition AStar_start (st : State) : Locals :=
  let node := Node_init (total_value st) None st 0 false in
  let nodes0 := [node] in
  {| nodes := nodes0; frontier := heappush (ref_lt nodes0) [] 0%nat;
     explored := []; expansions := 0; branchFactor := 0; duplicate_states := 0 |}.

Definition AStar (fuel : nat) (st : State) : option Result :=
  AStar_loop fuel (AStar_start st).
End search.

(** ** A sample simulation *)

(** Modelled from the spec: the module JFAFeatures is not among the sources;
    this is one layout of the feature axes (targets: value, selected fraction;
    opportunities: success probability, selectable flag). *)
Definition sample_features : Features :=
  {| TaskFeatures_VALUE := 0; TaskFeatures_SELECTED := 1;
     OpportunityFeatures_PSUCCESS := 0; OpportunityFeatures_SELECTABLE := 1 |}.

(** Modelled from the spec: the transition function of the simulation
    component is not among the sources. An engagement of target [t] by
    effector [e] claims the target's value times the success probability,
    takes that amount off the target's value, adds 0.5 to the target's
    selected fraction and uses up one of the effector's engagements (column 0
    of its row); an opportunity stops being selectable once its effector or
    its target is exhausted; the step is terminal when no opportunity is
    selectable afterwards. *)
Definition sample_update_state (act : nat * nat) (st : State) : State * Qc * bool :=
  let JF := sample_features in
  let '(e, t) := act in
  let target := default [] (Targets st !! t) in
  let rew := feat (TaskFeatures_VALUE JF) target
             * opp_at st e t (OpportunityFeatures_PSUCCESS JF) in
  let targets' :=
    alter (λ row, <[TaskFeatures_VALUE JF := feat (TaskFeatures_VALUE JF) row - rew]>
                   (<[TaskFeatures_SELECTED JF :=
                        feat (TaskFeatures_SELECTED JF) row + Q2Qc (1 # 2)]> row))
          t (Targets st) in
  let effectors' := alter (λ row, <[0%nat := feat 0 row - 1]> row) e (Effectors st) in
  let exhausted (e' t' : nat) : bool :=
    bool_decide (feat 0 (default [] (effectors' !! e')) ≤ 0)
    || bool_decide (1 ≤ feat (TaskFeatures_SELECTED JF) (default [] (targets' !! t'))) in
  let opportunities' :=
    imap (λ e' row,
            imap (λ t' opp,
                    if exhausted e' t'
                    then <[OpportunityFeatures_SELECTABLE JF := 0]> opp else opp)
                 row)
         (Opportunities st) in
  let new_state := {| Effectors := effectors'; Targets := targets';
                      Opportunities := opportunities' |} in
  (new_state, rew, bool_decide (selectable_pairs JF new_state = [])).

Definition sample_env : Simulation := {| update_state := sample_update_state |}.

(** The state and the reward that one step of the sample simulation gives. *)
Definition after (act : nat * nat) (s : State) : State :=
  (sample_update_state act s).1.1.
Definition claimed (act : nat * nat) (s : State) : Qc :=
  (sample_update_state act s).1.2.

(** The states the data model allows over the sample layout: probabilities
    between 0 and 1, selectable flags 0 or 1, selected fractions in half
    steps, target rows with both columns, values that are not negative, and
    no selectable opportunity against a fully selected target. *)
Record sample_wf (s : State) : Prop := {
  wf_probability : ∀ e t,
    0 ≤ opp_at s e t (OpportunityFeatures_PSUCCESS sample_features)
    ∧ opp_at s e t (OpportunityFeatures_PSUCCESS sample_features) ≤ 1;
  wf_flags : boolean_flags sample_features s;
  wf_half : half_steps sample_features s;
  wf_columns : ∀ target, target ∈ Targets s → (2 ≤ length target)%nat;
  wf_value : ∀ target, target ∈ Targets s →
    0 ≤ feat (TaskFeatures_VALUE sample_features) target;
  wf_full : ∀ t target e, Targets s !! t = Some target →
    feat (TaskFeatures_SELECTED sample_features) target = 1 →
    opp_at s e t (OpportunityFeatures_SELECTABLE sample_features) = 0
}.

(** A selection that scans the column from the left and keeps the later of
    two equal entries, as a linear search for the maximum with [>=] does. *)
Fixpoint scan_max (best : nat) (bestval : Qc) (i : nat) (l : list Qc) : nat :=
  match l with
  | [] => best
  | x :: l => if decide (bestval ≤ x) then scan_max i x (S i) l
              else scan_max best bestval (S i) l
  end.

Definition argmax_last (l : list Qc) : nat :=
  match l with
  | [] => 0
  | x :: l => scan_max 0 x 1 l
  end.



(** [astar_heuristic] over the sample layout, with the scanning selection. *)
Definition default_heuristic : State → Qc :=
  astar_heuristic sample_features argmax_last.

(** A heuristic that is not zero on terminal states, for runs in which a
    terminal node is sent back. *)
Definition flat_heuristic (state : State) : Qc := 1.

(** ** Sample problems *)

Definition frac (a : Z) (b : positive) : Qc := Q2Qc (a # b).

(** One effector and one target of value 10; the only opportunity has
    success probability 0.9 and the given selectable flag. *)
Definition single (flag : Z) : State :=
  {| Effectors := [[frac 1 1]];
     Targets := [[frac 10 1; frac 0 1]];
     Opportunities := [[[frac 9 10; frac flag 1]]] |}.

(** Two effectors with one engagement each and two targets of value 10,
    every pairing selectable. *)
Definition crossed : State :=
  {| Effectors := [[frac 1 1]; [frac 1 1]];
     Targets := [[frac 10 1; frac 0 1]; [frac 10 1; frac 0 1]];
     Opportunities := [[[frac 9 10; frac 1 1]; [frac 8 10; frac 1 1]];
                       [[frac 8 10; frac 1 1]; [frac 1 10; frac 1 1]]] |}.


(** ** Runs of the loop *)

(** [run s s']: the loop gets from the locals [s] to the locals [s'] by
    rounds that do not return. *)
Inductive run (JF : Features) (env : Simulation) (heuristic : State → Qc)
    (s : Locals) : Locals → Prop :=
  | run_here : run JF env heuristic s s
  | run_round s1 s2 :
      run JF env heuristic s s1 →
      iteration JF env heuristic s1 = Some (Continue s2) →
      run JF env heuristic s s2.

(** The sum of the rewards of the actions on the way from the root to the
    node referenced by [r]; a parent reference is smaller than the
    references of its children, so [S r] rounds always suffice. *)
Fixpoint path_reward_upto (fuel : nat) (nodes : list Node) (r : nat) : Qc :=
  match fuel with
  | 0 => 0
  | S fuel =>
      reward (deref nodes r)
      + match parent (deref nodes r) with
        | Some p => path_reward_upto fuel nodes p
        | None => 0
        end
  end.

Definition path_reward (nodes : list Node) (r : nat) : Qc :=
  path_reward_upto (S r) nodes r.

(** The key by which heapq orders the frontier: the priority [g] of the
    referenced node. *)
Definition priority (nodes : list Node) (r : nat) : Qc := g (deref nodes r).

Definition frontier_heap (s : Locals) : Prop :=
  heap_ordered (priority (nodes s)) (frontier s).

(** The value that a round writes to [g] of the popped node: recomputed
    from the parent, or left as it is for the root. *)
Definition corrected (nodes : list Node) (r : nat) : Qc :=
  match parent (deref nodes r) with
  | Some p => g (deref nodes p) - reward (deref nodes r)
  | None => g (deref nodes r)
  end.

(** A terminal node whose priority already is the one recomputed from its
    parent: the round that pops it accepts it. *)
Definition settled (nodes : list Node) (r : nat) : bool :=
  terminal (deref nodes r) && bool_decide (g (deref nodes r) = corrected nodes r).

(** The number of rounds that can still pop the frontier node [r] and go
    on, plus one: a node that is not terminal is popped once and closed, a
    terminal node is sent back at most once. *)
Definition pops_left (nodes : list Node) (r : nat) : nat :=
  if settled nodes r then 1 else 2.

(** A bound on the number of rounds that a run can still make when at most
    [bound] nodes are ever stored: three for every node not yet stored and
    the pops left for the nodes of the frontier. *)
Definition potential (bound : nat) (s : Locals) : nat :=
  3 * (bound - length (nodes s)) + sum_list_with (pops_left (nodes s)) (frontier s).

(** ** What holds of the locals between two rounds

    [covered] says for which pairs of a closed node and one of its actions
    the resulting state is already known to be in the closed list or on the
    frontier; between two rounds it is all of them. *)
Section invariant.
Context (JF : Features) (env : Simulation) (heuristic : State → Qc).
Context (st : State).

Definition is_root (n : Node) : Prop :=
  parent n = None ∧ action n = None ∧ state n = st ∧ reward n = 0
  ∧ terminal n = false ∧ g n = total_value JF st.

Definition is_child (s : Locals) (r : nat) (n : Node) : Prop :=
  ∃ p act,
    parent n = Some p ∧ action n = Some act ∧ (p < r)%nat ∧ p ∈ explored s
    ∧ act ∈ selectable_pairs JF (state (deref (nodes s) p))
    ∧ update_state env act (state (deref (nodes s) p))
      = (state n, reward n, terminal n)
    ∧ (g n = g (deref (nodes s) p) - reward n - heuristic (state n)
       ∨ (g n = g (deref (nodes s) p) - reward n
          ∧ (terminal n = true ∨ r ∈ explored s))).

Definition is_closed (s : Locals) (r : nat) : Prop :=
  terminal (deref (nodes s) r) = false
  ∧ ∀ p, parent (deref (nodes s) r) = Some p →
         g (deref (nodes s) r)
         = g (deref (nodes s) p) - reward (deref (nodes s) r).

Definition known (s : Locals) (p : nat) (act : nat * nat) : Prop :=
  ∃ q, q ∈ frontier s ++ explored s
       ∧ state (deref (nodes s) q)
         = (update_state env act (state (deref (nodes s) p))).1.1.

Record inv (covered : nat → nat * nat → Prop) (s : Locals) : Prop := {
  inv_root : ∃ n0, nodes s !! 0%nat = Some n0 ∧ is_root n0;
  inv_refs : ∀ r, r ∈ frontier s ++ explored s → (r < length (nodes s))%nat;
  inv_distinct :
    NoDup ((λ r, state (deref (nodes s) r)) <$> frontier s ++ explored s);
  inv_child : ∀ r n, nodes s !! r = Some n → r ≠ 0%nat → is_child s r n;
  inv_closed : ∀ r, r ∈ explored s → is_closed s r;
  inv_known : ∀ p act,
    p ∈ explored s → act ∈ selectable_pairs JF (state (deref (nodes s) p)) →
    covered p act → known s p act
}.

Definition invariant : Locals → Prop := inv (λ _ _, True).
End invariant.

(** The locals after [n] rounds (fewer when the loop stops earlier). *)
Fixpoint rounds (JF : Features) (env : Simulation) (heuristic : State → Qc)
    (n : nat) (s : Locals) : Locals :=
  match n with
  | 0 => s
  | S n =>
      match iteration JF env heuristic s with
      | Some (Continue s') => rounds JF env heuristic n s'
      | _ => s
      end
  end.

(** ** Action sequences

    [plan s acts rew s']: the actions [acts], each selectable in the state
    it is applied to, lead from [s] to [s'] and claim the rewards that add up
    to [rew]. *)
Inductive plan (JF : Features) (env : Simulation)
    : State → list (nat * nat) → Qc → State → Prop :=
  | plan_nil s : plan JF env s [] 0 s
  | plan_cons s act s1 r1 t1 acts rew s' :
      act ∈ selectable_pairs JF s →
      update_state env act s = (s1, r1, t1) →
      plan JF env s1 acts rew s' →
      plan JF env s (act :: acts) (r1 + rew) s'.

(** No opportunity is selectable any more. *)
Definition complete (JF : Features) (s : State) : Prop := selectable_pairs JF s = [].

(** What the search takes for granted of its collaborators, on the states
    that can be reached from the initial state [st]: the transition function
    sets the terminal flag exactly when no opportunity is left selectable;
    the reward claimed on the way to a state is determined by the state; and
    the heuristic is not below the reward that any complete continuation
    claims. *)
Definition flags_terminal (JF : Features) (env : Simulation) (st : State) : Prop :=
  ∀ acts rew s act s1 r1 t1,
    plan JF env st acts rew s → act ∈ selectable_pairs JF s →
    update_state env act s = (s1, r1, t1) →
    (t1 = true ↔ complete JF s1).



(** ** The batch loops of JFA/dataset_generator.py

    What happens while one problem of the batch is handled is supplied from
    outside: either the [try] body runs to its end and has built the row
    of the problem, or a KeyboardInterrupt arrives while the problem is
    being solved; the handler then waits at its prompt, where the user
    presses Enter or interrupts again (which ends the function, the second
    interrupt being raised inside the handler). *)
Inductive answer := Enter | CtrlC.

Inductive attempt (row : Type) :=
  | Completed (r : row)
  | KeyboardInterrupt (a : answer).
Arguments Completed {row} r.
Arguments KeyboardInterrupt {row} a.

Inductive ending := Finished | Interrupted.

Section batch.
Context {row : Type}.

(** The [for] loop of [solver]; [file] holds the rows of the CSV file,
    which the loop opens in append mode for every completed problem. *)
Fixpoint solver_loop (attempts : list (attempt row)) (file : list row)
    : list row * ending :=
  match attempts with
  | [] => (file, Finished)
  | Completed r :: attempts => solver_loop attempts (file ++ [r])
  | KeyboardInterrupt Enter :: attempts => solver_loop attempts file
  | KeyboardInterrupt CtrlC :: _ => (file, Interrupted)
  end.

(** [solver]: the header row is written first, to a fresh file. *)
Definition solver (header : row) (attempts : list (attempt row))
    : list row * ending :=
  solver_loop attempts [header].


End batch.

(** ** The rows that [solver] writes

    A cell as [csv.writer] gets it: a text, a number, or the solution that
    a solver returned. *)
Inductive cell (Sol : Type) :=
  | Text (s : string)
  | Number (x : Qc)
  | Answer (solution : Sol).
Arguments Text {Sol} s.
Arguments Number {Sol} x.
Arguments Answer {Sol} solution.

(** An entry of the list [solvers]: the dictionary with the keys 'name',
    'function' and 'solve'. *)
Record solver_entry (Sol : Type) := {
  solver_name : string;
  solver_function : State → Qc * Sol;
  solver_solve : bool
}.
Arguments solver_name {Sol} _.
Arguments solver_function {Sol} _.
Arguments solver_solve {Sol} _.

Section rows.
Context {Sol : Type} (JF : Features).

(** The list [solvers] of [solver], over the three functions of the module
    of solvers. *)
Definition solver_solvers (random_solution greedy AStar_solver : State → Qc * Sol)
    (Random Greedy AStar_flag : bool) : list (solver_entry Sol) :=
  [ {| solver_name := "Random Choice"; solver_function := random_solution;
       solver_solve := Random |};
    {| solver_name := "Greedy"; solver_function := greedy; solver_solve := Greedy |};
    {| solver_name := "AStar"; solver_function := AStar_solver;
       solver_solve := AStar_flag |} ].

(** What an f-string renders for a cell that holds a text. *)
Definition cell_text (c : cell Sol) : string :=
  match c with Text s => s | _ => "" end.

(** One round of the loop that prepares the header: the name of a selected
    solver, then [f'{csv_row[-1]} runtime']. *)
Definition solver_header_round (csv_row : list (cell Sol))
    (solver : solver_entry Sol) : list (cell Sol) :=
  if solver_solve solver then
    let csv_row := csv_row ++ [Text (solver_name solver)] in
    csv_row ++ [Text (cell_text (default (Text "") (last csv_row)) +:+ " runtime")]
  else csv_row.

Definition solver_header (solvers : list (solver_entry Sol)) : list (cell Sol) :=
  foldl solver_header_round [Text "filename"; Text "total reward"] solvers
  ++ [Text "solution"].

(** One round of the loop over the solvers for one problem. [time n] is
    what the [n]-th call of [time.time()] returns and [tick] counts the
    calls made so far; [solution] is the local variable of that name, which
    is unbound ([None]) until a solver has run. *)
Definition solver_row_round (simProblem : State) (rewards_available : Qc)
    (time : nat → Qc) (acc : list (cell Sol) * option Sol * nat)
    (solver : solver_entry Sol) : list (cell Sol) * option Sol * nat :=
  let '(csv_row, solution, tick) := acc in
  if solver_solve solver then
    let start_time := time tick in
    let '(g, solution) := solver_function solver simProblem in
    let total_time := start_time - time (S tick) in
    ((csv_row ++ [Number (rewards_available - g)]) ++ [Number total_time],
     Some solution, S (S tick))
  else acc.

(** The row of one problem, and the number of clock readings afterwards;
    [None] stands for the NameError that reading [solution] raises when no
    solver has run. *)
Definition solver_row (solvers : list (solver_entry Sol)) (filename : string)
    (simProblem : State) (time : nat → Qc) (tick : nat)
    : option (list (cell Sol)) * nat :=
  let rewards_available := total_value JF simProblem in
  let '(csv_row, solution, tick) :=
    foldl (solver_row_round simProblem rewards_available time)
          ([Text filename; Number rewards_available], None, tick) solvers in
  (match solution with
   | Some solution => Some (csv_row ++ [Answer solution])
   | None => None
   end, tick).

(** The solvers that are switched on, in the order of the list. *)
Definition selected_solvers (solvers : list (solver_entry Sol)) : list (solver_entry Sol) :=
  filter (λ solver, solver_solve solver = true) solvers.

(** [np.sum(simProblem['Opportunities'][:, :, SELECTABLE])] *)
Definition selectable_opportunities (simProblem : State) : Qc :=
  sum (mjoin ((λ row, feat (OpportunityFeatures_SELECTABLE JF) <$> row)
                <$> Opportunities simProblem)).

(** The problem that [generate_dataset] keeps: the first one with a
    selectable opportunity among those that the successive calls of
    [pg.network_validation] return ([None] when the given ones run out
    while the [while] loop is still asking). *)
Fixpoint first_usable (generated : list State) : option State :=
  match generated with
  | [] => None
  | simProblem :: generated =>
      if decide (selectable_opportunities simProblem < 1)
      then first_usable generated
      else Some simProblem
  end.
End rows.

(** Three solvers and a clock to try the row builder on. *)
Definition sample_solvers : list (solver_entry (list (nat * nat))) :=
  solver_solvers (λ _, (frac 5 1, [(0, 0)%nat]))
                 (λ _, (frac 2 1, [(0, 0)%nat]))
                 (λ _, (frac 1 1, [(0, 0)%nat]))
                 false true true.

Definition sample_clock (n : nat) : Qc := Qc_of_Z (Z.of_nat n).

(** ** The names of the problem files *)

(** [s.zfill(width)] for a text without a sign: zeros in front until the
    text is [width] characters long. *)
Fixpoint zeros_before (n : nat) (s : string) : string :=
  match n with
  | 0 => s
  | S n => String "0"%char (zeros_before n s)
  end.

Definition zfill (s : string) (width : nat) : string :=
  zeros_before (width - String.length s) s.

(** [prefix + str(i).zfill(digits) + suffix + ".json"], for an index that is
    not negative. *)
Definition problem_filename (prefix suffix : string) (digits i : nat) : string :=
  ((prefix +:+ zfill (pretty i) digits) +:+ suffix) +:+ ".json".

(** * Properties *)

(** ** State equality *)

Lemma ne_any_false {A : Type} (ne : A → A → bool) (a b : list A) :
  (∀ x y, ne x y = false ↔ x = y) →
  ne_any ne a b = false ↔ a = b.
Proof.
  intros Hne. revert b. induction a as [|x a IH]; intros [|y b]; simpl; [done| | |].
  - split; discriminate.
  - split; discriminate.
  - rewrite orb_false_iff, Hne, IH. split; [intros [-> ->]; done | by inversion 1].
Qed.

Lemma Qc_ne_false (x y : Qc) : Qc_ne x y = false ↔ x = y.
Proof.
  unfold Qc_ne. rewrite negb_false_iff, bool_decide_eq_true. done.
Qed.

Lemma state_eq_true (s o : State) : state_eq s o = true ↔ s = o.
Proof.
  unfold state_eq.
  pose proof (ne_any_false (ne_any Qc_ne) (Effectors s) (Effectors o)
                (λ x y, ne_any_false Qc_ne x y Qc_ne_false)) as HE.
  pose proof (ne_any_false (ne_any Qc_ne) (Targets s) (Targets o)
                (λ x y, ne_any_false Qc_ne x y Qc_ne_false)) as HT.
  pose proof (ne_any_false (ne_any (ne_any Qc_ne)) (Opportunities s) (Opportunities o)
                (λ x y, ne_any_false (ne_any Qc_ne) x y
                          (λ x y, ne_any_false Qc_ne x y Qc_ne_false))) as HO.
  destruct (ne_any _ (Effectors s) _).
  { split; [done|]. intros ->. destruct HE as [_ HE]. by specialize (HE eq_refl). }
  destruct (ne_any _ (Targets s) _).
  { split; [done|]. intros ->. destruct HT as [_ HT]. by specialize (HT eq_refl). }
  destruct (ne_any _ (Opportunities s) _).
  { split; [done|]. intros ->. destruct HO as [_ HO]. by specialize (HO eq_refl). }
  split; [intros _|done].
  destruct s, o; simpl in *. f_equal; [by apply HE | by apply HT | by apply HO].
Qed.

Lemma contains_true (ns : list Node) (refs : list nat) (n : Node) :
  contains ns refs n = true ↔ ∃ r, r ∈ refs ∧ state (deref ns r) = state n.
Proof.
  unfold contains. rewrite existsb_exists. unfold Node_eq.
  split; intros (r & Hr & Heq); exists r.
  - apply state_eq_true in Heq. by rewrite list_elem_of_In.
  - apply state_eq_true in Heq. by rewrite <-list_elem_of_In.
Qed.

Lemma contains_false (ns : list Node) (refs : list nat) (n : Node) :
  contains ns refs n = false ↔ ∀ r, r ∈ refs → state (deref ns r) ≠ state n.
Proof.
  rewrite <-not_true_iff_false, contains_true. split.
  - intros Hno r Hr Heq. apply Hno. by exists r.
  - intros Hall (r & Hr & Heq). by apply (Hall r).
Qed.

(** ** heapq keeps the items *)
Section heapq_items.
Context {A : Type} (lt : A → A → bool).

Lemma insert_cons_swap (l : list A) (j : nat) (a y : A) :
  (j < length l)%nat → y :: <[j := a]> l ≡ₚ a :: <[j := y]> l.
Proof.
  revert j. induction l as [|b l IH]; intros [|j] Hj; simpl in *; try lia.
  - apply perm_swap.
  - etrans; [apply perm_swap|]. etrans; [apply perm_skip, IH; lia|]. apply perm_swap.
Qed.

Lemma insert_move (heap : list A) (i j : nat) (x y : A) :
  heap !! i = Some x → (j < length heap)%nat → i ≠ j →
  <[i := y]> (<[j := x]> heap) ≡ₚ <[j := y]> heap.
Proof.
  revert i j. induction heap as [|a heap IH]; intros i j Hi Hj Hij; [done|].
  destruct i as [|i], j as [|j]; simpl in *; try done.
  - simplify_eq. apply insert_cons_swap. lia.
  - rewrite <-(list_insert_id heap i x) at 2 by done.
    symmetry. apply insert_cons_swap. by eapply lookup_lt_Some.
  - f_equiv. apply IH; [done|lia|lia].
Qed.

Lemma siftdown_loop_items fuel (heap : list A) startpos pos newitem :
  (pos < length heap)%nat →
  siftdown_loop lt fuel heap startpos pos newitem ≡ₚ <[pos := newitem]> heap.
Proof.
  revert heap pos. induction fuel as [|fuel IH]; intros heap pos Hpos;
    cbn [siftdown_loop]; [done|].
  case_bool_decide as Hlt; [|done].
  destruct (heap !! _) as [par|] eqn:Hpar; [|done].
  destruct (lt newitem par); [|done].
  assert ((pos - 1) / 2 < pos)%nat as Hdiv.
  { apply Nat.Div0.div_lt_upper_bound. lia. }
  rewrite IH by (rewrite length_insert; lia).
  apply insert_move; [done|done|lia].
Qed.

Lemma siftdown_items (heap : list A) startpos pos :
  _siftdown lt heap startpos pos ≡ₚ heap.
Proof.
  unfold _siftdown. destruct (heap !! pos) as [x|] eqn:Hx; [|done].
  rewrite siftdown_loop_items by (by eapply lookup_lt_Some).
  by rewrite list_insert_id.
Qed.

Lemma heappush_items (heap : list A) (item : A) :
  heappush lt heap item ≡ₚ item :: heap.
Proof.
  unfold heappush. rewrite siftdown_items. by rewrite Permutation_app_comm.
Qed.

Lemma siftup_loop_items fuel (heap : list A) pos childpos heap' pos' v :
  (pos < childpos)%nat → (pos < length heap)%nat →
  siftup_loop lt fuel heap pos childpos = (heap', pos') →
  <[pos' := v]> heap' ≡ₚ <[pos := v]> heap ∧ (pos' < length heap')%nat.
Proof.
  revert heap pos childpos. induction fuel as [|fuel IH];
    intros heap pos childpos Hlt Hpos; cbn [siftup_loop]; [by intros [= <- <-]|].
  case_bool_decide as Hc; [|by intros [= <- <-]].
  set (cp := match heap !! childpos with
             | Some l => match heap !! (childpos + 1)%nat with
                         | Some r => if negb (lt l r) then (childpos + 1)%nat else childpos
                         | None => childpos end
             | None => childpos end).
  assert (childpos ≤ cp)%nat as Hcp.
  { unfold cp. repeat case_match; lia. }
  destruct (heap !! cp) as [c|] eqn:Hcv; [|by intros [= <- <-]].
  intros Hrec. apply IH in Hrec as [Hperm Hlen].
  - split; [|done]. rewrite Hperm. apply insert_move; [done|done|lia].
  - lia.
  - rewrite length_insert. by eapply lookup_lt_Some.
Qed.

Lemma siftup_items (heap : list A) pos : _siftup lt heap pos ≡ₚ heap.
Proof.
  unfold _siftup. destruct (heap !! pos) as [x|] eqn:Hx; [|done].
  destruct (siftup_loop _ _ _ _ _) as [heap' pos'] eqn:Hloop.
  rewrite siftdown_items.
  apply (siftup_loop_items _ _ _ _ _ _ x) in Hloop as [-> _];
    [by rewrite list_insert_id | lia | by eapply lookup_lt_Some].
Qed.

Lemma heappop_items (heap : list A) (x : A) (rest : list A) :
  heappop lt heap = Some (x, rest) → x :: rest ≡ₚ heap.
Proof.
  unfold heappop. destruct (list.last heap) as [lastelt|] eqn:Hlast; [|done].
  apply last_Some in Hlast as [front ->].
  rewrite length_app, Nat.add_sub, take_app_length. simpl.
  destruct front as [|y front]; simpl.
  - by intros [= <- <-].
  - intros [= <- <-]. rewrite siftup_items. simpl.
    f_equiv. by rewrite (Permutation_app_comm _ [lastelt]).
Qed.

Lemma heappop_None (heap : list A) : heappop lt heap = None ↔ heap = [].
Proof.
  unfold heappop. split.
  - destruct (list.last heap) eqn:Hlast; [|intros _; by apply last_None].
    by destruct (take _ _).
  - by intros ->.
Qed.
End heapq_items.

(** ** heapq keeps the heap invariant *)
Section heapq_order.
Context {A : Type} (key : A → Qc).

Local Abbreviation lt := (key_lt key).

Lemma parent_pos (i : nat) :
  (0 < i)%nat → (2 * ((i - 1) / 2) + 1 = i ∨ 2 * ((i - 1) / 2) + 2 = i)%nat.
Proof.
  intros Hi. pose proof (Nat.div_mod_eq (i - 1) 2) as Heq.
  pose proof (Nat.mod_upper_bound (i - 1) 2 ltac:(lia)) as Hlt. lia.
Qed.

Lemma parent_pos_lt (i : nat) : (0 < i)%nat → ((i - 1) / 2 < i)%nat.
Proof. intros Hi. destruct (parent_pos i Hi); lia. Qed.

Lemma parent_of_child (pos c : nat) :
  (c = 2 * pos + 1 ∨ c = 2 * pos + 2)%nat → ((c - 1) / 2)%nat = pos.
Proof.
  intros Hc. assert (0 < c)%nat as Hpos by lia.
  destruct (parent_pos c Hpos); lia.
Qed.

Lemma key_lt_true (a b : A) : lt a b = true ↔ key a < key b.
Proof. unfold key_lt. apply bool_decide_eq_true. Qed.

Lemma key_lt_false (a b : A) : lt a b = false ↔ key b ≤ key a.
Proof.
  unfold key_lt. rewrite bool_decide_eq_false. split.
  - apply Qcnot_lt_le.
  - apply Qcle_not_lt.
Qed.

(** The item at position 0 of a heap is a least one. *)
Lemma heap_root_least (heap : list A) (x : A) :
  heap_ordered key heap → heap !! 0%nat = Some x →
  ∀ y, y ∈ heap → key x ≤ key y.
Proof.
  intros Hheap Hx y [i Hy]%list_elem_of_lookup_1. revert y Hy.
  induction (lt_wf i) as [i _ IH]. intros y Hy.
  destruct (decide (i = 0%nat)) as [->|Hi].
  { assert (x = y) as -> by congruence. apply Qcle_refl. }
  pose proof (parent_pos_lt i ltac:(lia)) as Hlt.
  destruct (lookup_lt_is_Some_2 heap ((i - 1) / 2)) as [z Hz].
  { apply lookup_lt_Some in Hy. lia. }
  eapply Qcle_trans; [by apply (IH _ Hlt z)|].
  by apply (Hheap i ltac:(lia) y z).
Qed.

Lemma heap_ordered_take (heap : list A) (n : nat) :
  heap_ordered key heap → heap_ordered key (take n heap).
Proof.
  intros Hheap i Hi x y Hx Hy.
  apply lookup_take_Some in Hx as [Hx _]. apply lookup_take_Some in Hy as [Hy _].
  by apply (Hheap i Hi).
Qed.

(** The loop of [_siftdown]: the new item travels up from [pos]; every
    edge but the one from [pos] to its parent is in order, and the items
    below [pos] are not smaller than the item above it. *)
Lemma siftdown_loop_ordered (fuel : nat) (heap : list A) (pos : nat) (newitem : A) :
  (pos ≤ fuel)%nat → (pos < length heap)%nat →
  (∀ i, (0 < i)%nat → i ≠ pos → ordered_at key (<[pos := newitem]> heap) i) →
  (∀ c y z, (0 < pos)%nat → ((c - 1) / 2)%nat = pos → (0 < c)%nat →
            heap !! c = Some y → heap !! ((pos - 1) / 2)%nat = Some z →
            key z ≤ key y) →
  heap_ordered key (siftdown_loop lt fuel heap 0 pos newitem).
Proof.
  revert heap pos. induction fuel as [|fuel IH]; intros heap pos Hfuel Hpos HI HJ;
    cbn [siftdown_loop].
  { assert (pos = 0%nat) as -> by lia. intros i Hi. apply HI; lia. }
  case_bool_decide as Hlt; last first.
  { assert (pos = 0%nat) as -> by lia. intros i Hi. apply HI; lia. }
  pose proof (parent_pos_lt pos Hlt) as Hpp.
  set (pp := ((pos - 1) / 2)%nat) in *.
  destruct (lookup_lt_is_Some_2 heap pp) as [par Hpar]; [lia|]. rewrite Hpar.
  destruct (lt newitem par) eqn:Hcmp.
  - (* the parent moves down *)
    apply key_lt_true in Hcmp. apply IH.
    + lia.
    + rewrite length_insert. lia.
    + intros i Hi Hipp x y Hx Hy.
      destruct (decide (i = pos)) as [->|Hipos].
      * fold pp in Hy. rewrite list_lookup_insert_eq in Hy
          by (rewrite length_insert; lia).
        rewrite list_lookup_insert_ne, list_lookup_insert_eq in Hx by (done || lia).
        simplify_eq. by apply Qclt_le_weak.
      * rewrite !list_lookup_insert_ne in Hx by done.
        destruct (decide (((i - 1) / 2)%nat = pp)) as [Hq|Hq].
        -- rewrite Hq, list_lookup_insert_eq in Hy by (rewrite length_insert; lia).
           simplify_eq. eapply Qcle_trans; [by apply Qclt_le_weak|].
           apply (HI i Hi Hipos x par).
           ++ by rewrite list_lookup_insert_ne.
           ++ rewrite Hq. rewrite list_lookup_insert_ne by lia. done.
        -- rewrite list_lookup_insert_ne in Hy by done.
           destruct (decide (((i - 1) / 2)%nat = pos)) as [Hq'|Hq'].
           ++ rewrite Hq', list_lookup_insert_eq in Hy by done.
              injection Hy as <-. by apply (HJ i x par Hlt Hq' Hi).
           ++ rewrite list_lookup_insert_ne in Hy by done.
              apply (HI i Hi Hipos x y); by rewrite list_lookup_insert_ne.
    + intros c y z Hpp0 Hc Hc0 Hy Hz.
      pose proof (parent_pos_lt pp Hpp0) as Hgp.
      rewrite list_lookup_insert_ne in Hz by lia.
      assert (key z ≤ key par) as Hzpar.
      { apply (HI pp Hpp0 ltac:(lia) par z); by rewrite list_lookup_insert_ne by lia. }
      destruct (decide (c = pos)) as [->|Hcpos].
      * rewrite list_lookup_insert_eq in Hy by done. by simplify_eq.
      * rewrite list_lookup_insert_ne in Hy by done.
        eapply Qcle_trans; [exact Hzpar|].
        apply (HI c Hc0 Hcpos y par).
        -- by rewrite list_lookup_insert_ne.
        -- rewrite Hc. by rewrite list_lookup_insert_ne by lia.
  - (* the new item stays at [pos] *)
    apply key_lt_false in Hcmp. intros i Hi.
    destruct (decide (i = pos)) as [->|Hipos]; [|by apply HI].
    intros x y Hx Hy. fold pp in Hy.
    rewrite list_lookup_insert_eq in Hx by done.
    rewrite list_lookup_insert_ne in Hy by lia. by simplify_eq.
Qed.

Lemma siftdown_ordered_leaf (heap : list A) (pos : nat) :
  (pos < length heap)%nat → (length heap ≤ 2 * pos + 1)%nat →
  (∀ i, (0 < i)%nat → i ≠ pos → ((i - 1) / 2)%nat ≠ pos → ordered_at key heap i) →
  heap_ordered key (_siftdown lt heap 0 pos).
Proof.
  intros Hpos Hleaf Hrest. unfold _siftdown.
  destruct (lookup_lt_is_Some_2 heap pos Hpos) as [newitem Hnew]. rewrite Hnew.
  assert (∀ c, (0 < c)%nat → ((c - 1) / 2)%nat = pos → heap !! c = None) as Hnone.
  { intros c Hc Hcp. apply lookup_ge_None_2. destruct (parent_pos c Hc); lia. }
  apply siftdown_loop_ordered; [done|done| |].
  - rewrite list_insert_id by done. intros i Hi Hipos.
    destruct (decide (((i - 1) / 2)%nat = pos)) as [Hq|Hq]; [|by apply Hrest].
    intros x y Hx. by rewrite (Hnone i Hi Hq) in Hx.
  - intros c y z _ Hc Hc0 Hy. by rewrite (Hnone c Hc0 Hc) in Hy.
Qed.

Lemma heappush_ordered (heap : list A) (item : A) :
  heap_ordered key heap → heap_ordered key (heappush lt heap item).
Proof.
  intros Hheap. unfold heappush. apply siftdown_ordered_leaf.
  - rewrite length_app. simpl. lia.
  - rewrite length_app. simpl. lia.
  - intros i Hi Hipos _ x y Hx Hy.
    pose proof (parent_pos_lt i Hi) as Hlt.
    apply lookup_lt_Some in Hx as Hilt. rewrite length_app in Hilt. simpl in Hilt.
    rewrite lookup_app_l in Hx by lia. rewrite lookup_app_l in Hy by lia.
    by apply (Hheap i Hi).
Qed.

(** The loop of [_siftup]: the hole travels down from [pos]; the edges
    that do not touch [pos] are in order, and the items below [pos] are not
    smaller than the item above it. It stops at a leaf. *)
Lemma siftup_loop_ordered (fuel : nat) (heap heap' : list A) (pos pos' : nat) :
  (pos < length heap)%nat → (length heap - pos ≤ fuel)%nat →
  (∀ i, (0 < i)%nat → i ≠ pos → ((i - 1) / 2)%nat ≠ pos → ordered_at key heap i) →
  (∀ c y z, (0 < pos)%nat → ((c - 1) / 2)%nat = pos → (0 < c)%nat →
            heap !! c = Some y → heap !! ((pos - 1) / 2)%nat = Some z →
            key z ≤ key y) →
  siftup_loop lt fuel heap pos (2 * pos + 1) = (heap', pos') →
  (pos' < length heap')%nat ∧ (length heap' ≤ 2 * pos' + 1)%nat
  ∧ (∀ i, (0 < i)%nat → i ≠ pos' → ((i - 1) / 2)%nat ≠ pos' →
          ordered_at key heap' i)
  ∧ (∀ c y z, (0 < pos')%nat → ((c - 1) / 2)%nat = pos' → (0 < c)%nat →
              heap' !! c = Some y → heap' !! ((pos' - 1) / 2)%nat = Some z →
              key z ≤ key y).
Proof.
  revert heap pos. induction fuel as [|fuel IH]; intros heap pos Hpos Hfuel HK HJ;
    cbn [siftup_loop]; [lia|].
  case_bool_decide as Hchild; last first.
  { intros [= <- <-]. split_and!; try done. lia. }
  destruct (lookup_lt_is_Some_2 heap (2 * pos + 1)) as [l Hl]; [done|].
  rewrite Hl.
  set (cp := match heap !! (2 * pos + 1 + 1)%nat with
             | Some r => if negb (lt l r) then (2 * pos + 1 + 1)%nat
                         else (2 * pos + 1)%nat
             | None => (2 * pos + 1)%nat
             end).
  assert ((cp = 2 * pos + 1 ∨ cp = 2 * pos + 2)%nat) as Hcp.
  { unfold cp. repeat case_match; lia. }
  pose proof (parent_of_child pos cp Hcp) as Hcpp.
  destruct (heap !! cp) as [c|] eqn:Hc; last first.
  { exfalso. apply lookup_ge_None_1 in Hc.
    unfold cp in Hc. destruct (heap !! (2 * pos + 1 + 1)%nat) as [r|] eqn:Hr; [|lia].
    apply lookup_lt_Some in Hr. destruct (negb _); lia. }
  (* the sibling of the chosen child is not smaller than it *)
  assert (∀ i x, (0 < i)%nat → ((i - 1) / 2)%nat = pos → i ≠ cp →
                 heap !! i = Some x → key c ≤ key x) as Hsib.
  { intros i x Hi Hip Hicp Hx.
    assert (i = 2 * pos + 1 ∨ i = 2 * pos + 2)%nat as Hi2
      by (destruct (parent_pos i Hi); lia).
    unfold cp in Hc, Hicp.
    destruct (heap !! (2 * pos + 1 + 1)%nat) as [r|] eqn:Hr.
    - destruct (lt l r) eqn:Hlr; cbn [negb] in Hc, Hicp.
      + apply key_lt_true in Hlr.
        assert (i = 2 * pos + 1 + 1)%nat as -> by lia.
        assert (c = l) as -> by congruence. assert (x = r) as -> by congruence.
        by apply Qclt_le_weak.
      + apply key_lt_false in Hlr.
        assert (i = 2 * pos + 1)%nat as -> by lia.
        assert (c = r) as -> by congruence. assert (x = l) as -> by congruence.
        done.
    - assert (i = 2 * pos + 1 + 1)%nat as -> by lia. congruence. }
  apply lookup_lt_Some in Hc as Hcplt.
  replace (2 * cp + 1)%nat with (2 * cp + 1)%nat by done.
  intros Hrec. apply IH in Hrec; first done.
  - rewrite length_insert. lia.
  - rewrite length_insert. lia.
  - intros i Hi Hicp Hiq x y Hx Hy.
    destruct (decide (i = pos)) as [->|Hipos].
    + rewrite list_lookup_insert_eq in Hx by done. injection Hx as <-.
      pose proof (parent_pos_lt pos Hi) as Hlt.
      rewrite list_lookup_insert_ne in Hy by lia.
      apply (HJ cp c y Hi Hcpp ltac:(lia) Hc Hy).
    + rewrite list_lookup_insert_ne in Hx by done.
      destruct (decide (((i - 1) / 2)%nat = pos)) as [Hq|Hq].
      * rewrite Hq, list_lookup_insert_eq in Hy by done. injection Hy as <-.
        by apply (Hsib i x).
      * rewrite list_lookup_insert_ne in Hy by done. by apply (HK i Hi Hipos Hq).
  - intros c' y z Hcp0 Hc' Hc'0 Hy Hz.
    rewrite Hcpp, list_lookup_insert_eq in Hz by done. injection Hz as <-.
    pose proof (parent_pos_lt c' Hc'0) as Hlt.
    rewrite list_lookup_insert_ne in Hy by lia.
    apply (HK c' Hc'0 ltac:(lia) ltac:(lia) y c Hy). by rewrite Hc'.
Qed.

Lemma siftup_ordered (heap : list A) :
  (0 < length heap)%nat →
  (∀ i, (0 < i)%nat → ((i - 1) / 2)%nat ≠ 0%nat → ordered_at key heap i) →
  heap_ordered key (_siftup lt heap 0).
Proof.
  intros Hlen Hrest. unfold _siftup.
  destruct (lookup_lt_is_Some_2 heap 0 Hlen) as [newitem Hnew]. rewrite Hnew.
  destruct (siftup_loop _ _ _ _ _) as [heap' pos'] eqn:Hloop.
  apply siftup_loop_ordered in Hloop as (Hpos' & Hleaf & HK & _);
    [|done|lia| |intros; lia]; last first.
  { intros i Hi _ Hq. by apply Hrest. }
  apply siftdown_ordered_leaf.
  - by rewrite length_insert.
  - by rewrite length_insert.
  - intros i Hi Hipos Hq x y Hx Hy.
    rewrite list_lookup_insert_ne in Hx by done.
    rewrite list_lookup_insert_ne in Hy by done. by apply (HK i Hi Hipos Hq).
Qed.

Lemma heappop_ordered (heap rest : list A) (x : A) :
  heap_ordered key heap → heappop lt heap = Some (x, rest) →
  heap_ordered key rest ∧ ∀ y, y ∈ rest → key x ≤ key y.
Proof.
  intros Hheap Hpop. split; last first.
  { intros y Hy. pose proof (heappop_items _ _ _ _ Hpop) as Hperm.
    assert (heap !! 0%nat = Some x) as Hx.
    { unfold heappop in Hpop. destruct (list.last heap) as [lastelt|] eqn:Hlast; [|done].
      apply last_Some in Hlast as [front ->].
      rewrite length_app, Nat.add_sub, take_app_length in Hpop.
      destruct front as [|y0 front]; simpl in *; by injection Hpop as <- _. }
    apply (heap_root_least heap x Hheap Hx). rewrite <-Hperm. by right. }
  unfold heappop in Hpop. destruct (list.last heap) as [lastelt|] eqn:Hlast; [|done].
  apply last_Some in Hlast as [front ->].
  rewrite length_app, Nat.add_sub, take_app_length in Hpop.
  destruct front as [|y0 front]; simpl in Hpop; injection Hpop as <- <-.
  { intros i Hi y z Hy. done. }
  apply siftup_ordered; [simpl; lia|].
  intros i Hi Hq y z Hy Hz. apply (Hheap i Hi).
  - destruct i as [|i']; [lia|]. rewrite <-app_comm_cons.
    rewrite lookup_cons_ne_0 in Hy |- * by done. by apply lookup_app_l_Some.
  - destruct ((i - 1) / 2)%nat as [|q']; [done|]. rewrite <-app_comm_cons.
    rewrite lookup_cons_ne_0 in Hz |- * by done. by apply lookup_app_l_Some.
Qed.

Lemma heap_ordered_keys (key' : A → Qc) (heap : list A) :
  (∀ x, x ∈ heap → key' x = key x) →
  heap_ordered key heap → heap_ordered key' heap.
Proof.
  intros Hkeys Hheap i Hi x y Hx Hy.
  rewrite !Hkeys by (by eapply list_elem_of_lookup_2). by apply (Hheap i Hi).
Qed.
End heapq_order.

(** ** The loop and its runs *)
Section loop_facts.
Context (JF : Features) (env : Simulation) (heuristic : State → Qc).

Local Abbreviation step := (iteration JF env heuristic).
Local Abbreviation loop := (AStar_loop JF env heuristic).
Local Abbreviation runs := (run JF env heuristic).

Lemma run_trans (s1 s2 s3 : Locals) : runs s1 s2 → runs s2 s3 → runs s1 s3.
Proof.
  intros H12 H23. induction H23 as [|s s' _ IH Hstep]; [done|].
  by eapply run_round.
Qed.

Lemma run_first (s1 s2 s3 : Locals) :
  step s1 = Some (Continue s2) → runs s2 s3 → runs s1 s3.
Proof.
  intros Hstep. apply run_trans. eapply run_round; [apply run_here | done].
Qed.

(** Whatever the loop returns is returned either at an empty frontier,
    as the failure sentinel, or by a round that accepts. *)
Lemma AStar_loop_returns fuel (s : Locals) (res : Result) :
  loop fuel s = Some res →
  ∃ s', runs s s'
        ∧ ((frontier s' = []
            ∧ res = {| res_solution := failed; res_g := None;
                       res_expansions := expansions s';
                       res_branchFactor := branchFactor s' |})
           ∨ step s' = Some (Return res)).
Proof.
  revert s. induction fuel as [|fuel IH]; intros s; simpl; [done|].
  destruct (frontier s) as [|r0 fr] eqn:Hfr.
  { intros [= <-]. exists s. split; [apply run_here | by left]. }
  destruct (step s) as [[s1|res1]|] eqn:Hit; [| |done].
  - intros (s' & Hrun & Hres)%IH. exists s'. split; [|done].
    by eapply run_first.
  - intros [= ->]. exists s. split; [apply run_here | by right].
Qed.

(** Fuel beyond what a run needs does not change its result. *)
Lemma AStar_loop_more fuel (s : Locals) (res : Result) :
  loop fuel s = Some res → loop (S fuel) s = Some res.
Proof.
  revert s. induction fuel as [|fuel IH]; intros s; [done|].
  intros Hloop. cbn [AStar_loop] in *.
  destruct (frontier s); [done|].
  destruct (step s) as [[s1|res1]|]; [|done|done].
  by apply IH.
Qed.

Lemma AStar_loop_run (s s' : Locals) fuel (res : Result) :
  runs s s' → loop fuel s' = Some res →
  ∃ fuel', loop fuel' s = Some res.
Proof.
  intros Hrun. revert fuel. induction Hrun as [|s1 s2 _ IH Hstep]; intros fuel Hres.
  { by exists fuel. }
  apply (IH (S fuel)). cbn [AStar_loop].
  destruct (frontier s1) eqn:Hfr.
  { unfold iteration in Hstep. rewrite Hfr in Hstep. done. }
  by rewrite Hstep.
Qed.

Lemma rounds_run (n : nat) (s : Locals) : runs s (rounds JF env heuristic n s).
Proof.
  revert s. induction n as [|n IH]; intros s; simpl; [apply run_here|].
  destruct (step s) as [[s'|res]|] eqn:Hstep; try apply run_here.
  by eapply run_first.
Qed.
End loop_facts.

(** ** The node store *)

Lemma deref_lookup (ns : list Node) (r : nat) (n : Node) :
  ns !! r = Some n → deref ns r = n.
Proof. unfold deref. by intros ->. Qed.

Lemma lookup_deref (ns : list Node) (r : nat) :
  (r < length ns)%nat → ns !! r = Some (deref ns r).
Proof.
  intros [n Hn]%lookup_lt_is_Some_2. by rewrite (deref_lookup _ _ _ Hn).
Qed.

Lemma deref_app_old (ns : list Node) (x : Node) (q : nat) :
  (q < length ns)%nat → deref (ns ++ [x]) q = deref ns q.
Proof. intros Hq. unfold deref. by rewrite lookup_app_l. Qed.

Lemma deref_app_new (ns : list Node) (x : Node) : deref (ns ++ [x]) (length ns) = x.
Proof.
  unfold deref. rewrite lookup_app_r, Nat.sub_diag by done. done.
Qed.

Lemma deref_insert_ne (ns : list Node) (r q : nat) (n : Node) :
  r ≠ q → deref (<[r := n]> ns) q = deref ns q.
Proof. intros Hne. unfold deref. by rewrite list_lookup_insert_ne. Qed.

Lemma deref_insert_eq (ns : list Node) (r : nat) (n : Node) :
  (r < length ns)%nat → deref (<[r := n]> ns) r = n.
Proof. intros Hr. unfold deref. by rewrite list_lookup_insert_eq. Qed.

Lemma state_deref_set_g (ns : list Node) (r q : nat) (v : Qc) :
  state (deref (<[r := set_g (deref ns r) v]> ns) q) = state (deref ns q).
Proof.
  destruct (decide (r = q)) as [->|Hne]; [|by rewrite deref_insert_ne].
  destruct (decide (q < length ns)%nat) as [Hq|Hq].
  - by rewrite deref_insert_eq.
  - by rewrite list_insert_ge by lia.
Qed.

(** ** The invariant is kept by every round *)
Section invariant_facts.
Context (JF : Features) (env : Simulation) (heuristic : State → Qc).
Context (st : State).

Local Abbreviation Inv := (inv JF env heuristic st).

Lemma inv_weaken (c1 c2 : nat → nat * nat → Prop) (s : Locals) :
  (∀ p a, p ∈ explored s →
          a ∈ selectable_pairs JF (state (deref (nodes s) p)) →
          c2 p a → c1 p a) →
  Inv c1 s → Inv c2 s.
Proof.
  intros Hc [H1 H2 H3 H4 H5 H6]. split; try done.
  intros p a Hp Ha Hcov. apply H6; [done|done|]. by apply Hc.
Qed.

Lemma inv_parent_lt covered (s : Locals) (r p : nat) :
  Inv covered s → parent (deref (nodes s) r) = Some p →
  (p < r)%nat ∧ (r < length (nodes s))%nat ∧ r ≠ 0%nat ∧ p ∈ explored s.
Proof.
  intros HI Hp.
  destruct (nodes s !! r) as [n|] eqn:Hn; last first.
  { unfold deref in Hp. by rewrite Hn in Hp. }
  rewrite (deref_lookup _ _ _ Hn) in Hp.
  assert (r ≠ 0%nat) as Hr0.
  { intros ->. destruct (inv_root _ _ _ _ _ _ HI) as (n0 & Hn0 & Hroot & _).
    congruence. }
  destruct (inv_child _ _ _ _ _ _ HI r n Hn Hr0) as (p' & act & Hp' & _ & Hlt & Hex & _).
  assert (p' = p) as -> by congruence.
  split; [done|]. split; [by eapply lookup_lt_Some|done].
Qed.

Lemma inv_no_parent covered (s : Locals) (r : nat) :
  Inv covered s → (r < length (nodes s))%nat →
  parent (deref (nodes s) r) = None → r = 0%nat.
Proof.
  intros HI Hr Hp. destruct (decide (r = 0%nat)) as [|Hr0]; [done|].
  pose proof (lookup_deref _ _ Hr) as Hn.
  destruct (inv_child _ _ _ _ _ _ HI r _ Hn Hr0) as (p' & act & Hp' & _).
  congruence.
Qed.

Lemma make_child_fields (ns : list Node) (r : nat) (act : nat * nat) :
  let c := make_child env heuristic ns r act in
  parent c = Some r ∧ action c = Some act
  ∧ update_state env act (state (deref ns r)) = (state c, reward c, terminal c)
  ∧ g c = g (deref ns r) - reward c - heuristic (state c).
Proof.
  unfold make_child. destruct (update_state env act _) as [[new_state rew] term].
  done.
Qed.

Lemma expand_round_inv covered (s : Locals) (r : nat) (act : nat * nat) :
  Inv covered s → r ∈ explored s →
  act ∈ selectable_pairs JF (state (deref (nodes s) r)) →
  let s' := expand_round env heuristic r s act in
  Inv (λ p a, covered p a ∨ (p = r ∧ a = act)) s'
  ∧ explored s' = explored s ∧ expansions s' = expansions s
  ∧ (∀ q, (q < length (nodes s))%nat → deref (nodes s') q = deref (nodes s) q)
  ∧ (length (nodes s) ≤ length (nodes s'))%nat.
Proof.
  intros HI Hr Hact. unfold expand_round.
  pose proof (make_child_fields (nodes s) r act) as (Hcp & Hca & Hcu & Hcg).
  set (child := make_child env heuristic (nodes s) r act) in *.
  destruct (contains (nodes s) (explored s) child) eqn:Hex; simpl.
  { (* a closed node has the state *)
    split_and!; try done.
    destruct HI as [H1 H2 H3 H4 H5 H6]. split; try done. simpl.
    intros p a Hp Ha [Hcov|[-> ->]]; [by apply H6|].
    apply contains_true in Hex as (q & Hq & Hst). exists q. simpl.
    split; [apply elem_of_app; by right|]. by rewrite Hst, Hcu. }
  destruct (contains (nodes s) (frontier s) child) eqn:Hfr; simpl.
  { (* a frontier node has the state *)
    split_and!; try done.
    destruct HI as [H1 H2 H3 H4 H5 H6]. split; try done. simpl.
    intros p a Hp Ha [Hcov|[-> ->]]; [by apply H6|].
    apply contains_true in Hfr as (q & Hq & Hst). exists q. simpl.
    split; [apply elem_of_app; by left|]. by rewrite Hst, Hcu. }
  (* the child is pushed *)
  set (ns' := nodes s ++ [child]).
  assert (∀ q, (q < length (nodes s))%nat → deref ns' q = deref (nodes s) q)
    as Hold by (intros q Hq; by apply deref_app_old).
  pose proof (heappush_items (ref_lt ns') (frontier s) (length (nodes s))) as Hperm.
  assert (∀ q, q ∈ frontier s ++ explored s → deref ns' q = deref (nodes s) q)
    as Hold'.
  { intros q Hq. apply Hold. by eapply inv_refs. }
  assert (∀ q, q ∈ explored s → (q < length (nodes s))%nat) as Hexlt.
  { intros q Hq. eapply inv_refs; [done|]. apply elem_of_app. by right. }
  split_and!; try done; [|unfold ns'; rewrite length_app; lia].
  split; simpl.
  - destruct (inv_root _ _ _ _ _ _ HI) as (n0 & Hn0 & Hroot). exists n0.
    split; [|done]. unfold ns'. by rewrite lookup_app_l by by eapply lookup_lt_Some.
  - intros q. rewrite Hperm. simpl. unfold ns'. rewrite length_app. simpl.
    intros [->|Hq]%elem_of_cons; [lia|]. pose proof (inv_refs _ _ _ _ _ _ HI q Hq). lia.
  - rewrite Hperm, <-app_comm_cons, fmap_cons. apply NoDup_cons_2.
    + intros (q & Hst & Hq)%list_elem_of_fmap.
      unfold ns' in Hst at 1. rewrite deref_app_new in Hst.
      rewrite Hold' in Hst by done.
      apply elem_of_app in Hq as [Hq|Hq].
      * by apply (proj1 (contains_false _ _ _) Hfr q).
      * by apply (proj1 (contains_false _ _ _) Hex q).
    + erewrite list_fmap_ext; [by apply (inv_distinct _ _ _ _ _ _ HI)|].
      intros i q Hq%list_elem_of_lookup_2. simpl. by rewrite Hold'.
  - intros r' n' Hn' Hr0. unfold ns' in Hn'.
    apply lookup_app_Some in Hn' as [Hn'|[Hlen Hn']].
    + destruct (inv_child _ _ _ _ _ _ HI r' n' Hn' Hr0)
        as (p & a & Hp & Ha & Hlt & Hpe & Hsel & Hupd & Hg).
      exists p, a. simpl. apply lookup_lt_Some in Hn' as Hr'.
      rewrite Hold by lia. done.
    + destruct (r' - length (nodes s))%nat eqn:Hd; [|by destruct n].
      simpl in Hn'. injection Hn' as <-.
      exists r, act. simpl. pose proof (Hexlt r Hr) as Hrlt.
      rewrite Hold by done.
      split_and!; try done; [lia|by left].
  - intros r' Hr'. destruct (inv_closed _ _ _ _ _ _ HI r' Hr') as [Hterm Hg].
    unfold is_closed. simpl. rewrite Hold by by apply Hexlt. split; [done|].
    intros p Hp. destruct (inv_parent_lt _ _ _ _ HI Hp) as (Hlt & Hlen & _).
    rewrite Hold by lia. by apply Hg.
  - intros p a Hp Ha Hcov. unfold known. simpl.
    rewrite Hold in Ha |- * by by apply Hexlt.
    destruct Hcov as [Hcov|[-> ->]].
    + destruct (inv_known _ _ _ _ _ _ HI p a Hp Ha Hcov) as (q & Hq & Hst).
      exists q. rewrite Hold' by done. split; [|done].
      rewrite Hperm, <-app_comm_cons. by apply elem_of_cons; right.
    + exists (length (nodes s)).
      split; [rewrite Hperm, <-app_comm_cons; by apply elem_of_cons; left|].
      unfold ns'. by rewrite deref_app_new, Hcu.
Qed.
Lemma expand_rounds_inv (acts : list (nat * nat)) covered (s : Locals) (r : nat) :
  Inv covered s → r ∈ explored s →
  (∀ a, a ∈ acts → a ∈ selectable_pairs JF (state (deref (nodes s) r))) →
  let s' := foldl (expand_round env heuristic r) s acts in
  Inv (λ p a, covered p a ∨ (p = r ∧ a ∈ acts)) s'
  ∧ explored s' = explored s ∧ expansions s' = expansions s
  ∧ (∀ q, (q < length (nodes s))%nat → deref (nodes s') q = deref (nodes s) q)
  ∧ (length (nodes s) ≤ length (nodes s'))%nat.
Proof.
  revert covered s. induction acts as [|a acts IH]; intros covered s HI Hr Hacts; simpl.
  { split_and!; try done. eapply inv_weaken; [|done].
    intros p a _ _ [?|[_ ?%elem_of_nil]]; done. }
  assert (r < length (nodes s))%nat as Hrlt.
  { eapply inv_refs; [done|]. apply elem_of_app. by right. }
  destruct (expand_round_inv covered s r a HI Hr) as (HI1 & Hex1 & Hn1 & Hold1 & Hlen1).
  { apply Hacts. by left. }
  destruct (IH _ _ HI1) as (HI2 & Hex2 & Hn2 & Hold2 & Hlen2).
  { by rewrite Hex1. }
  { intros a' Ha'. rewrite Hold1 by done. apply Hacts. by right. }
  split_and!.
  - eapply inv_weaken; [|done]. simpl.
    intros p a' _ _ [?|[-> [->|?]%elem_of_cons]]; auto.
  - by rewrite Hex2.
  - by rewrite Hn2.
  - intros q Hq. rewrite Hold2 by lia. by apply Hold1.
  - lia.
Qed.

(** The popped reference is on the frontier and nothing in the closed
    list has its state: the test [node in explored] never succeeds. *)
Lemma popped_fresh covered (s : Locals) (r : nat) (rest : list nat) :
  Inv covered s → r :: rest ≡ₚ frontier s →
  (r ∉ explored s)
  ∧ contains (nodes s) (explored s) (deref (nodes s) r) = false.
Proof.
  intros HI Hperm. pose proof (inv_distinct _ _ _ _ _ _ HI) as Hnd.
  rewrite <-Hperm, <-app_comm_cons, fmap_cons, fmap_app in Hnd.
  apply NoDup_cons_1_1 in Hnd as Hnotin.
  assert (∀ q, q ∈ explored s → state (deref (nodes s) q) ≠ state (deref (nodes s) r))
    as Hne.
  { intros q Hq Heq. apply Hnotin, elem_of_app. right.
    apply list_elem_of_fmap. by exists q. }
  split; [|by apply contains_false].
  intros Hin. by apply (Hne r).
Qed.

(** Overwriting [g] of the popped node with the value recomputed from
    its parent, and moving the node wherever the round puts it. *)
Lemma correct_inv (s : Locals) (r : nat) (rest fr' ex' : list nat) (v : Qc)
    (e b d : nat) :
  let n := deref (nodes s) r in
  invariant JF env heuristic st s → r :: rest ≡ₚ frontier s →
  v = match parent n with
      | Some p => g (deref (nodes s) p) - reward n
      | None => g n
      end →
  fr' ++ ex' ≡ₚ frontier s ++ explored s →
  (∀ q, q ∈ explored s → q ∈ ex') →
  (∀ q, q ∈ ex' → q ∈ explored s ∨ (q = r ∧ terminal n = false)) →
  terminal n = true ∨ r ∈ ex' →
  Inv (λ p _, p ∈ explored s)
      {| nodes := <[r := set_g n v]> (nodes s); frontier := fr'; explored := ex';
         expansions := e; branchFactor := b; duplicate_states := d |}.
Proof.
  intros n HI Hperm Hv Hperm' Hsub Hsup Hwhere.
  assert (n = deref (nodes s) r) as Hn by done. clearbody n.
  destruct (popped_fresh _ _ _ _ HI Hperm) as [Hrex _].
  assert (r ∈ frontier s) as Hrfr by (rewrite <-Hperm; by left).
  assert (r < length (nodes s))%nat as Hrlt.
  { eapply inv_refs; [done|]. apply elem_of_app. by left. }
  set (ns1 := <[r := set_g n v]> (nodes s)).
  assert (∀ q, q ≠ r → deref ns1 q = deref (nodes s) q) as Hne.
  { intros q Hq. by apply deref_insert_ne. }
  assert (deref ns1 r = set_g n v) as Heq by by apply deref_insert_eq.
  assert (∀ q, state (deref ns1 q) = state (deref (nodes s) q)) as Hst.
  { intros q. unfold ns1. rewrite Hn. apply state_deref_set_g. }
  assert (∀ q, q ∈ explored s → deref ns1 q = deref (nodes s) q) as Hexq.
  { intros q Hq. apply Hne. by intros ->. }
  split; simpl.
  - destruct (inv_root _ _ _ _ _ _ HI) as (n0 & Hn0 & Hroot).
    destruct (decide (r = 0%nat)) as [->|Hr0].
    + rewrite (deref_lookup _ _ _ Hn0) in Hn. subst n.
      exists (set_g n0 v). split; [by apply list_lookup_insert_eq|].
      destruct Hroot as (Hp & Ha & Hs & Hr & Ht & Hg). rewrite Hp in Hv.
      subst v. by repeat split.
    + exists n0. split; [|done]. unfold ns1. by rewrite list_lookup_insert_ne.
  - intros q Hq. unfold ns1. rewrite length_insert.
    eapply inv_refs; [done|]. by rewrite <-Hperm'.
  - erewrite list_fmap_ext; [|intros i q _; apply Hst].
    rewrite Hperm'. by eapply inv_distinct.
  - intros r' n' Hn' Hr0. unfold ns1 in Hn'.
    destruct (decide (r = r')) as [<-|Hrr'].
    + rewrite list_lookup_insert_eq in Hn' by done. injection Hn' as <-.
      pose proof (lookup_deref _ _ Hrlt) as Hlook. rewrite <-Hn in Hlook.
      destruct (inv_child _ _ _ _ _ _ HI r n Hlook Hr0)
        as (p & a & Hp & Ha & Hlt & Hpe & Hsel & Hupd & Hg).
      exists p, a. simpl. rewrite Hexq by done.
      split_and!; try done; [by apply Hsub|]. right. by rewrite Hv, Hp.
    + rewrite list_lookup_insert_ne in Hn' by done.
      destruct (inv_child _ _ _ _ _ _ HI r' n' Hn' Hr0)
        as (p & a & Hp & Ha & Hlt & Hpe & Hsel & Hupd & Hg).
      exists p, a. simpl. rewrite Hexq by done.
      split_and!; try done; [by apply Hsub|].
      destruct Hg as [Hg|[Hg [Ht|He]]]; [by left|right..]; auto.
  - intros q Hq. unfold is_closed. simpl.
    destruct (Hsup q Hq) as [Hqe|[-> Hterm]].
    + destruct (inv_closed _ _ _ _ _ _ HI q Hqe) as [Hterm Hg].
      rewrite Hexq by done. split; [done|].
      intros p Hp. destruct (inv_parent_lt _ _ _ _ HI Hp) as (_ & _ & _ & Hpe).
      rewrite Hexq by done. by apply Hg.
    + rewrite Heq. simpl. split; [done|]. intros p Hp.
      rewrite Hn in Hp.
      destruct (inv_parent_lt _ _ _ _ HI Hp) as (_ & _ & _ & Hpe).
      rewrite <-Hn in Hp.
      rewrite Hexq by done. by rewrite Hv, Hp.
  - intros p a Hp Ha Hpe. unfold known. simpl.
    rewrite Hst in Ha. rewrite Hst.
    destruct (inv_known _ _ _ _ _ _ HI p a Hpe Ha I) as (q & Hq & Hq').
    exists q. rewrite Hst. split; [|done]. by rewrite Hperm'.
Qed.
Lemma set_g_same (n : Node) : set_g n (g n) = n.
Proof. by destruct n. Qed.

(** Closing the popped node and expanding it. *)
Lemma expand_inv (s : Locals) (r : nat) (rest : list nat) (v : Qc) (e b d : nat) :
  let n := deref (nodes s) r in
  invariant JF env heuristic st s → r :: rest ≡ₚ frontier s →
  terminal n = false →
  v = match parent n with
      | Some p => g (deref (nodes s) p) - reward n
      | None => g n
      end →
  invariant JF env heuristic st
    (expand JF env heuristic r
       {| nodes := <[r := set_g n v]> (nodes s); frontier := rest;
          explored := explored s; expansions := e; branchFactor := b;
          duplicate_states := d |}).
Proof.
  intros n HI Hperm Hterm Hv. subst n. unfold expand. simpl.
  assert (r < length (nodes s))%nat as Hrlt.
  { eapply inv_refs; [done|]. apply elem_of_app. left. rewrite <-Hperm. by left. }
  pose proof (correct_inv s r rest rest (explored s ++ [r]) v e b d HI Hperm Hv) as HI1.
  set (acts := selectable_pairs JF _).
  match type of HI1 with _ → _ → _ → _ → Inv _ ?x => set (s1 := x) in * end.
  destruct (expand_rounds_inv acts (λ p _, p ∈ explored s) s1 r)
    as (HI2 & Hex2 & _ & Hold2 & _).
  - apply HI1.
    + rewrite <-Hperm. rewrite (assoc (++)), <-app_comm_cons.
      by rewrite <-Permutation_middle, (right_id [] (++)).
    + intros q Hq. apply elem_of_app. by left.
    + intros q [Hq| ->%list_elem_of_singleton]%elem_of_app; [by left|by right].
    + right. apply elem_of_app. right. by left.
  - simpl. apply elem_of_app. right. by left.
  - done.
  - eapply inv_weaken; [|exact HI2].
    intros p a Hp Ha _. rewrite Hex2 in Hp. simpl in Hp.
    apply elem_of_app in Hp as [Hp| ->%list_elem_of_singleton]; [by left|].
    right. split; [done|].
    rewrite Hold2 in Ha by (simpl; by rewrite length_insert). done.
Qed.

Lemma loop_body_inv (s s' : Locals) (r : nat) (rest : list nat) :
  invariant JF env heuristic st s →
  heappop (ref_lt (nodes s)) (frontier s) = Some (r, rest) →
  loop_body JF env heuristic s r rest = Continue s' →
  invariant JF env heuristic st s'.
Proof.
  intros HI Hperm%heappop_items. unfold loop_body.
  destruct (popped_fresh _ _ _ _ HI Hperm) as [_ ->].
  destruct (parent (deref (nodes s) r)) as [p|] eqn:Hp.
  - destruct (terminal (deref (nodes s) r)) eqn:Hterm.
    + case_decide as Hg; [done|]. intros [= <-].
      eapply inv_weaken; last first.
      * apply (correct_inv s r rest); try done.
        -- by rewrite Hp.
        -- by rewrite heappush_items, Hperm.
        -- intros q Hq. by left.
        -- by left.
      * done.
    + intros [= <-]. apply expand_inv; try done. by rewrite Hp.
  - intros [= <-].
    rewrite <-(list_insert_id (nodes s) r (deref (nodes s) r)) at 1; last first.
    { apply lookup_deref. eapply inv_refs; [done|].
      apply elem_of_app. left. rewrite <-Hperm. by left. }
    rewrite <-(set_g_same (deref (nodes s) r)) at 1.
    apply expand_inv; try done.
    + destruct (inv_root _ _ _ _ _ _ HI) as (n0 & Hn0 & Hroot).
      assert (r = 0%nat) as ->.
      { eapply inv_no_parent; [done| |done]. eapply inv_refs; [done|].
        apply elem_of_app. left. rewrite <-Hperm. by left. }
      rewrite (deref_lookup _ _ _ Hn0). apply Hroot.
    + by rewrite Hp.
Qed.

Lemma start_inv : invariant JF env heuristic st (AStar_start JF st).
Proof.
  split; simpl.
  - eexists. split; [done|]. by repeat split.
  - intros r ->%list_elem_of_singleton. lia.
  - apply NoDup_singleton.
  - intros [|r] n Hn Hr0; [done|]. by destruct r.
  - intros r []%elem_of_nil.
  - intros p a []%elem_of_nil.
Qed.

Lemma run_inv (s : Locals) :
  run JF env heuristic (AStar_start JF st) s → invariant JF env heuristic st s.
Proof.
  induction 1 as [|s1 s2 _ IH Hstep]; [apply start_inv|].
  unfold iteration in Hstep.
  destruct (heappop _ _) as [[r rest]|] eqn:Hpop; [|done].
  injection Hstep as Hstep. by eapply loop_body_inv.
Qed.
End invariant_facts.

(** ** The frontier stays a heap *)
Section frontier_heap_facts.
Context (JF : Features) (env : Simulation) (heuristic : State → Qc).
Context (st : State).

Local Abbreviation Inv := (inv JF env heuristic st).

Lemma expand_round_heap covered (s : Locals) (r : nat) (act : nat * nat) :
  Inv covered s → frontier_heap s →
  frontier_heap (expand_round env heuristic r s act).
Proof.
  intros HI Hheap. unfold expand_round. destruct (negb _ && negb _); [|done].
  unfold frontier_heap. simpl.
  apply (heappush_ordered (priority (nodes s ++ [make_child env heuristic (nodes s) r act]))).
  eapply heap_ordered_keys; [|exact Hheap].
  intros q Hq. unfold priority. rewrite deref_app_old; [done|].
  eapply inv_refs; [done|]. apply elem_of_app. by left.
Qed.

Lemma expand_rounds_heap (acts : list (nat * nat)) covered (s : Locals) (r : nat) :
  Inv covered s → r ∈ explored s →
  (∀ a, a ∈ acts → a ∈ selectable_pairs JF (state (deref (nodes s) r))) →
  frontier_heap s →
  frontier_heap (foldl (expand_round env heuristic r) s acts).
Proof.
  revert covered s. induction acts as [|a acts IH];
    intros covered s HI Hr Hacts Hheap; simpl; [done|].
  assert (r < length (nodes s))%nat as Hrlt.
  { eapply inv_refs; [done|]. apply elem_of_app. by right. }
  destruct (expand_round_inv JF env heuristic st covered s r a HI Hr)
    as (HI1 & Hex1 & _ & Hold1 & _).
  { apply Hacts. by left. }
  eapply IH; [exact HI1| | |].
  - by rewrite Hex1.
  - intros a' Ha'. rewrite Hold1 by done. apply Hacts. by right.
  - by eapply expand_round_heap.
Qed.

Lemma frontier_NoDup covered (s : Locals) : Inv covered s → NoDup (frontier s).
Proof.
  intros HI. pose proof (inv_distinct _ _ _ _ _ _ HI) as Hnd.
  apply NoDup_fmap_1 in Hnd. by apply list.NoDup_app in Hnd as [? _].
Qed.

(** After the pop the rest is a heap for the old priorities, and stays one
    when the priority of the popped node is overwritten. *)
Lemma rest_heap covered (s : Locals) (r : nat) (rest : list nat) (v : Qc) :
  Inv covered s → frontier_heap s →
  heappop (ref_lt (nodes s)) (frontier s) = Some (r, rest) →
  heap_ordered (priority (<[r := set_g (deref (nodes s) r) v]> (nodes s))) rest
  ∧ heap_ordered (priority (nodes s)) rest
  ∧ ∀ m, m ∈ frontier s → priority (nodes s) r ≤ priority (nodes s) m.
Proof.
  intros HI Hheap Hpop.
  destruct (heappop_ordered (priority (nodes s)) _ _ _ Hheap Hpop) as [Hrest Hleast].
  pose proof (heappop_items _ _ _ _ Hpop) as Hperm.
  pose proof (frontier_NoDup _ _ HI) as Hnd. rewrite <-Hperm in Hnd.
  apply NoDup_cons_1_1 in Hnd. split_and!; [|done|].
  - eapply heap_ordered_keys; [|exact Hrest].
    intros q Hq. unfold priority. rewrite deref_insert_ne; [done|]. by intros ->.
  - intros m Hm. rewrite <-Hperm in Hm.
    apply elem_of_cons in Hm as [->|Hm]; [apply Qcle_refl|by apply Hleast].
Qed.

Lemma loop_body_heap (s s' : Locals) (r : nat) (rest : list nat) :
  invariant JF env heuristic st s → frontier_heap s →
  heappop (ref_lt (nodes s)) (frontier s) = Some (r, rest) →
  loop_body JF env heuristic s r rest = Continue s' →
  frontier_heap s'.
Proof.
  intros HI Hheap Hpop.
  pose proof (heappop_items _ _ _ _ Hpop) as Hperm.
  assert (r < length (nodes s))%nat as Hrlt.
  { eapply inv_refs; [done|]. apply elem_of_app. left. rewrite <-Hperm. by left. }
  assert (∀ v (e b d : nat),
    terminal (deref (nodes s) r) = false →
    v = match parent (deref (nodes s) r) with
        | Some p => g (deref (nodes s) p) - reward (deref (nodes s) r)
        | None => g (deref (nodes s) r)
        end →
    frontier_heap (expand JF env heuristic r
      {| nodes := <[r := set_g (deref (nodes s) r) v]> (nodes s); frontier := rest;
         explored := explored s; expansions := e; branchFactor := b;
         duplicate_states := d |})) as Hexpand.
  { intros v e b d Hterm Hv. unfold expand. simpl.
    eapply (expand_rounds_heap _ (λ p _, p ∈ explored s)).
    - apply (correct_inv JF env heuristic st s r rest rest (explored s ++ [r]) v e b d
               HI Hperm Hv).
      + rewrite <-Hperm. rewrite (assoc (++)), <-app_comm_cons.
        by rewrite <-Permutation_middle, (right_id [] (++)).
      + intros q Hq. apply elem_of_app. by left.
      + intros q [Hq| ->%list_elem_of_singleton]%elem_of_app; [by left|by right].
      + right. apply elem_of_app. right. by left.
    - simpl. apply elem_of_app. right. by left.
    - done.
    - unfold frontier_heap. simpl. by eapply rest_heap. }
  unfold loop_body.
  destruct (popped_fresh _ _ _ _ _ _ _ _ HI Hperm) as [_ ->].
  destruct (parent (deref (nodes s) r)) as [p|] eqn:Hp.
  - destruct (terminal (deref (nodes s) r)) eqn:Hterm.
    + case_decide as Hg; [done|]. intros [= <-]. unfold frontier_heap. simpl.
      apply (heappush_ordered (priority _)). by eapply rest_heap.
    + intros [= <-]. by apply Hexpand.
  - intros [= <-].
    rewrite <-(list_insert_id (nodes s) r (deref (nodes s) r)) at 1
      by by apply lookup_deref.
    rewrite <-(set_g_same (deref (nodes s) r)) at 1.
    apply Hexpand; [|done].
    destruct (inv_root _ _ _ _ _ _ HI) as (n0 & Hn0 & Hroot).
    rewrite (inv_no_parent _ _ _ _ _ _ _ HI Hrlt Hp), (deref_lookup _ _ _ Hn0).
    apply Hroot.
Qed.

Lemma run_heap (s : Locals) :
  run JF env heuristic (AStar_start JF st) s → frontier_heap s.
Proof.
  induction 1 as [|s1 s2 Hrun IH Hstep].
  { intros i Hi x y Hx. destruct i as [|i]; [lia|]. by destruct i. }
  pose proof (run_inv _ _ _ _ _ Hrun) as HI.
  unfold iteration in Hstep.
  destruct (heappop _ _) as [[r rest]|] eqn:Hpop; [|done].
  injection Hstep as Hstep. by eapply loop_body_heap.
Qed.
End frontier_heap_facts.

(** ** Rewards along the path to a node *)
Section path_facts.
Context (JF : Features) (env : Simulation) (heuristic : State → Qc).
Context (st : State).

Lemma path_reward_fuel covered (s : Locals) (r fuel : nat) :
  inv JF env heuristic st covered s → (r < fuel)%nat →
  path_reward_upto fuel (nodes s) r = path_reward (nodes s) r.
Proof.
  intros HI. revert fuel. induction (lt_wf r) as [r _ IH]. intros fuel Hfuel.
  destruct fuel as [|fuel]; [lia|]. unfold path_reward. cbn [path_reward_upto].
  destruct (parent (deref (nodes s) r)) as [p|] eqn:Hp; [|done].
  destruct (inv_parent_lt _ _ _ _ _ _ _ _ HI Hp) as (Hlt & _).
  by rewrite !IH by lia.
Qed.

Lemma path_reward_step covered (s : Locals) (r : nat) :
  inv JF env heuristic st covered s →
  path_reward (nodes s) r
  = reward (deref (nodes s) r)
    + match parent (deref (nodes s) r) with
      | Some p => path_reward (nodes s) p
      | None => 0
      end.
Proof.
  intros HI. unfold path_reward at 1. cbn [path_reward_upto].
  destruct (parent (deref (nodes s) r)) as [p|] eqn:Hp; [|done].
  destruct (inv_parent_lt _ _ _ _ _ _ _ _ HI Hp) as (Hlt & _).
  by erewrite path_reward_fuel.
Qed.
End path_facts.

(** ** Stored nodes and the action sequences that lead to them *)
Section plan_facts.
Context (JF : Features) (env : Simulation) (heuristic : State → Qc).
Context (st : State).

Local Abbreviation Inv := (inv JF env heuristic st).

Lemma plan_reward (s s' : State) (acts : list (nat * nat)) (rew rew' : Qc) :
  plan JF env s acts rew s' → rew = rew' → plan JF env s acts rew' s'.
Proof. by intros Hplan <-. Qed.

Lemma plan_snoc (s s1 s2 : State) (acts : list (nat * nat)) (act : nat * nat)
    (rew r2 : Qc) (t2 : bool) :
  plan JF env s acts rew s1 → act ∈ selectable_pairs JF s1 →
  update_state env act s1 = (s2, r2, t2) →
  plan JF env s (acts ++ [act]) (rew + r2) s2.
Proof.
  intros Hplan Hact Hupd. induction Hplan as [s|s a sa ra ta acts rew s' Ha Hu _ IH].
  - simpl. eapply plan_reward; [eapply plan_cons; [done|done|apply plan_nil]|]. ring.
  - simpl. eapply plan_reward; [eapply plan_cons; [done|done|by apply IH]|]. ring.
Qed.


Lemma Solution_fuel covered (s : Locals) (r fuel : nat) :
  Inv covered s → (r < fuel)%nat →
  Solution fuel (nodes s) r = Solution (S r) (nodes s) r.
Proof.
  intros HI. revert fuel. induction (lt_wf r) as [r _ IH]. intros fuel Hfuel.
  destruct fuel as [|fuel]; [lia|]. cbn [Solution].
  destruct (action (deref (nodes s) r)) as [a|]; [|done].
  destruct (parent (deref (nodes s) r)) as [p|] eqn:Hp; [|done].
  destruct (inv_parent_lt _ _ _ _ _ _ _ _ HI Hp) as (Hlt & _).
  by rewrite (IH p Hlt fuel), (IH p Hlt r) by lia.
Qed.

(** The rendered solution of a stored node is an action sequence from the
    initial state to the node's state, and claims the rewards on its path. *)
Lemma node_plan covered (s : Locals) (r : nat) :
  Inv covered s → (r < length (nodes s))%nat →
  plan JF env st (Solution (S r) (nodes s) r) (path_reward (nodes s) r)
       (state (deref (nodes s) r)).
Proof.
  intros HI. induction (lt_wf r) as [r _ IH]. intros Hr.
  rewrite (path_reward_step _ _ _ _ _ _ _ HI). cbn [Solution].
  destruct (decide (r = 0%nat)) as [->|Hr0].
  - destruct (inv_root _ _ _ _ _ _ HI) as (n0 & Hn0 & Hp & Ha & Hst & Hrew & _).
    rewrite (deref_lookup _ _ _ Hn0), Hp, Ha, Hst, Hrew.
    eapply plan_reward; [apply plan_nil|]. ring.
  - destruct (inv_child _ _ _ _ _ _ HI r _ (lookup_deref _ _ Hr) Hr0)
      as (p & a & Hp & Ha & Hlt & _ & Hsel & Hupd & _).
    rewrite Hp, Ha, (Solution_fuel _ _ _ _ HI Hlt).
    eapply plan_reward; [eapply plan_snoc; [apply (IH p Hlt); lia|done|done]|].
    ring.
Qed.




Lemma closed_selectable covered (s : Locals) (q : nat) :
  flags_terminal JF env st → Inv covered s →
  selectable_pairs JF st ≠ [] → q ∈ explored s →
  ¬ complete JF (state (deref (nodes s) q)).
Proof.
  intros Hflags HI Hst Hq.
  assert (q < length (nodes s))%nat as Hqlt.
  { eapply inv_refs; [done|]. apply elem_of_app. by right. }
  destruct (decide (q = 0%nat)) as [->|Hq0].
  { destruct (inv_root _ _ _ _ _ _ HI) as (n0 & Hn0 & _ & _ & Hs0 & _).
    by rewrite (deref_lookup _ _ _ Hn0), Hs0. }
  destruct (inv_child _ _ _ _ _ _ HI q _ (lookup_deref _ _ Hqlt) Hq0)
    as (p & a & _ & _ & Hlt & Hpe & Hsel & Hupd & _).
  destruct (inv_closed _ _ _ _ _ _ HI q Hq) as [Hterm _].
  intros Hc. eapply Hflags in Hc; [|by eapply (node_plan _ _ p HI); lia|done|done].
  congruence.
Qed.
End plan_facts.


(** * The search engine *)

(** C3, as the code has it: when no opportunity is selectable in the
    initial state, the root is expanded (one expansion, no child), the
    frontier is then empty, and [AStar] returns the failure sentinel:
    the text "failed", no priority, 1 expansion and branch factor 0. *)
Theorem no_opportunity_fails (JF : Features) (env : Simulation)
    (heuristic : State → Qc) (st : State) (fuel : nat) :
  selectable_pairs JF st = [] →
  AStar JF env heuristic (S (S fuel)) st
  = Some {| res_solution := failed; res_g := None;
            res_expansions := 1; res_branchFactor := 0 |}.
Proof.
  intros Hnone. unfold AStar. cbn [AStar_loop].
  change (frontier (AStar_start JF st)) with [0%nat].
  assert (iteration JF env heuristic (AStar_start JF st)
          = Some (Continue {| nodes := nodes (AStar_start JF st); frontier := [];
                              explored := [0%nat]; expansions := 1;
                              branchFactor := 0; duplicate_states := 0 |})) as ->.
  { unfold iteration. change (heappop _ _) with (Some (0%nat, @nil nat)).
    unfold loop_body, expand. simpl. by rewrite Hnone. }
  done.
Qed.

Lemma no_opportunity_fails_witness :
  AStar sample_features sample_env default_heuristic 2 (single 0)
  = Some {| res_solution := failed; res_g := None;
            res_expansions := 1; res_branchFactor := 0 |}.
Proof.
  apply (no_opportunity_fails sample_features sample_env default_heuristic (single 0) 0).
  vm_compute. reflexivity.
Defined.

(** C3, as the spec words it, fails: with no selectable opportunity no run
    of [AStar] returns the empty action sequence with the total initial
    value as priority. *)
Lemma no_opportunity_not_accepted :
  ¬ ∃ fuel res,
      AStar sample_features sample_env default_heuristic fuel (single 0) = Some res
      ∧ res_solution res = steps []
      ∧ res_g res = Some (total_value sample_features (single 0)).
Proof.
  intros (fuel & res & Hres & Hsol & _).
  destruct fuel as [|[|fuel]]; [done|done|].
  vm_compute in Hres. injection Hres as <-. done.
Qed.

(** C8: when a run reaches an empty frontier (no round before accepted),
    [AStar] returns, for every fuel that lets the run finish, the sentinel
    made of the text "failed", no priority, and the counters as they stand. *)
Theorem frontier_exhausted_sentinel (JF : Features) (env : Simulation)
    (heuristic : State → Qc) (st : State) (s' : Locals) :
  run JF env heuristic (AStar_start JF st) s' → frontier s' = [] →
  ∃ fuel0, ∀ fuel, (fuel0 ≤ fuel)%nat →
    AStar JF env heuristic fuel st
    = Some {| res_solution := failed; res_g := None;
              res_expansions := expansions s';
              res_branchFactor := branchFactor s' |}.
Proof.
  intros Hrun Hempty.
  assert (AStar_loop JF env heuristic 1 s'
          = Some {| res_solution := failed; res_g := None;
                    res_expansions := expansions s';
                    res_branchFactor := branchFactor s' |}) as Hlast.
  { simpl. by rewrite Hempty. }
  destruct (AStar_loop_run JF env heuristic _ _ _ _ Hrun Hlast) as [fuel0 Hfuel0].
  exists fuel0. intros fuel Hle. unfold AStar.
  induction Hle as [|fuel Hle IH]; [done|]. by apply AStar_loop_more.
Qed.

Lemma frontier_exhausted_sentinel_witness :
  ∃ fuel0, ∀ fuel, (fuel0 ≤ fuel)%nat →
    AStar sample_features sample_env default_heuristic fuel (single 0)
    = Some {| res_solution := failed; res_g := None;
              res_expansions := 1; res_branchFactor := 0 |}.
Proof.
  apply (frontier_exhausted_sentinel sample_features sample_env default_heuristic
           (single 0)
           (rounds sample_features sample_env default_heuristic 1
              (AStar_start sample_features (single 0)))).
  - apply rounds_run.
  - vm_compute. reflexivity.
Defined.

Lemma expand_round_counters (env : Simulation) (heuristic : State → Qc)
    (r : nat) (s : Locals) (act : nat * nat) :
  explored (expand_round env heuristic r s act) = explored s
  ∧ expansions (expand_round env heuristic r s act) = expansions s.
Proof.
  unfold expand_round. by destruct (negb _ && negb _).
Qed.

Lemma expand_rounds_counters (env : Simulation) (heuristic : State → Qc)
    (r : nat) (acts : list (nat * nat)) (s : Locals) :
  explored (foldl (expand_round env heuristic r) s acts) = explored s
  ∧ expansions (foldl (expand_round env heuristic r) s acts) = expansions s.
Proof.
  revert s. induction acts as [|a acts IH]; intros s; simpl; [done|].
  destruct (IH (expand_round env heuristic r s a)) as [H1 H2].
  rewrite H1, H2. apply expand_round_counters.
Qed.

Lemma expand_counters (JF : Features) (env : Simulation) (heuristic : State → Qc)
    (r : nat) (s : Locals) :
  explored (expand JF env heuristic r s) = explored s ++ [r]
  ∧ expansions (expand JF env heuristic r s) = expansions s.
Proof.
  unfold expand.
  destruct (expand_rounds_counters env heuristic r
              (selectable_pairs JF (state (deref (nodes s) r)))
              {| nodes := nodes s; frontier := frontier s;
                 explored := explored s ++ [r]; expansions := expansions s;
                 branchFactor := branchFactor s;
                 duplicate_states := duplicate_states s |}) as [H1 H2].
  by rewrite H1, H2.
Qed.



(** C10: in every run of [AStar] the closed list holds only nodes whose
    terminal flag is off (the root among them). No pop is discarded as
    stale, and every pop adds one to the expansion counter: a pop that
    accepts returns the incremented count; a terminal node that is not
    accepted leaves the closed list unchanged and is back on the frontier,
    where it can be popped and checked again; a non-terminal node is the one
    appended to the closed list. *)
Theorem closed_list_nonterminal (JF : Features) (env : Simulation)
    (heuristic : State → Qc) (st : State) (s : Locals) :
  run JF env heuristic (AStar_start JF st) s →
  (∀ r, r ∈ explored s → terminal (deref (nodes s) r) = false)
  ∧ ∀ r rest, heappop (ref_lt (nodes s)) (frontier s) = Some (r, rest) →
      contains (nodes s) (explored s) (deref (nodes s) r) = false
      ∧ match iteration JF env heuristic s with
        | Some (Return res) =>
            terminal (deref (nodes s) r) = true
            ∧ res_expansions res = S (expansions s)
        | Some (Continue s') =>
            expansions s' = S (expansions s)
            ∧ (terminal (deref (nodes s) r) = true →
               explored s' = explored s ∧ r ∈ frontier s'
               ∧ contains (nodes s') (explored s') (deref (nodes s') r) = false)
            ∧ (terminal (deref (nodes s) r) = false →
               explored s' = explored s ++ [r])
        | None => False
        end.
Proof.
  intros Hrun. pose proof (run_inv _ _ _ _ _ Hrun) as HI. split.
  { intros r Hr. by destruct (inv_closed _ _ _ _ _ _ HI r Hr). }
  intros r rest Hpop.
  pose proof (heappop_items _ _ _ _ Hpop) as Hperm.
  destruct (popped_fresh _ _ _ _ _ _ _ _ HI Hperm) as [Hnotin Hfresh].
  split; [done|].
  assert (r < length (nodes s))%nat as Hrlt.
  { eapply inv_refs; [done|]. apply elem_of_app. left. rewrite <-Hperm. by left. }
  destruct (iteration JF env heuristic s) as [[s'|res]|] eqn:Hit; last first.
  { unfold iteration in Hit. by rewrite Hpop in Hit. }
  - (* the round returns: only an accepted terminal node does *)
    unfold iteration in Hit. rewrite Hpop in Hit. injection Hit as Hit.
    unfold loop_body in Hit. rewrite Hfresh in Hit.
    destruct (parent (deref (nodes s) r)) as [p|]; [|done].
    destruct (terminal (deref (nodes s) r)); [|done].
    case_decide; [|done]. by injection Hit as <-.
  - (* the round goes on *)
    assert (runs_on : run JF env heuristic (AStar_start JF st) s')
      by (by eapply run_round).
    pose proof (run_inv _ _ _ _ _ runs_on) as HI'.
    unfold iteration in Hit. rewrite Hpop in Hit. injection Hit as Hit.
    unfold loop_body in Hit. rewrite Hfresh in Hit.
    destruct (parent (deref (nodes s) r)) as [p|] eqn:Hp.
    + destruct (terminal (deref (nodes s) r)) eqn:Hterm.
      * case_decide as Hg; [done|]. injection Hit as <-. simpl.
        split; [done|]. split; [|done]. intros _. split; [done|].
        assert (r ∈ heappush (ref_lt (<[r := set_g (deref (nodes s) r)
                   (g (deref (nodes s) p) - reward (deref (nodes s) r))]> (nodes s)))
                  rest r) as Hin by (rewrite heappush_items; by left).
        split; [done|]. apply contains_false. intros q Hq.
        rewrite !state_deref_set_g.
        by apply (proj1 (contains_false _ _ _) Hfresh).
      * injection Hit as <-. destruct (expand_counters JF env heuristic r
          {| nodes := <[r := set_g (deref (nodes s) r)
                        (g (deref (nodes s) p) - reward (deref (nodes s) r))]> (nodes s);
             frontier := rest; explored := explored s;
             expansions := S (expansions s); branchFactor := branchFactor s;
             duplicate_states := duplicate_states s |}) as [-> ->].
        by split_and!.
    + injection Hit as <-.
      assert (terminal (deref (nodes s) r) = false) as Hterm.
      { destruct (inv_root _ _ _ _ _ _ HI) as (n0 & Hn0 & Hroot).
        rewrite (inv_no_parent _ _ _ _ _ _ _ HI Hrlt Hp), (deref_lookup _ _ _ Hn0).
        apply Hroot. }
      destruct (expand_counters JF env heuristic r
          {| nodes := nodes s; frontier := rest; explored := explored s;
             expansions := S (expansions s); branchFactor := branchFactor s;
             duplicate_states := duplicate_states s |}) as [-> ->].
      rewrite Hterm. by split_and!.
Qed.

Lemma closed_list_nonterminal_witness :
  let JF := sample_features in
  let s := rounds JF sample_env default_heuristic 2 (AStar_start JF crossed) in
  terminal (deref (nodes s) 0) = false.
Proof.
  intros JF s.
  refine (proj1 (closed_list_nonterminal JF sample_env default_heuristic crossed s _)
                0%nat _).
  - apply rounds_run.
  - vm_compute. left.
Defined.

(** C6: in a round of the expansion loop the child is pushed (it becomes a
    new stored node on the frontier and the branch factor grows by one)
    exactly when no node of the closed list or of the frontier equals it
    under [Node.__eq__]; otherwise nothing is stored and the duplicate
    counter grows by one. [Node.__eq__] holds exactly when the three
    matrices of the two states are equal, whatever the other fields (path,
    priority, reward) are. *)
Theorem child_pushed_iff_unseen (env : Simulation) (heuristic : State → Qc)
    (s : Locals) (r : nat) (act : nat * nat) :
  let child := make_child env heuristic (nodes s) r act in
  let s' := expand_round env heuristic r s act in
  let seen := ∃ q, q ∈ explored s ++ frontier s
                   ∧ Node_eq (deref (nodes s) q) child = true in
  (∀ n1 n2, Node_eq n1 n2 = true
            ↔ Effectors (state n1) = Effectors (state n2)
              ∧ Targets (state n1) = Targets (state n2)
              ∧ Opportunities (state n1) = Opportunities (state n2))
  ∧ (frontier s' ≡ₚ length (nodes s) :: frontier s ↔ ¬ seen)
  ∧ (¬ seen →
     nodes s' = nodes s ++ [child]
     ∧ frontier s' = heappush (ref_lt (nodes s')) (frontier s) (length (nodes s))
     ∧ branchFactor s' = S (branchFactor s)
     ∧ duplicate_states s' = duplicate_states s)
  ∧ (seen →
     nodes s' = nodes s ∧ frontier s' = frontier s
     ∧ branchFactor s' = branchFactor s
     ∧ duplicate_states s' = S (duplicate_states s))
  ∧ explored s' = explored s.
Proof.
  intros child s' seen.
  assert (∀ n1 n2, Node_eq n1 n2 = true
            ↔ Effectors (state n1) = Effectors (state n2)
              ∧ Targets (state n1) = Targets (state n2)
              ∧ Opportunities (state n1) = Opportunities (state n2)) as Heq.
  { intros n1 n2. unfold Node_eq. rewrite state_eq_true. split.
    - by intros ->.
    - destruct (state n1), (state n2). simpl. by intros (-> & -> & ->). }
  assert (seen ↔ contains (nodes s) (explored s) child
                 || contains (nodes s) (frontier s) child = true) as Hseen.
  { unfold seen. rewrite orb_true_iff, !contains_true. split.
    - intros (q & [Hq|Hq]%elem_of_app & Hst%state_eq_true); [left|right]; by exists q.
    - intros [(q & Hq & Hst)|(q & Hq & Hst)]; exists q;
        (split; [apply elem_of_app; auto | by apply state_eq_true]). }
  split; [done|].
  unfold s', expand_round. fold child.
  destruct (contains (nodes s) (explored s) child) eqn:Hex;
    [|destruct (contains (nodes s) (frontier s) child) eqn:Hfr]; simpl.
  - assert seen as Hs by by apply Hseen.
    split_and!; try done. split; [|done].
    intros Hperm%Permutation_length. simpl in Hperm. lia.
  - assert seen as Hs by by apply Hseen.
    split_and!; try done. split; [|done].
    intros Hperm%Permutation_length. simpl in Hperm. lia.
  - assert (¬ seen) as Hs by (rewrite Hseen; done).
    split_and!; try done. split; [done|]. intros _. apply heappush_items.
Qed.



(** * The heuristic estimator *)

Lemma sum_from (acc : Qc) (l : list Qc) : foldl Qcplus acc l = acc + sum l.
Proof.
  unfold sum. revert acc. induction l as [|x l IH]; intros acc; simpl.
  - ring.
  - rewrite (IH (acc + x)), (IH (0 + x)). ring.
Qed.

Lemma engage_engagements (moves : nat) (p value acc : Qc) :
  engage moves p value acc = acc + engagements moves p value.
Proof.
  revert value acc. induction moves as [|moves IH]; intros value acc; simpl.
  - ring.
  - rewrite IH. ring.
Qed.

Lemma min_Qc_min (a b : Qc) : min a b = Qc_min a b.
Proof.
  unfold min, Qc_min. destruct (decide (b < a)) as [Hlt|Hge].
  - rewrite decide_False; [done|]. by apply Qclt_not_le.
  - rewrite decide_True; [done|]. by apply Qcnot_lt_le.
Qed.

Lemma int_of_Z (z : Z) : int (Qc_of_Z z) = z.
Proof. unfold int. simpl. apply Z.quot_1_r. Qed.

Lemma whole_Some (x : Qc) (n : nat) : whole x = Some n → x = Qc_of_Z (Z.of_nat n).
Proof. unfold whole. case_decide; [|done]. by intros [= <-]. Qed.

Lemma whole_of_nat (n : nat) : whole (Qc_of_Z (Z.of_nat n)) = Some n.
Proof.
  unfold whole. simpl. rewrite Nat2Z.id. by rewrite decide_True.
Qed.

Lemma opp_column_length (state : State) (i f : nat) :
  length (opp_column state i f) = length (Opportunities state).
Proof. unfold opp_column. by rewrite length_fmap. Qed.

Lemma opp_column_lookup (state : State) (i f e : nat) (x : Qc) :
  opp_column state i f !! e = Some x → x = opp_at state e i f.
Proof.
  unfold opp_column, opp_at. rewrite list_lookup_fmap.
  destruct (Opportunities state !! e) as [row|]; [|done]. simpl. by intros [= <-].
Qed.

Lemma opp_at_outside (state : State) (i f e : nat) :
  (length (Opportunities state) ≤ e)%nat → opp_at state e i f = 0.
Proof.
  intros He. unfold opp_at. by rewrite (lookup_ge_None_2 _ _ He).
Qed.

(** The left fold of [Qc_max] is an entry of the column that no entry
    exceeds. *)
Lemma foldl_max_largest (p : Qc) (ps : list Qc) :
  foldl Qc_max p ps ∈ p :: ps ∧ ∀ x, x ∈ p :: ps → x ≤ foldl Qc_max p ps.
Proof.
  revert p. induction ps as [|y ps IH]; intros p; simpl.
  { split; [by left|]. intros x ->%list_elem_of_singleton. apply Qcle_refl. }
  destruct (IH (Qc_max p y)) as [Hin Hle]. split.
  - apply elem_of_cons in Hin as [Heq|Hin]; [|by right; right].
    rewrite Heq. unfold Qc_max. case_decide; [right; by left|by left].
  - assert (p ≤ Qc_max p y ∧ y ≤ Qc_max p y) as [Hp Hy].
    { unfold Qc_max. case_decide as Hc; split; try done; try apply Qcle_refl.
      apply Qclt_le_weak. by apply Qcnot_le_lt. }
    intros x [->|[->|Hx]%elem_of_cons]%elem_of_cons.
    + eapply Qcle_trans; [exact Hp|]. apply Hle. by left.
    + eapply Qcle_trans; [exact Hy|]. apply Hle. by left.
    + apply Hle. by right.
Qed.

(** Whatever index a conforming selection returns, the probability read
    there is the largest of the column. *)
Lemma selected_probability (JF : Features) (sel : list Qc → nat)
    (state : State) (i : nat) :
  selects_largest sel →
  opp_at state (sel (opp_column state i (OpportunityFeatures_PSUCCESS JF))) i
         (OpportunityFeatures_PSUCCESS JF)
  = best_probability JF state i.
Proof.
  intros Hsel. unfold best_probability.
  set (col := opp_column state i (OpportunityFeatures_PSUCCESS JF)).
  assert (∀ e x, col !! e = Some x
                 → x = opp_at state e i (OpportunityFeatures_PSUCCESS JF)) as Hlook.
  { intros e x. apply opp_column_lookup. }
  assert (length col = length (Opportunities state)) as Hlen
    by apply opp_column_length.
  clearbody col. destruct col as [|p ps].
  { apply opp_at_outside. simpl in Hlen. lia. }
  destruct (Hsel (p :: ps)) as (q & Hq & Hmax); [done|].
  rewrite <-(Hlook _ _ Hq).
  destruct (foldl_max_largest p ps) as [Hin Hle].
  apply Qcle_antisym.
  - apply Hle. by eapply list_elem_of_lookup_2.
  - by apply Hmax.
Qed.

Lemma flags_sum (JF : Features) (state : State) (i : nat) :
  boolean_flags JF state →
  sum ((λ x, x * 2) <$> opp_column state i (OpportunityFeatures_SELECTABLE JF))
  = 2 * Qc_of_Z (Z.of_nat (selectable_count JF state i)).
Proof.
  intros Hflags. unfold selectable_count.
  set (col := opp_column state i (OpportunityFeatures_SELECTABLE JF)).
  assert (Forall (λ x, x = 0 ∨ x = 1) col) as Hcol.
  { apply Forall_lookup. intros e x Hx%opp_column_lookup. subst x. apply Hflags. }
  clearbody col. induction Hcol as [|x col Hx _ IH].
  { apply Qc_is_canon. reflexivity. }
  rewrite fmap_cons. unfold sum. simpl. rewrite sum_from, IH, filter_cons.
  destruct Hx as [-> | ->].
  - rewrite decide_False by done. ring.
  - rewrite decide_True by done. simpl length.
    rewrite Nat2Z.inj_succ, <-Z.add_1_l, Z2Qc_inj_add, Z2Qc_inj_1. ring.
Qed.

Lemma Qc_min_of_Z (a b : Z) : Qc_min (Qc_of_Z a) (Qc_of_Z b) = Qc_of_Z (Z.min a b).
Proof.
  unfold Qc_min. case_decide as Hle.
  - apply Z2Qc_inj_le in Hle. by rewrite Z.min_l.
  - rewrite <-Z2Qc_inj_le in Hle. by rewrite Z.min_r by lia.
Qed.

(** One round of the loop over the targets adds the target's contribution. *)
Lemma heuristic_round_contribution (JF : Features) (sel : list Qc → nat)
    (state : State) (acc c : Qc) (it : nat * list Qc) :
  selects_largest sel → boolean_flags JF state →
  contribution JF state it = Some c →
  heuristic_round JF sel state acc it = acc + c.
Proof.
  intros Hsel Hflags. destruct it as [i target]. unfold contribution, heuristic_round.
  case_decide as Hfull; [intros [= <-]; ring|].
  destruct (whole _) as [slots|] eqn:Hslots; [|done]. simpl. intros [= <-].
  apply whole_Some in Hslots.
  assert (remaining_moves JF state i target = Z.of_nat slots) as ->.
  { unfold remaining_moves. rewrite min_Qc_min, flags_sum by done.
    unfold remainingSlots in Hslots.
    rewrite (Qcmult_comm _ 2), Hslots. apply int_of_Z. }
  destruct (decide (slots = 0%nat)) as [->|Hpos].
  { rewrite decide_True by done. ring. }
  rewrite decide_False by lia.
  by rewrite Nat2Z.id, engage_engagements, selected_probability.
Qed.

Lemma heuristic_rounds_contributions (JF : Features) (sel : list Qc → nat)
    (state : State) (its : list (nat * list Qc)) (acc : Qc) (cs : list Qc) :
  selects_largest sel → boolean_flags JF state →
  mapM (contribution JF state) its = Some cs →
  foldl (heuristic_round JF sel state) acc its = acc + foldr Qcplus 0 cs.
Proof.
  intros Hsel Hflags. revert acc cs.
  induction its as [|it its IH]; intros acc cs; simpl.
  { intros [= <-]. simpl. ring. }
  destruct (contribution JF state it) as [c|] eqn:Hc; [|done]. simpl.
  destruct (mapM _ its) as [cs'|] eqn:Hcs; [|done]. simpl. intros [= <-].
  rewrite (heuristic_round_contribution _ _ _ _ _ _ Hsel Hflags Hc).
  rewrite (IH _ cs') by done. simpl. ring.
Qed.

Lemma whole_slots (JF : Features) (state : State) (i : nat) (target : list Qc) :
  feat (TaskFeatures_SELECTED JF) target = 0
  ∨ feat (TaskFeatures_SELECTED JF) target = Q2Qc (1 # 2)
  ∨ feat (TaskFeatures_SELECTED JF) target = 1 →
  is_Some (whole (remainingSlots JF state i target)).
Proof.
  intros Hsel. unfold remainingSlots.
  set (count := selectable_count JF state i).
  assert (2 * Qc_of_Z (Z.of_nat count) = Qc_of_Z (Z.of_nat (2 * count))) as ->.
  { rewrite Nat2Z.inj_mul, Z2Qc_inj_mul. f_equal. }
  assert (∃ k : nat, 2 * (1 - feat (TaskFeatures_SELECTED JF) target)
                     = Qc_of_Z (Z.of_nat k)) as [k ->].
  { destruct Hsel as [-> | [-> | ->]];
      [exists 2%nat | exists 1%nat | exists 0%nat]; apply Qc_is_canon; reflexivity. }
  rewrite Qc_min_of_Z, <-Nat2Z.inj_min, whole_of_nat. done.
Qed.

(** C4: on states whose selectable flags are 0 or 1, and with a selection
    that returns the index of a largest entry, [astar_heuristic] returns
    the value that section 4.1 of the specification describes: per target
    not yet fully selected, the remaining slots are the minimum of twice
    the unselected fraction and twice the number of selectable
    opportunities; a target with no slot is skipped; otherwise that many
    successive engagements with the largest success probability are added,
    each taking its reward off the running value; the result is the sum
    over the targets. The description is defined whenever the selected
    fractions are 0, 0.5 or 1. *)
Theorem astar_heuristic_as_specified (JF : Features) (sel : list Qc → nat)
    (state : State) :
  selects_largest sel → boolean_flags JF state →
  (∀ v, heuristic_spec JF state = Some v → astar_heuristic JF sel state = v)
  ∧ (half_steps JF state → is_Some (heuristic_spec JF state)).
Proof.
  intros Hsel Hflags. split.
  - intros v. unfold heuristic_spec, astar_heuristic.
    destruct (mapM _ _) as [cs|] eqn:Hcs; [|done]. simpl. intros [= <-].
    rewrite (heuristic_rounds_contributions _ _ _ _ _ _ Hsel Hflags Hcs). ring.
  - intros Hhalf. unfold heuristic_spec.
    destruct (mapM _ _) as [cs|] eqn:Hcs; [done|]. exfalso.
    assert (is_Some (mapM (contribution JF state) (enumerate (Targets state))))
      as [cs Hcs']; [|congruence].
    apply mapM_is_Some, Forall_lookup. intros k [i target] Hin. simpl.
    unfold enumerate in Hin. rewrite list_lookup_imap in Hin.
    destruct (Targets state !! k) as [target'|] eqn:Hlook; [|done].
    injection Hin as <- <-.
    unfold contribution. case_decide; [done|].
    destruct (whole_slots JF state k target') as [slots ->]; [|done].
    apply Hhalf. by eapply list_elem_of_lookup_2.
Qed.

(** The two scanning selections conform to what numpy documents. *)
Lemma scan_max_largest (pre l : list Qc) (best : nat) (bestval : Qc) :
  (pre ++ l) !! best = Some bestval → (∀ x, x ∈ pre → x ≤ bestval) →
  ∃ p, (pre ++ l) !! scan_max best bestval (length pre) l = Some p
       ∧ ∀ x, x ∈ pre ++ l → x ≤ p.
Proof.
  revert pre best bestval. induction l as [|y l IH]; intros pre best bestval Hb Hpre.
  { simpl. exists bestval. split; [done|]. by rewrite app_nil_r. }
  simpl. destruct (IH (pre ++ [y]) (if decide (bestval ≤ y) then length pre else best)
                      (if decide (bestval ≤ y) then y else bestval))
    as (p & Hp & Hmax).
  - rewrite <-(assoc (++)). simpl. case_decide; [|done].
    by rewrite lookup_app_r, Nat.sub_diag by done.
  - intros x [Hx| ->%list_elem_of_singleton]%elem_of_app.
    + case_decide; [|by apply Hpre].
      eapply Qcle_trans; [by apply Hpre|done].
    + case_decide as Hc; [apply Qcle_refl|].
      apply Qclt_le_weak. by apply Qcnot_le_lt.
  - rewrite <-(assoc (++)) in Hp, Hmax. simpl in Hp, Hmax.
    rewrite length_app, Nat.add_1_r in Hp. exists p. split; [|done].
    by destruct (decide (bestval ≤ y)).
Qed.

Lemma argmax_last_largest : selects_largest argmax_last.
Proof.
  intros [|x l] Hl; [done|]. unfold argmax_last.
  apply (scan_max_largest [x] l 0 x); [done|].
  intros y ->%list_elem_of_singleton. apply Qcle_refl.
Qed.



Lemma crossed_boolean_flags : boolean_flags sample_features crossed.
Proof.
  intros e t. destruct e as [|[|e]], t as [|[|t]];
    (by left; apply Qc_is_canon) || (by right; apply Qc_is_canon).
Qed.

Lemma crossed_half_steps : half_steps sample_features crossed.
Proof.
  intros target [->|[->|[]%elem_of_nil]%elem_of_cons]%elem_of_cons;
    left; by apply Qc_is_canon.
Qed.

Lemma astar_heuristic_as_specified_witness :
  heuristic_spec sample_features crossed
  = Some (astar_heuristic sample_features argmax_last crossed).
Proof.
  destruct (astar_heuristic_as_specified sample_features argmax_last crossed
              argmax_last_largest crossed_boolean_flags) as [Hvalue Hdefined].
  destruct (Hdefined crossed_half_steps) as [v Hv].
  rewrite Hv. f_equal. symmetry. by apply Hvalue.
Defined.





(** * The batch loops *)






(** * Optimality of the accepted solution *)


Section optimality.
Context (JF : Features) (env : Simulation) (heuristic : State → Qc).
Context (st : State).

(** A complete action sequence that starts in the state of a closed or
    frontier node passes through the state of a frontier node. *)
Lemma frontier_on_plan (s : Locals) (s_cur s_end : State)
    (acts : list (nat * nat)) (rew : Qc) :
  flags_terminal JF env st → invariant JF env heuristic st s →
  selectable_pairs JF st ≠ [] →
  plan JF env s_cur acts rew s_end → complete JF s_end →
  (∃ q, q ∈ frontier s ++ explored s ∧ state (deref (nodes s) q) = s_cur) →
  ∃ m acts_a rew_a acts_b rew_b,
    m ∈ frontier s
    ∧ plan JF env s_cur acts_a rew_a (state (deref (nodes s) m))
    ∧ plan JF env (state (deref (nodes s) m)) acts_b rew_b s_end
    ∧ rew = rew_a + rew_b.
Proof.
  intros Hflags HI Hst Hplan Hend.
  induction Hplan as [s0|s0 act s1 r1 t1 acts rew s' Hact Hupd Hplan IH];
    intros (q & [Hq|Hq]%elem_of_app & Hstate).
  - exists q, [], 0, [], 0. rewrite Hstate.
    split_and!; [done|apply plan_nil|apply plan_nil|ring].
  - destruct (closed_selectable JF env heuristic st _ s q Hflags HI Hst Hq).
    by rewrite Hstate.
  - exists q, [], 0, (act :: acts), (r1 + rew). rewrite Hstate.
    split_and!; [done|apply plan_nil|by eapply plan_cons|ring].
  - destruct (inv_known _ _ _ _ _ _ HI q act Hq) as (q' & Hq' & Hstate'); [|done|].
    { by rewrite Hstate. }
    rewrite Hstate, Hupd in Hstate'. simpl in Hstate'.
    destruct (IH Hend) as (m & acts_a & rew_a & acts_b & rew_b & Hm & Ha & Hb & ->).
    { by exists q'. }
    exists m, (act :: acts_a), (r1 + rew_a), acts_b, rew_b.
    split_and!; [done|by eapply plan_cons|done|ring].
Qed.

Lemma frontier_not_closed (s : Locals) (m : nat) :
  invariant JF env heuristic st s → m ∈ frontier s → m ∉ explored s.
Proof.
  intros HI Hm Hex. pose proof (inv_distinct _ _ _ _ _ _ HI) as Hnd.
  apply NoDup_fmap_1, list.NoDup_app in Hnd as (_ & Hdisj & _).
  by apply (Hdisj m).
Qed.
End optimality.


(** The sample simulation sets the terminal flag as the search expects. *)
Lemma sample_flags_terminal (st : State) :
  flags_terminal sample_features sample_env st.
Proof.
  intros acts rew s [e t] s1 r1 t1 _ _ Hupd. simpl in Hupd.
  unfold sample_update_state in Hupd. injection Hupd as <- _ <-.
  unfold complete. apply bool_decide_eq_true.
Qed.

(** ** The sample simulation and [astar_heuristic]

    On every well-formed state the sample simulation and the estimator of
    the source meet what the search takes for granted. *)

Lemma Qc_0_ne_1 : (0 : Qc) ≠ 1.
Proof. intros H. apply (f_equal this) in H. discriminate. Qed.

Lemma feat_nil (f : nat) : feat f [] = 0.
Proof. unfold feat. by rewrite lookup_nil. Qed.

Lemma feat_insert_eq (f : nat) (row : list Qc) (x : Qc) :
  (f < length row)%nat → feat f (<[f := x]> row) = x.
Proof. intros Hf. unfold feat. by rewrite list_lookup_insert_eq. Qed.

Lemma feat_insert_ne (f f' : nat) (row : list Qc) (x : Qc) :
  f ≠ f' → feat f' (<[f := x]> row) = feat f' row.
Proof. intros Hf. unfold feat. by rewrite list_lookup_insert_ne. Qed.

Lemma feat_insert_short (f : nat) (row : list Qc) (x : Qc) :
  (length row ≤ f)%nat → feat f (<[f := x]> row) = 0.
Proof.
  intros Hf. unfold feat. rewrite list_insert_ge by done.
  by rewrite lookup_ge_None_2.
Qed.

Lemma opp_at_inside (s : State) (e t f : nat) (row : list (list Qc)) (opp : list Qc) :
  Opportunities s !! e = Some row → row !! t = Some opp →
  opp_at s e t f = feat f opp.
Proof. intros Hrow Hopp. unfold opp_at. rewrite Hrow. simpl. by rewrite Hopp. Qed.

Lemma opp_at_cases (s : State) (e t : nat) :
  (∃ row opp, Opportunities s !! e = Some row ∧ row !! t = Some opp)
  ∨ ∀ f, opp_at s e t f = 0.
Proof.
  destruct (Opportunities s !! e) as [row|] eqn:Hrow.
  - destruct (row !! t) as [opp|] eqn:Hopp; [left; by exists row, opp|].
    right. intros f. unfold opp_at. rewrite Hrow. simpl. rewrite Hopp. apply feat_nil.
  - right. intros f. unfold opp_at. rewrite Hrow. simpl. apply feat_nil.
Qed.

Lemma selectable_pairs_flag (JF : Features) (s : State) (e t : nat) :
  (e, t) ∈ selectable_pairs JF s
  ↔ opp_at s e t (OpportunityFeatures_SELECTABLE JF) = 1.
Proof.
  unfold selectable_pairs. rewrite list_elem_of_join. split.
  - intros (l & Hin & (e' & row & -> & Hrow)%elem_of_lookup_imap).
    apply list_elem_of_omap in Hin as ([t' opp] & Hin & Hsome).
    apply elem_of_lookup_imap in Hin as (t'' & opp' & [= -> ->] & Hopp).
    case_decide as Hflag; [|done]. injection Hsome as <- <-.
    by rewrite (opp_at_inside _ _ _ _ _ _ Hrow Hopp).
  - intros Hflag.
    destruct (opp_at_cases s e t) as [(row & opp & Hrow & Hopp)|Hout]; last first.
    { rewrite Hout in Hflag. by destruct Qc_0_ne_1. }
    rewrite (opp_at_inside _ _ _ _ _ _ Hrow Hopp) in Hflag.
    eexists. split; [|apply elem_of_lookup_imap; by exists e, row].
    apply list_elem_of_omap. exists (t, opp). split.
    + apply elem_of_lookup_imap. by exists t, opp.
    + by rewrite decide_True.
Qed.

Lemma complete_flags (JF : Features) (s : State) :
  complete JF s ↔ ∀ e t, opp_at s e t (OpportunityFeatures_SELECTABLE JF) ≠ 1.
Proof.
  unfold complete. split.
  - intros Hnil e t Hflag%selectable_pairs_flag. rewrite Hnil in Hflag.
    by apply elem_of_nil in Hflag.
  - intros Hnone. destruct (selectable_pairs JF s) as [|[e t] l] eqn:Hl; [done|].
    destruct (Hnone e t). apply selectable_pairs_flag. rewrite Hl. by left.
Qed.

Lemma sum_cons (x : Qc) (l : list Qc) : sum (x :: l) = x + sum l.
Proof. unfold sum. simpl. rewrite sum_from. unfold sum. ring. Qed.


Lemma heuristic_round_estimate (JF : Features) (sel : list Qc → nat) (s : State)
    (acc : Qc) (i : nat) (target : list Qc) :
  selects_largest sel → boolean_flags JF s →
  feat (TaskFeatures_SELECTED JF) target = 0
  ∨ feat (TaskFeatures_SELECTED JF) target = Q2Qc (1 # 2)
  ∨ feat (TaskFeatures_SELECTED JF) target = 1 →
  heuristic_round JF sel s acc (i, target) = acc + estimate JF s i target.
Proof.
  intros Hsel Hflags Hhalf.
  apply heuristic_round_contribution; [done|done|].
  unfold contribution, estimate.
  case_decide as Hfull; [done|].
  unfold remainingSlots. set (count := selectable_count JF s i).
  assert (2 * Qc_of_Z (Z.of_nat count) = Qc_of_Z (Z.of_nat (2 * count))) as ->.
  { rewrite Nat2Z.inj_mul, Z2Qc_inj_mul. f_equal. }
  assert (∃ k : nat, k = (if decide (feat (TaskFeatures_SELECTED JF) target = 0)
                          then 2%nat else 1%nat)
                     ∧ 2 * (1 - feat (TaskFeatures_SELECTED JF) target)
                       = Qc_of_Z (Z.of_nat k)) as (k & Hk & ->).
  { destruct Hhalf as [H0|[Hh|H1]]; [| |done].
    - exists 2%nat. rewrite H0. split; [by rewrite decide_True|].
      apply Qc_is_canon. reflexivity.
    - exists 1%nat. rewrite Hh. split; [by rewrite decide_False|].
      apply Qc_is_canon. reflexivity. }
  rewrite Qc_min_of_Z, <-Nat2Z.inj_min, whole_of_nat. simpl. rewrite <-Hk.
  assert (k ≠ 0)%nat as Hk0 by (rewrite Hk; case_decide; lia).
  assert (k ≤ 2)%nat as Hk2 by (rewrite Hk; case_decide; lia).
  destruct (decide (count = 0%nat)) as [Hc|Hc].
  - rewrite Hc. by rewrite decide_True by lia.
  - assert (k `min` (count + (count + 0)) = k)%nat as -> by lia.
    by rewrite decide_False.
Qed.

Lemma heuristic_rounds_estimates (JF : Features) (sel : list Qc → nat) (s : State)
    (targets : list (list Qc)) (f : nat → nat) (acc : Qc) :
  selects_largest sel → boolean_flags JF s →
  (∀ target, target ∈ targets →
     feat (TaskFeatures_SELECTED JF) target = 0
     ∨ feat (TaskFeatures_SELECTED JF) target = Q2Qc (1 # 2)
     ∨ feat (TaskFeatures_SELECTED JF) target = 1) →
  foldl (heuristic_round JF sel s) acc (imap (λ i target, (f i, target)) targets)
  = acc + sum (imap (λ i target, estimate JF s (f i) target) targets).
Proof.
  intros Hsel Hflags. revert f acc.
  induction targets as [|target targets IH]; intros f acc Hhalf.
  { simpl. unfold sum. simpl. ring. }
  rewrite !imap_cons, sum_cons. cbn [foldl].
  rewrite (heuristic_round_estimate _ _ _ _ _ _ Hsel Hflags) by (apply Hhalf; by left).
  etrans; [apply (IH (f ∘ S)); intros ??; apply Hhalf; by right|].
  unfold compose. ring.
Qed.

Lemma astar_heuristic_estimates (JF : Features) (sel : list Qc → nat) (s : State) :
  selects_largest sel → boolean_flags JF s → half_steps JF s →
  astar_heuristic JF sel s = sum (imap (estimate JF s) (Targets s)).
Proof.
  intros Hsel Hflags Hhalf. unfold astar_heuristic, enumerate.
  etrans; [apply (heuristic_rounds_estimates JF sel s (Targets s) id 0 Hsel Hflags Hhalf)|].
  apply Qcplus_0_l.
Qed.

Lemma feat_insert_zero (f : nat) (row : list Qc) : feat f (<[f := 0]> row) = 0.
Proof.
  destruct (decide (f < length row)%nat).
  - by apply feat_insert_eq.
  - apply feat_insert_short. lia.
Qed.

(** What one step of the sample simulation does to the three arrays. *)
Lemma claimed_value (e t : nat) (s : State) :
  claimed (e, t) s
  = feat (TaskFeatures_VALUE sample_features) (default [] (Targets s !! t))
    * opp_at s e t (OpportunityFeatures_PSUCCESS sample_features).
Proof. reflexivity. Qed.

Lemma after_Targets (e t : nat) (s : State) :
  Targets (after (e, t) s)
  = alter (λ row, <[TaskFeatures_VALUE sample_features :=
                      feat (TaskFeatures_VALUE sample_features) row - claimed (e, t) s]>
                    (<[TaskFeatures_SELECTED sample_features :=
                         feat (TaskFeatures_SELECTED sample_features) row + Q2Qc (1 # 2)]>
                       row))
          t (Targets s).
Proof. reflexivity. Qed.

Lemma after_Opportunities (e t : nat) (s : State) :
  ∃ exhausted : nat → nat → bool,
    Opportunities (after (e, t) s)
    = imap (λ e' row,
              imap (λ t' opp,
                      if exhausted e' t'
                      then <[OpportunityFeatures_SELECTABLE sample_features := 0]> opp
                      else opp)
                   row)
           (Opportunities s)
    ∧ ∀ e' t',
        1 ≤ feat (TaskFeatures_SELECTED sample_features)
                 (default [] (Targets (after (e, t) s) !! t')) →
        exhausted e' t' = true.
Proof.
  eexists. split; [reflexivity|]. intros e' t' Hfull. cbn beta.
  apply orb_true_intro. right. by apply bool_decide_eq_true.
Qed.

Lemma opp_at_imap (s s1 : State) (exhausted : nat → nat → bool) (e t f g : nat) :
  Opportunities s1
  = imap (λ e' row, imap (λ t' opp, if exhausted e' t' then <[g := 0]> opp else opp) row)
         (Opportunities s) →
  opp_at s1 e t f
  = if exhausted e t
    then feat f (<[g := 0]> (default [] (default [] (Opportunities s !! e) !! t)))
    else opp_at s e t f.
Proof.
  intros Hopps. unfold opp_at. rewrite Hopps, list_lookup_imap.
  destruct (Opportunities s !! e) as [row|]; simpl.
  - rewrite list_lookup_imap. destruct (row !! t) as [opp|]; simpl; by destruct (exhausted e t).
  - by destruct (exhausted e t).
Qed.

Lemma after_probability (e t : nat) (s : State) (e' t' : nat) :
  opp_at (after (e, t) s) e' t' (OpportunityFeatures_PSUCCESS sample_features)
  = opp_at s e' t' (OpportunityFeatures_PSUCCESS sample_features).
Proof.
  destruct (after_Opportunities e t s) as (exhausted & Hopps & _).
  rewrite (opp_at_imap _ _ _ _ _ _ _ Hopps).
  destruct (exhausted e' t'); [|done]. by rewrite feat_insert_ne.
Qed.

Lemma after_flag (e t : nat) (s : State) (e' t' : nat) :
  opp_at (after (e, t) s) e' t' (OpportunityFeatures_SELECTABLE sample_features) = 0
  ∨ opp_at (after (e, t) s) e' t' (OpportunityFeatures_SELECTABLE sample_features)
    = opp_at s e' t' (OpportunityFeatures_SELECTABLE sample_features).
Proof.
  destruct (after_Opportunities e t s) as (exhausted & Hopps & _).
  rewrite (opp_at_imap _ _ _ _ _ _ _ Hopps).
  destruct (exhausted e' t'); [left|by right]. apply feat_insert_zero.
Qed.

Lemma after_flag_full (e t : nat) (s : State) (e' t' : nat) :
  1 ≤ feat (TaskFeatures_SELECTED sample_features)
           (default [] (Targets (after (e, t) s) !! t')) →
  opp_at (after (e, t) s) e' t' (OpportunityFeatures_SELECTABLE sample_features) = 0.
Proof.
  intros Hfull. destruct (after_Opportunities e t s) as (exhausted & Hopps & Hex).
  rewrite (opp_at_imap _ _ _ _ _ _ _ Hopps), (Hex e' t' Hfull).
  apply feat_insert_zero.
Qed.

(** Arithmetic of the engagements. *)
Lemma Qc_mul_nonneg (a b : Qc) : 0 ≤ a → 0 ≤ b → 0 ≤ a * b.
Proof.
  intros Ha Hb. replace 0 with (0 * b) by ring. by apply Qcmult_le_compat_r.
Qed.

Lemma Qc_sub_nonneg (a b : Qc) : a ≤ b → 0 ≤ b - a.
Proof. apply Qcle_minus_iff. Qed.

Lemma Qc_le_sub (a b : Qc) : 0 ≤ b - a → a ≤ b.
Proof. apply Qcle_minus_iff. Qed.

Lemma Qc_rest_nonneg (v p : Qc) : 0 ≤ v → p ≤ 1 → 0 ≤ v - v * p.
Proof.
  intros Hv Hp. replace (v - v * p) with (v * (1 - p)) by ring.
  apply Qc_mul_nonneg; [done|]. by apply Qc_sub_nonneg.
Qed.

Lemma engagements_nonneg (slots : nat) (p v : Qc) :
  0 ≤ v → 0 ≤ p → p ≤ 1 → 0 ≤ engagements slots p v.
Proof.
  intros Hv Hp0 Hp1. revert v Hv.
  induction slots as [|slots IH]; intros v Hv; simpl; [apply Qcle_refl|].
  replace 0 with (0 + 0) by ring. apply Qcplus_le_compat.
  - by apply Qc_mul_nonneg.
  - apply IH. by apply Qc_rest_nonneg.
Qed.




(** Columns of the opportunity array. *)
Lemma opp_column_at (s : State) (i f e : nat) :
  opp_column s i f !! e = (λ _, opp_at s e i f) <$> Opportunities s !! e.
Proof.
  unfold opp_column, opp_at. rewrite list_lookup_fmap.
  by destruct (Opportunities s !! e).
Qed.


Lemma selectable_count_pos (JF : Features) (s : State) (i : nat) :
  selectable_count JF s i ≠ 0%nat
  ↔ ∃ e, opp_at s e i (OpportunityFeatures_SELECTABLE JF) = 1.
Proof.
  unfold selectable_count. rewrite length_zero_iff_nil. split.
  - intros Hne.
    destruct (filter _ _) as [|x l] eqn:Hfilter; [done|].
    assert (x ∈ filter (λ flag, flag = 1)
                  (opp_column s i (OpportunityFeatures_SELECTABLE JF))) as Hx
      by (rewrite Hfilter; by left).
    apply list_elem_of_filter in Hx as [-> (e & He)%list_elem_of_lookup_1].
    exists e. symmetry. by eapply opp_column_lookup.
  - intros (e & He) Hnil.
    assert (1 ∈ filter (λ flag, flag = 1)
                  (opp_column s i (OpportunityFeatures_SELECTABLE JF))) as Hin.
    { apply list_elem_of_filter. split; [done|].
      apply (list_elem_of_lookup_2 _ e). rewrite opp_column_at.
      destruct (Opportunities s !! e) as [row|] eqn:Hrow; [simpl; by rewrite He|].
      rewrite opp_at_outside in He by (by apply lookup_ge_None).
      by destruct Qc_0_ne_1. }
    rewrite Hnil in Hin. by apply elem_of_nil in Hin.
Qed.

Lemma best_probability_at (JF : Features) (s : State) (i : nat) :
  ∃ e, best_probability JF s i = opp_at s e i (OpportunityFeatures_PSUCCESS JF).
Proof. eexists. symmetry. apply selected_probability, argmax_last_largest. Qed.





(** The target rows after one step. *)
Lemma after_other_row (e t : nat) (s : State) (i : nat) :
  i ≠ t → Targets (after (e, t) s) !! i = Targets s !! i.
Proof. intros Hi. rewrite after_Targets. by apply list_lookup_alter_ne. Qed.

Lemma after_target_row (e t : nat) (s : State) (x : list Qc) :
  Targets s !! t = Some x → (2 ≤ length x)%nat →
  ∃ x', Targets (after (e, t) s) !! t = Some x'
        ∧ feat (TaskFeatures_VALUE sample_features) x'
          = feat (TaskFeatures_VALUE sample_features) x - claimed (e, t) s
        ∧ feat (TaskFeatures_SELECTED sample_features) x'
          = feat (TaskFeatures_SELECTED sample_features) x + Q2Qc (1 # 2)
        ∧ length x' = length x.
Proof.
  intros Hx Hlen. rewrite after_Targets, list_lookup_alter_eq, Hx. simpl.
  eexists. split; [done|]. split_and!.
  - apply feat_insert_eq. rewrite length_insert. lia.
  - rewrite feat_insert_ne by done. apply feat_insert_eq. lia.
  - by rewrite !length_insert.
Qed.

Lemma selectable_open (s : State) (e t : nat) (x : list Qc) :
  sample_wf s →
  opp_at s e t (OpportunityFeatures_SELECTABLE sample_features) = 1 →
  Targets s !! t = Some x →
  feat (TaskFeatures_SELECTED sample_features) x = 0
  ∨ feat (TaskFeatures_SELECTED sample_features) x = Q2Qc (1 # 2).
Proof.
  intros Hwf Hflag Hx.
  destruct (wf_half s Hwf x) as [H0|[Hh|H1]]; [by eapply list_elem_of_lookup_2|by left|by right|].
  rewrite (wf_full s Hwf t x e Hx H1) in Hflag. by destruct Qc_0_ne_1.
Qed.




(** One step of the sample simulation keeps a state well formed. *)
Lemma after_wf (e t : nat) (s : State) :
  sample_wf s →
  opp_at s e t (OpportunityFeatures_SELECTABLE sample_features) = 1 →
  sample_wf (after (e, t) s).
Proof.
  intros Hwf Hflag.
  assert (∀ i x', Targets (after (e, t) s) !! i = Some x' →
            (i ≠ t ∧ Targets s !! i = Some x')
            ∨ ∃ x, i = t ∧ Targets s !! t = Some x
                   ∧ feat (TaskFeatures_VALUE sample_features) x'
                     = feat (TaskFeatures_VALUE sample_features) x - claimed (e, t) s
                   ∧ feat (TaskFeatures_SELECTED sample_features) x'
                     = feat (TaskFeatures_SELECTED sample_features) x + Q2Qc (1 # 2)
                   ∧ length x' = length x) as Hrows.
  { intros i x' Hx'. destruct (decide (i = t)) as [->|Hi].
    - right. destruct (Targets s !! t) as [x|] eqn:Hx.
      + destruct (after_target_row e t s x Hx) as (x'' & Hx'' & Hrow).
        { apply (wf_columns s Hwf). by eapply list_elem_of_lookup_2. }
        exists x. by assert (x'' = x') as -> by congruence.
      + apply lookup_lt_Some in Hx'. apply lookup_ge_None in Hx.
        rewrite after_Targets, length_alter in Hx'. lia.
    - left. by rewrite after_other_row in Hx'. }
  split.
  - intros e' t'. rewrite after_probability. apply (wf_probability s Hwf).
  - intros e' t'. destruct (after_flag e t s e' t') as [H0| ->]; [by left|].
    apply (wf_flags s Hwf).
  - intros x' (i & Hx')%list_elem_of_lookup_1.
    destruct (Hrows i x' Hx') as [[_ Hx]|(x & -> & Hx & _ & -> & _)].
    + apply (wf_half s Hwf). by eapply list_elem_of_lookup_2.
    + destruct (selectable_open s e t x Hwf Hflag Hx) as [-> | ->].
      * right; left. apply Qc_is_canon. reflexivity.
      * right; right. apply Qc_is_canon. reflexivity.
  - intros x' (i & Hx')%list_elem_of_lookup_1.
    destruct (Hrows i x' Hx') as [[_ Hx]|(x & -> & Hx & _ & _ & ->)];
      apply (wf_columns s Hwf); by eapply list_elem_of_lookup_2.
  - intros x' (i & Hx')%list_elem_of_lookup_1.
    destruct (Hrows i x' Hx') as [[_ Hx]|(x & -> & Hx & -> & _)].
    + apply (wf_value s Hwf). by eapply list_elem_of_lookup_2.
    + rewrite claimed_value, Hx. simpl default. apply Qc_rest_nonneg.
      * apply (wf_value s Hwf). by eapply list_elem_of_lookup_2.
      * apply (wf_probability s Hwf).
  - intros t' x' e' Hx' Hfull. apply after_flag_full.
    rewrite Hx'. simpl default. rewrite Hfull. apply Qcle_refl.
Qed.




(** Action sequences of the sample simulation. *)
Lemma sample_step (act : nat * nat) (s s1 : State) (r1 : Qc) (t1 : bool) :
  update_state sample_env act s = (s1, r1, t1) →
  s1 = after act s ∧ r1 = claimed act s.
Proof. intros Hupd. unfold after, claimed. simpl in Hupd. by rewrite Hupd. Qed.

Lemma sample_plan_cons (e t : nat) (s s' : State) (acts : list (nat * nat))
    (rew : Qc) :
  opp_at s e t (OpportunityFeatures_SELECTABLE sample_features) = 1 →
  plan sample_features sample_env (after (e, t) s) acts rew s' →
  plan sample_features sample_env s ((e, t) :: acts) (claimed (e, t) s + rew) s'.
Proof.
  intros Hflag Hplan. eapply plan_cons; [by apply selectable_pairs_flag| |done].
  unfold after, claimed. simpl. by destruct (sample_update_state (e, t) s) as [[??]?].
Qed.

Lemma plan_wf (st s : State) (acts : list (nat * nat)) (rew : Qc) :
  plan sample_features sample_env st acts rew s → sample_wf st → sample_wf s.
Proof.
  induction 1 as [s|s [e t] s1 r1 t1 acts rew s' Hact Hupd _ IH]; intros Hwf; [done|].
  apply IH. apply sample_step in Hupd as [-> _].
  apply after_wf; [done|]. by apply selectable_pairs_flag.
Qed.









Lemma crossed_wf : sample_wf crossed.
Proof.
  split.
  - intros [|[|e]] [|[|t]]; by vm_compute.
  - apply crossed_boolean_flags.
  - apply crossed_half_steps.
  - intros target Hin. repeat (apply elem_of_cons in Hin as [->|Hin]; [simpl; lia|]).
    by apply elem_of_nil in Hin.
  - intros target Hin. repeat (apply elem_of_cons in Hin as [->|Hin]; [by vm_compute|]).
    by apply elem_of_nil in Hin.
  - intros [|[|t]] target e Htarget; [| |done]; injection Htarget as <-;
      intros Hfull; vm_compute in Hfull; discriminate.
Qed.

(** With the zero heuristic the first terminal node popped is accepted
    although another action sequence claims more. *)
Lemma zero_heuristic_accepts_less :
  ∃ res s',
    AStar sample_features sample_env ucs_heuristic 3 crossed = Some res
    ∧ res_g res = Some (frac 10 1)
    ∧ plan sample_features sample_env crossed [(0, 1); (1, 0)]%nat (frac 16 1) s'
    ∧ complete sample_features s'
    ∧ total_value sample_features crossed - frac 10 1 < frac 16 1.
Proof.
  destruct (AStar sample_features sample_env ucs_heuristic 3 crossed) as [res|] eqn:Hres;
    [|by vm_compute in Hres].
  exists res, (after (1, 0)%nat (after (0, 1)%nat crossed)). split_and!.
  - done.
  - vm_compute in Hres. injection Hres as <-. simpl. f_equal.
  - replace (frac 16 1)
      with (claimed (0, 1)%nat crossed
            + (claimed (1, 0)%nat (after (0, 1)%nat crossed) + 0))
      by (apply Qc_is_canon; reflexivity).
    apply sample_plan_cons; [apply Qc_is_canon; reflexivity|].
    apply sample_plan_cons; [apply Qc_is_canon; reflexivity|]. apply plan_nil.
  - by vm_compute.
  - by vm_compute.
Qed.


(** * Further properties of the search *)

Section round_facts.
Context (JF : Features) (env : Simulation) (heuristic : State → Qc).
Context (st : State).

Local Abbreviation Inv := (inv JF env heuristic st).

(** The two ways in which a round goes on to the next one: a terminal node
    is sent back with its priority overwritten, or a node that is not
    terminal is closed and expanded. *)
Lemma round_cases (s s' : Locals) :
  invariant JF env heuristic st s →
  iteration JF env heuristic s = Some (Continue s') →
  ∃ r rest,
    heappop (ref_lt (nodes s)) (frontier s) = Some (r, rest)
    ∧ r :: rest ≡ₚ frontier s
    ∧ (r < length (nodes s))%nat ∧ (r ∉ explored s)
    ∧ (let ns1 := <[r := set_g (deref (nodes s) r) (corrected (nodes s) r)]> (nodes s) in
      (terminal (deref (nodes s) r) = true
       ∧ g (deref (nodes s) r) ≠ corrected (nodes s) r
       ∧ s' = {| nodes := ns1; frontier := heappush (ref_lt ns1) rest r;
                 explored := explored s; expansions := S (expansions s);
                 branchFactor := branchFactor s;
                 duplicate_states := duplicate_states s |})
      ∨ (terminal (deref (nodes s) r) = false
         ∧ s' = expand JF env heuristic r
                  {| nodes := ns1; frontier := rest; explored := explored s;
                     expansions := S (expansions s);
                     branchFactor := branchFactor s;
                     duplicate_states := duplicate_states s |})).
Proof.
  intros HI Hstep. unfold iteration in Hstep.
  destruct (heappop _ _) as [[r rest]|] eqn:Hpop; [|done].
  injection Hstep as Hstep. exists r, rest.
  pose proof (heappop_items _ _ _ _ Hpop) as Hperm.
  destruct (popped_fresh _ _ _ _ _ _ _ _ HI Hperm) as [Hrex Hfresh].
  assert (r < length (nodes s))%nat as Hrlt.
  { eapply inv_refs; [done|]. apply elem_of_app. left. rewrite <-Hperm. by left. }
  split_and!; try done. cbn zeta.
  unfold loop_body in Hstep. rewrite Hfresh in Hstep. unfold corrected.
  destruct (parent (deref (nodes s) r)) as [p|] eqn:Hp.
  - destruct (terminal (deref (nodes s) r)) eqn:Hterm.
    + case_decide as Hg; [done|]. injection Hstep as <-. by left.
    + injection Hstep as <-. by right.
  - injection Hstep as <-. right.
    destruct (inv_root _ _ _ _ _ _ HI) as (n0 & Hn0 & Hroot).
    assert (r = 0%nat) as -> by (by eapply inv_no_parent).
    split; [rewrite (deref_lookup _ _ _ Hn0); apply Hroot|].
    by rewrite set_g_same, (list_insert_id _ _ _ (lookup_deref _ _ Hrlt)).
Qed.

(** The locals after the popped node has been corrected and closed, before
    the expansion loop: the invariant holds but for the actions of the node
    just closed. *)
Lemma closed_inv (s : Locals) (r : nat) (rest : list nat) (e b d : nat) :
  invariant JF env heuristic st s → r :: rest ≡ₚ frontier s →
  terminal (deref (nodes s) r) = false →
  Inv (λ p _, p ∈ explored s)
      {| nodes := <[r := set_g (deref (nodes s) r) (corrected (nodes s) r)]> (nodes s);
         frontier := rest; explored := explored s ++ [r];
         expansions := e; branchFactor := b; duplicate_states := d |}.
Proof.
  intros HI Hperm Hterm.
  apply (correct_inv JF env heuristic st s r rest rest (explored s ++ [r])
           (corrected (nodes s) r) e b d HI Hperm); [done| | | |].
  - rewrite <-Hperm. rewrite (assoc (++)), <-app_comm_cons.
    by rewrite <-Permutation_middle, (right_id [] (++)).
  - intros q Hq. apply elem_of_app. by left.
  - intros q [Hq| ->%list_elem_of_singleton]%elem_of_app; [by left|by right].
  - right. apply elem_of_app. right. by left.
Qed.

(** A property that every round of the expansion loop keeps holds after the
    loop. *)
Lemma expand_rounds_keep (P : Locals → Prop) (acts : list (nat * nat)) covered
    (s : Locals) (r : nat) :
  (∀ covered' s0 a, Inv covered' s0 → r ∈ explored s0 →
     a ∈ selectable_pairs JF (state (deref (nodes s0) r)) →
     P s0 → P (expand_round env heuristic r s0 a)) →
  Inv covered s → r ∈ explored s →
  (∀ a, a ∈ acts → a ∈ selectable_pairs JF (state (deref (nodes s) r))) →
  P s → P (foldl (expand_round env heuristic r) s acts).
Proof.
  intros Hstep. revert covered s.
  induction acts as [|a acts IH]; intros covered s HI Hr Hacts HP; simpl; [done|].
  assert (r < length (nodes s))%nat as Hrlt.
  { eapply inv_refs; [done|]. apply elem_of_app. by right. }
  destruct (expand_round_inv JF env heuristic st covered s r a HI Hr)
    as (HI1 & Hex1 & _ & Hold1 & _).
  { apply Hacts. by left. }
  eapply IH; [exact HI1| | |].
  - by rewrite Hex1.
  - intros a' Ha'. rewrite Hold1 by done. apply Hacts. by right.
  - eapply Hstep; [exact HI|done| |done]. apply Hacts. by left.
Qed.

(** A property of the locals that holds initially and that the two kinds of
    round keep holds throughout every run. *)
Lemma run_keeps (P : Locals → Prop) :
  P (AStar_start JF st) →
  (∀ s r rest, invariant JF env heuristic st s → r :: rest ≡ₚ frontier s →
     terminal (deref (nodes s) r) = true →
     g (deref (nodes s) r) ≠ corrected (nodes s) r →
     P s →
     let ns1 := <[r := set_g (deref (nodes s) r) (corrected (nodes s) r)]> (nodes s) in
     P {| nodes := ns1; frontier := heappush (ref_lt ns1) rest r;
          explored := explored s; expansions := S (expansions s);
          branchFactor := branchFactor s;
          duplicate_states := duplicate_states s |}) →
  (∀ s r rest, invariant JF env heuristic st s → r :: rest ≡ₚ frontier s →
     terminal (deref (nodes s) r) = false →
     P s →
     P {| nodes := <[r := set_g (deref (nodes s) r) (corrected (nodes s) r)]> (nodes s);
          frontier := rest; explored := explored s ++ [r];
          expansions := S (expansions s); branchFactor := branchFactor s;
          duplicate_states := duplicate_states s |}) →
  (∀ covered s r a, Inv covered s → r ∈ explored s →
     a ∈ selectable_pairs JF (state (deref (nodes s) r)) →
     P s → P (expand_round env heuristic r s a)) →
  ∀ s, run JF env heuristic (AStar_start JF st) s → P s.
Proof.
  intros Hstart Hback Hclose Hpush s Hrun.
  induction Hrun as [|s1 s2 Hrun IH Hstep]; [done|].
  pose proof (run_inv _ _ _ _ _ Hrun) as HI.
  destruct (round_cases s1 s2 HI Hstep)
    as (r & rest & Hpop & Hperm & Hrlt & Hrex & [(Hterm & Hg & ->)|(Hterm & ->)]).
  - by apply Hback.
  - unfold expand. cbn [nodes frontier explored expansions branchFactor duplicate_states].
    eapply (expand_rounds_keep P).
    + intros covered' s0 a. apply Hpush.
    + by apply closed_inv.
    + simpl. apply elem_of_app. right. by left.
    + done.
    + by apply Hclose.
Qed.
End round_facts.

(** ** Every stored node is accounted for *)

Lemma deref_seq (ns : list Node) : deref ns <$> seq 0 (length ns) = ns.
Proof.
  apply list_eq. intros i. rewrite list_lookup_fmap.
  destruct (ns !! i) as [n|] eqn:Hn.
  - rewrite lookup_seq_lt by (by eapply lookup_lt_Some). simpl.
    by rewrite (deref_lookup _ _ _ Hn).
  - rewrite lookup_seq_ge; [done|]. by apply lookup_ge_None.
Qed.

Lemma run_accounted (JF : Features) (env : Simulation) (heuristic : State → Qc)
    (st : State) (s : Locals) :
  run JF env heuristic (AStar_start JF st) s →
  frontier s ++ explored s ≡ₚ seq 0 (length (nodes s))
  ∧ length (nodes s) = S (branchFactor s).
Proof.
  revert s. apply run_keeps.
  - by simpl.
  - intros s r rest HI Hperm _ _ [Hacc Hlen]. simpl.
    rewrite length_insert, heappush_items, Hperm. done.
  - intros s r rest HI Hperm _ [Hacc Hlen]. simpl.
    rewrite length_insert. split; [|done]. rewrite <-Hacc, <-Hperm.
    rewrite (assoc (++)), <-app_comm_cons.
    by rewrite <-Permutation_middle, (right_id [] (++)).
  - intros covered s r a _ _ _ [Hacc Hlen]. unfold expand_round.
    destruct (negb _ && negb _);
      cbn [nodes frontier explored branchFactor]; [|done].
    rewrite length_app, heappush_items, <-app_comm_cons, Hacc. cbn [length].
    split; [|lia]. rewrite Nat.add_1_r, seq_S. cbn [Nat.add].
    by rewrite <-Permutation_cons_append.
Qed.

Lemma run_states_distinct (JF : Features) (env : Simulation) (heuristic : State → Qc)
    (st : State) (s : Locals) :
  run JF env heuristic (AStar_start JF st) s → NoDup (state <$> nodes s).
Proof.
  intros Hrun. pose proof (run_inv _ _ _ _ _ Hrun) as HI.
  destruct (run_accounted _ _ _ _ _ Hrun) as [Hacc _].
  pose proof (inv_distinct _ _ _ _ _ _ HI) as Hnd.
  rewrite Hacc in Hnd.
  rewrite <-(deref_seq (nodes s)) at 1. by rewrite <-list_fmap_compose.
Qed.


(** ** What a round changes in the store *)
Section store_facts.
Context (JF : Features) (env : Simulation) (heuristic : State → Qc).
Context (st : State).

Local Abbreviation Inv := (inv JF env heuristic st).

Lemma expand_round_frontier (s : Locals) (r : nat) (a : nat * nat) (q : nat) :
  q ∈ frontier s → q ∈ frontier (expand_round env heuristic r s a).
Proof.
  intros Hq. unfold expand_round. destruct (negb _ && negb _); simpl; [|done].
  rewrite heappush_items. by right.
Qed.

(** A round that goes on changes one stored node only, the popped one,
    whose priority becomes the corrected one; it leaves the other nodes of
    the frontier there and appends at most the popped node to the closed
    list. *)
Lemma round_store (s s' : Locals) :
  invariant JF env heuristic st s →
  iteration JF env heuristic s = Some (Continue s') →
  ∃ r rest,
    heappop (ref_lt (nodes s)) (frontier s) = Some (r, rest)
    ∧ r ∈ frontier s ∧ (r ∉ explored s) ∧ (r < length (nodes s))%nat
    ∧ deref (nodes s') r = set_g (deref (nodes s) r) (corrected (nodes s) r)
    ∧ (∀ q, (q < length (nodes s))%nat → q ≠ r →
            deref (nodes s') q = deref (nodes s) q)
    ∧ (length (nodes s) ≤ length (nodes s'))%nat
    ∧ (∀ q, q ∈ frontier s → q ≠ r → q ∈ frontier s')
    ∧ ((terminal (deref (nodes s) r) = true
        ∧ g (deref (nodes s) r) ≠ corrected (nodes s) r
        ∧ explored s' = explored s ∧ r ∈ frontier s'
        ∧ length (nodes s') = length (nodes s))
       ∨ (terminal (deref (nodes s) r) = false
          ∧ explored s' = explored s ++ [r])).
Proof.
  intros HI Hstep.
  destruct (round_cases JF env heuristic st s s' HI Hstep)
    as (r & rest & Hpop & Hperm & Hrlt & Hrex & [(Hterm & Hg & ->)|(Hterm & ->)]);
    exists r, rest.
  - assert (r ∈ frontier s) as Hrfr by (rewrite <-Hperm; by left).
    split_and!; try done; simpl.
    + by apply deref_insert_eq.
    + intros q _ Hq. by apply deref_insert_ne.
    + by rewrite length_insert.
    + intros q Hq Hne. rewrite heappush_items. right.
      rewrite <-Hperm in Hq. by apply elem_of_cons in Hq as [->|Hq].
    + left. split_and!; try done; [|by rewrite length_insert].
      rewrite heappush_items. by left.
  - assert (r ∈ frontier s) as Hrfr by (rewrite <-Hperm; by left).
    pose proof (closed_inv JF env heuristic st s r rest (S (expansions s))
                  (branchFactor s) (duplicate_states s) HI Hperm Hterm) as HI1.
    unfold expand. cbn [nodes frontier explored expansions branchFactor duplicate_states].
    set (acts := selectable_pairs JF _).
    match type of HI1 with inv _ _ _ _ _ ?x => set (s1 := x) in * end.
    destruct (expand_rounds_inv JF env heuristic st acts (λ p _, p ∈ explored s) s1 r HI1)
      as (_ & Hex2 & _ & Hold2 & Hlen2).
    { simpl. apply elem_of_app. right. by left. }
    { done. }
    simpl in Hold2, Hlen2, Hex2. rewrite length_insert in Hold2, Hlen2.
    split_and!; try done.
    + rewrite Hold2 by done. by apply deref_insert_eq.
    + intros q Hq Hne. rewrite Hold2 by done. by apply deref_insert_ne.
    + intros q Hq Hne.
      apply (expand_rounds_keep JF env heuristic st (λ s0, q ∈ frontier s0) acts
               (λ p _, p ∈ explored s) s1 r).
      * intros _ s0 a _ _ _. apply expand_round_frontier.
      * exact HI1.
      * simpl. apply elem_of_app. right. by left.
      * done.
      * simpl. rewrite <-Hperm in Hq. by apply elem_of_cons in Hq as [->|Hq].
    + right. by split.
Qed.

(** Along a run the closed list is only appended to, and a closed node is
    not modified any more. *)
Lemma run_closed_final (s s' : Locals) :
  invariant JF env heuristic st s → run JF env heuristic s s' →
  invariant JF env heuristic st s'
  ∧ explored s `prefix_of` explored s'
  ∧ (length (nodes s) ≤ length (nodes s'))%nat
  ∧ ∀ q, q ∈ explored s → deref (nodes s') q = deref (nodes s) q.
Proof.
  intros HI Hrun. induction Hrun as [|s1 s2 Hrun (HI1 & Hpre & Hlen & Hsame) Hstep].
  { done. }
  assert (invariant JF env heuristic st s2) as HI2.
  { unfold iteration in Hstep.
    destruct (heappop _ _) as [[r rest]|] eqn:Hpop; [|done].
    injection Hstep as Hstep. by eapply loop_body_inv. }
  destruct (round_store s1 s2 HI1 Hstep)
    as (r & rest & _ & Hrfr & Hrex & Hrlt & _ & Hold & Hlen' & _ & Hcase).
  split_and!; [done| |lia|].
  - etrans; [exact Hpre|].
    destruct Hcase as [(_ & _ & -> & _)|(_ & ->)]; [done|]. by apply prefix_app_r.
  - intros q Hq. rewrite <-(Hsame q Hq). apply Hold.
    + eapply inv_refs; [exact HI1|]. apply elem_of_app. right.
      by eapply elem_of_prefix.
    + intros ->. apply Hrex. by eapply elem_of_prefix.
Qed.
End store_facts.

(** ** Terminal nodes and the acceptance test *)
Section acceptance_facts.
Context (JF : Features) (env : Simulation) (heuristic : State → Qc).
Context (st : State).

(** A popped terminal node whose priority equals the one recomputed from
    its parent is accepted. *)
Lemma settled_accepted (s : Locals) (r p : nat) (rest : list nat) :
  invariant JF env heuristic st s →
  heappop (ref_lt (nodes s)) (frontier s) = Some (r, rest) →
  parent (deref (nodes s) r) = Some p →
  terminal (deref (nodes s) r) = true →
  g (deref (nodes s) r) = g (deref (nodes s) p) - reward (deref (nodes s) r) →
  iteration JF env heuristic s
  = Some (Return {| res_solution := steps (Solution (length (nodes s)) (nodes s) r);
                    res_g := Some (g (deref (nodes s) r));
                    res_expansions := S (expansions s);
                    res_branchFactor := branchFactor s |}).
Proof.
  intros HI Hpop Hp Hterm Hg. unfold iteration. rewrite Hpop. f_equal.
  pose proof (heappop_items _ _ _ _ Hpop) as Hperm.
  destruct (popped_fresh _ _ _ _ _ _ _ _ HI Hperm) as [_ Hfresh].
  unfold loop_body. rewrite Hfresh, Hp, Hterm. by rewrite decide_True.
Qed.

(** A terminal frontier node whose priority equals the one recomputed from
    its parent stays on the frontier, unchanged, as long as the run goes
    on. *)
Lemma settled_kept (s1 s2 : Locals) (r p : nat) :
  invariant JF env heuristic st s1 → run JF env heuristic s1 s2 →
  r ∈ frontier s1 → parent (deref (nodes s1) r) = Some p →
  terminal (deref (nodes s1) r) = true →
  g (deref (nodes s1) r) = g (deref (nodes s1) p) - reward (deref (nodes s1) r) →
  invariant JF env heuristic st s2 ∧ r ∈ frontier s2
  ∧ deref (nodes s2) r = deref (nodes s1) r
  ∧ deref (nodes s2) p = deref (nodes s1) p.
Proof.
  intros HI Hrun Hr Hp Hterm Hg.
  induction Hrun as [|sa sb Hrun (HIa & Hra & Hsame_r & Hsame_p) Hstep]; [done|].
  assert (invariant JF env heuristic st sb) as HIb.
  { unfold iteration in Hstep.
    destruct (heappop _ _) as [[r' rest]|] eqn:Hpop; [|done].
    injection Hstep as Hstep. by eapply loop_body_inv. }
  destruct (round_store JF env heuristic st sa sb HIa Hstep)
    as (r' & rest & _ & Hr'fr & Hr'ex & Hr'lt & _ & Hold & _ & Hfr & Hcase).
  assert (parent (deref (nodes sa) r) = Some p) as Hpa by (by rewrite Hsame_r).
  destruct (inv_parent_lt _ _ _ _ _ _ _ _ HIa Hpa) as (Hplt & Hrlt & _ & Hpe).
  assert (r' ≠ r) as Hne.
  { intros ->. unfold corrected in Hcase. rewrite Hpa, Hsame_r, Hsame_p in Hcase.
    destruct Hcase as [(_ & Hbad & _)|(Hbad & _)]; [done|congruence]. }
  split_and!; [done|by apply Hfr| |].
  - rewrite <-Hsame_r. by apply Hold.
  - rewrite <-Hsame_p. apply Hold; [lia|]. by intros ->.
Qed.
End acceptance_facts.

(** X5: a terminal node is sent back to the heap at most once: after a
    round has overwritten its priority and pushed it back, the node stays on
    the frontier, and the next time it is popped it is accepted, with the
    priority that was written. *)
Theorem sent_back_once (JF : Features) (env : Simulation) (heuristic : State → Qc)
    (st : State) (s s1 s2 : Locals) (r : nat) (rest rest2 : list nat) :
  run JF env heuristic (AStar_start JF st) s →
  heappop (ref_lt (nodes s)) (frontier s) = Some (r, rest) →
  terminal (deref (nodes s) r) = true →
  iteration JF env heuristic s = Some (Continue s1) →
  run JF env heuristic s1 s2 →
  r ∈ frontier s2
  ∧ (heappop (ref_lt (nodes s2)) (frontier s2) = Some (r, rest2) →
     ∃ res, iteration JF env heuristic s2 = Some (Return res)
            ∧ res_g res = Some (corrected (nodes s) r)).
Proof.
  intros Hrun Hpop Hterm Hstep Hrun2.
  pose proof (run_inv _ _ _ _ _ Hrun) as HI.
  assert (invariant JF env heuristic st s1) as HI1.
  { apply (run_inv JF env heuristic st). by eapply run_round. }
  destruct (round_store JF env heuristic st s s1 HI Hstep)
    as (r' & rest' & Hpop' & Hrfr & Hrex & Hrlt & Hnew & Hold & _ & _ & Hcase).
  assert (r' = r) as -> by congruence.
  destruct Hcase as [(_ & Hg & Hex & Hrfr1 & _)|(Hbad & _)]; [|congruence].
  destruct (parent (deref (nodes s) r)) as [p|] eqn:Hp; last first.
  { unfold corrected in Hg. by rewrite Hp in Hg. }
  destruct (inv_parent_lt _ _ _ _ _ _ _ _ HI Hp) as (Hplt & _ & _ & Hpe).
  assert (deref (nodes s1) p = deref (nodes s) p) as Hp1.
  { apply Hold; [lia|]. by intros ->. }
  assert (corrected (nodes s) r
          = g (deref (nodes s) p) - reward (deref (nodes s) r)) as Hcorr.
  { unfold corrected. by rewrite Hp. }
  destruct (settled_kept JF env heuristic st s1 s2 r p HI1 Hrun2 Hrfr1)
    as (HI2 & Hrfr2 & Hsame_r & Hsame_p).
  { by rewrite Hnew. }
  { by rewrite Hnew. }
  { rewrite Hnew, Hp1. simpl. by rewrite Hcorr. }
  split; [done|]. intros Hpop2. eexists. split.
  - apply (settled_accepted JF env heuristic st s2 r p rest2 HI2 Hpop2).
    + by rewrite Hsame_r, Hnew.
    + by rewrite Hsame_r, Hnew.
    + rewrite Hsame_r, Hsame_p, Hnew, Hp1. simpl. by rewrite Hcorr.
  - simpl. by rewrite Hsame_r, Hnew.
Qed.

Lemma sent_back_once_witness :
  let JF := sample_features in
  let s := rounds JF sample_env flat_heuristic 1 (AStar_start JF (single 1)) in
  let s1 := rounds JF sample_env flat_heuristic 1 s in
  ∃ res, iteration JF sample_env flat_heuristic s1 = Some (Return res)
         ∧ res_g res = Some (corrected (nodes s) 1).
Proof.
  intros JF s s1.
  refine (proj2 (sent_back_once JF sample_env flat_heuristic (single 1)
                   s s1 s1 1 [] [] _ _ _ _ _) _).
  - apply rounds_run.
  - vm_compute. reflexivity.
  - vm_compute. reflexivity.
  - vm_compute. reflexivity.
  - apply run_here.
  - vm_compute. reflexivity.
Defined.

(** X6: a popped terminal node whose state the heuristic estimates at zero
    is accepted at once: the lazy re-validation sends a terminal node back
    only when the heuristic of its state is not zero. *)
Theorem zero_estimate_accepted (JF : Features) (env : Simulation)
    (heuristic : State → Qc) (st : State) (s : Locals) (r : nat)
    (rest : list nat) :
  run JF env heuristic (AStar_start JF st) s →
  heappop (ref_lt (nodes s)) (frontier s) = Some (r, rest) →
  terminal (deref (nodes s) r) = true →
  heuristic (state (deref (nodes s) r)) = 0 →
  iteration JF env heuristic s
  = Some (Return {| res_solution := steps (Solution (length (nodes s)) (nodes s) r);
                    res_g := Some (g (deref (nodes s) r));
                    res_expansions := S (expansions s);
                    res_branchFactor := branchFactor s |}).
Proof.
  intros Hrun Hpop Hterm Hzero.
  pose proof (run_inv _ _ _ _ _ Hrun) as HI.
  pose proof (heappop_items _ _ _ _ Hpop) as Hperm.
  assert (r < length (nodes s))%nat as Hrlt.
  { eapply inv_refs; [done|]. apply elem_of_app. left. rewrite <-Hperm. by left. }
  assert (r ≠ 0%nat) as Hr0.
  { intros ->. destruct (inv_root _ _ _ _ _ _ HI) as (n0 & Hn0 & Hroot).
    rewrite (deref_lookup _ _ _ Hn0) in Hterm.
    destruct Hroot as (_ & _ & _ & _ & Hroot & _). congruence. }
  destruct (inv_child _ _ _ _ _ _ HI r _ (lookup_deref _ _ Hrlt) Hr0)
    as (p & a & Hp & _ & _ & _ & _ & _ & Hg).
  apply (settled_accepted JF env heuristic st s r p rest HI Hpop Hp Hterm).
  destruct Hg as [Hg|[Hg _]]; [|done]. rewrite Hg, Hzero. ring.
Qed.

Lemma zero_estimate_accepted_witness :
  let JF := sample_features in
  let s := rounds JF sample_env ucs_heuristic 2 (AStar_start JF crossed) in
  iteration JF sample_env ucs_heuristic s
  = Some (Return {| res_solution := steps (Solution (length (nodes s)) (nodes s) 6);
                    res_g := Some (g (deref (nodes s) 6));
                    res_expansions := S (expansions s);
                    res_branchFactor := branchFactor s |}).
Proof.
  intros JF s.
  refine (zero_estimate_accepted JF sample_env ucs_heuristic crossed s 6 _ _ _ _ _).
  - apply rounds_run.
  - vm_compute. reflexivity.
  - vm_compute. reflexivity.
  - reflexivity.
Defined.

(** X3: throughout every run each stored node is in exactly one place, on
    the frontier or in the closed list; the store holds the root and one
    node for every unit of the branch factor; and no two stored nodes have
    the same state. *)
Theorem store_accounting (JF : Features) (env : Simulation) (heuristic : State → Qc)
    (st : State) (s : Locals) :
  run JF env heuristic (AStar_start JF st) s →
  frontier s ++ explored s ≡ₚ seq 0 (length (nodes s))
  ∧ length (nodes s) = S (branchFactor s)
  ∧ NoDup (state <$> nodes s).
Proof.
  intros Hrun. destruct (run_accounted _ _ _ _ _ Hrun) as [Hacc Hlen].
  split_and!; [done|done|]. by eapply run_states_distinct.
Qed.

Lemma store_accounting_witness :
  let JF := sample_features in
  let s := rounds JF sample_env default_heuristic 3 (AStar_start JF crossed) in
  frontier s ++ explored s ≡ₚ seq 0 (length (nodes s))
  ∧ length (nodes s) = S (branchFactor s)
  ∧ NoDup (state <$> nodes s).
Proof.
  intros JF s.
  apply (store_accounting JF sample_env default_heuristic crossed s).
  apply rounds_run.
Defined.

(** X4: once a node is in the closed list it stays there, in its place, it
    is not modified any more (its priority is final) and it does not come
    back to the frontier. *)
Theorem closed_nodes_final (JF : Features) (env : Simulation)
    (heuristic : State → Qc) (st : State) (s s' : Locals) :
  run JF env heuristic (AStar_start JF st) s → run JF env heuristic s s' →
  explored s `prefix_of` explored s'
  ∧ ∀ q, q ∈ explored s →
         deref (nodes s') q = deref (nodes s) q ∧ q ∉ frontier s'.
Proof.
  intros Hrun Hrun'. pose proof (run_inv _ _ _ _ _ Hrun) as HI.
  destruct (run_closed_final JF env heuristic st s s' HI Hrun')
    as (HI' & Hpre & _ & Hsame).
  split; [done|]. intros q Hq. split; [by apply Hsame|].
  intros Hfr. apply (frontier_not_closed JF env heuristic st s' q HI' Hfr).
  exact (elem_of_prefix _ _ _ Hq Hpre).
Qed.

Lemma closed_nodes_final_witness :
  let JF := sample_features in
  let s := rounds JF sample_env default_heuristic 2 (AStar_start JF crossed) in
  let s' := rounds JF sample_env default_heuristic 3 s in
  deref (nodes s') 0 = deref (nodes s) 0 ∧ 0%nat ∉ frontier s'.
Proof.
  intros JF s s'.
  refine (proj2 (closed_nodes_final JF sample_env default_heuristic crossed s s' _ _)
                0%nat _).
  - apply rounds_run.
  - apply rounds_run.
  - vm_compute. left.
Defined.

(** X2: the search is best first: the node that a round pops has the least
    priority of all nodes on the frontier, which holds each of its nodes
    once; the rest is the frontier without that node. *)
Theorem pop_least_priority (JF : Features) (env : Simulation)
    (heuristic : State → Qc) (st : State) (s : Locals) (r : nat)
    (rest : list nat) :
  run JF env heuristic (AStar_start JF st) s →
  heappop (ref_lt (nodes s)) (frontier s) = Some (r, rest) →
  (∀ m, m ∈ frontier s → g (deref (nodes s) r) ≤ g (deref (nodes s) m))
  ∧ r :: rest ≡ₚ frontier s ∧ NoDup (frontier s).
Proof.
  intros Hrun Hpop. pose proof (run_inv _ _ _ _ _ Hrun) as HI.
  pose proof (run_heap _ _ _ _ _ Hrun) as Hheap.
  destruct (rest_heap JF env heuristic st _ s r rest 0 HI Hheap Hpop) as (_ & _ & Hleast).
  split_and!; [done|by eapply heappop_items|by eapply frontier_NoDup].
Qed.

Lemma pop_least_priority_witness :
  let JF := sample_features in
  let s := rounds JF sample_env default_heuristic 1 (AStar_start JF crossed) in
  g (deref (nodes s) 1) ≤ g (deref (nodes s) 3).
Proof.
  intros JF s.
  refine (proj1 (pop_least_priority JF sample_env default_heuristic crossed s 1
                   _ _ _) 3%nat _).
  - apply rounds_run.
  - vm_compute. reflexivity.
  - vm_compute. do 2 right. left.
Defined.

(** A round that returns accepts a terminal node with a parent. *)
Lemma round_returns (JF : Features) (env : Simulation) (heuristic : State → Qc)
    (st : State) (s : Locals) (res : Result) :
  invariant JF env heuristic st s →
  iteration JF env heuristic s = Some (Return res) →
  ∃ r rest p,
    heappop (ref_lt (nodes s)) (frontier s) = Some (r, rest)
    ∧ parent (deref (nodes s) r) = Some p
    ∧ terminal (deref (nodes s) r) = true
    ∧ g (deref (nodes s) r) = g (deref (nodes s) p) - reward (deref (nodes s) r)
    ∧ res = {| res_solution := steps (Solution (length (nodes s)) (nodes s) r);
               res_g := Some (g (deref (nodes s) r));
               res_expansions := S (expansions s);
               res_branchFactor := branchFactor s |}.
Proof.
  intros HI Hret. unfold iteration in Hret.
  destruct (heappop _ _) as [[r rest]|] eqn:Hpop; [|done].
  pose proof (heappop_items _ _ _ _ Hpop) as Hperm.
  injection Hret as Hret. unfold loop_body in Hret.
  destruct (popped_fresh _ _ _ _ _ _ _ _ HI Hperm) as [_ Hfresh].
  rewrite Hfresh in Hret.
  destruct (parent (deref (nodes s) r)) as [p|] eqn:Hp; [|done].
  destruct (terminal (deref (nodes s) r)) eqn:Hterm; [|done].
  case_decide as Hg; [|done]. injection Hret as <-.
  by exists r, rest, p.
Qed.





(** X7: under a transition function that flags a step as terminal exactly
    when it leaves no opportunity selectable, [AStar] does not report
    failure when some non-empty action sequence from the initial state runs
    until nothing is selectable: what it returns then is an accepted
    solution. *)
Theorem complete_plan_excludes_failure (JF : Features) (env : Simulation)
    (heuristic : State → Qc) (st : State) (fuel : nat) (res : Result)
    (a : nat * nat) (acts : list (nat * nat)) (rew : Qc) (s' : State) :
  flags_terminal JF env st →
  plan JF env st (a :: acts) rew s' → complete JF s' →
  AStar JF env heuristic fuel st = Some res →
  ∃ sol prio, res_solution res = steps sol ∧ res_g res = Some prio.
Proof.
  intros Hflags Hplan Hend Hres.
  apply AStar_loop_returns in Hres as (s & Hrun & [[Hempty ->]|Hret]).
  - pose proof (run_inv _ _ _ _ _ Hrun) as HI.
    destruct (run_accounted _ _ _ _ _ Hrun) as [Hacc Hlen].
    assert (selectable_pairs JF st ≠ []) as Hst.
    { inversion Hplan as [|s0 act s1 r1 t1 acts' rew' s'' Hact]; subst.
      intros Hnil. rewrite Hnil in Hact. by apply elem_of_nil in Hact. }
    destruct (frontier_on_plan JF env heuristic st s st s' (a :: acts) rew Hflags HI
                Hst Hplan Hend)
      as (m & _ & _ & _ & _ & Hm & _).
    { exists 0%nat. split.
      - rewrite Hacc, Hlen. simpl. by left.
      - destruct (inv_root _ _ _ _ _ _ HI) as (n0 & Hn0' & _ & _ & Hs0 & _).
        by rewrite (deref_lookup _ _ _ Hn0'). }
    rewrite Hempty in Hm. by apply elem_of_nil in Hm.
  - pose proof (run_inv _ _ _ _ _ Hrun) as HI.
    destruct (round_returns JF env heuristic st s res HI Hret)
      as (n & rest & p & _ & _ & _ & _ & ->).
    by eexists _, _.
Qed.

Lemma complete_plan_excludes_failure_witness :
  ∃ res sol prio,
    AStar sample_features sample_env default_heuristic 6 crossed = Some res
    ∧ res_solution res = steps sol ∧ res_g res = Some prio.
Proof.
  destruct (AStar sample_features sample_env default_heuristic 6 crossed)
    as [res|] eqn:Hres; [|by vm_compute in Hres].
  destruct (complete_plan_excludes_failure sample_features sample_env
              default_heuristic crossed 6 res (0, 1)%nat [(1, 0)%nat]
              (claimed (0, 1)%nat crossed
               + (claimed (1, 0)%nat (after (0, 1)%nat crossed) + 0))
              (after (1, 0)%nat (after (0, 1)%nat crossed)))
    as (sol & prio & Hsol & Hprio).
  - apply sample_flags_terminal.
  - apply sample_plan_cons; [apply Qc_is_canon; reflexivity|].
    apply sample_plan_cons; [apply Qc_is_canon; reflexivity|]. apply plan_nil.
  - by vm_compute.
  - exact Hres.
  - exists res, sol, prio. split_and!; [reflexivity|exact Hsol|exact Hprio].
Defined.

(** ** Termination *)
Section termination_facts.
Context (JF : Features) (env : Simulation) (heuristic : State → Qc).
Context (st : State).

Local Abbreviation Inv := (inv JF env heuristic st).

Lemma pops_left_ext (ns ns' : list Node) (r : nat) :
  deref ns' r = deref ns r →
  (∀ p, parent (deref ns r) = Some p → deref ns' p = deref ns p) →
  pops_left ns' r = pops_left ns r.
Proof.
  intros Hr Hp. unfold pops_left, settled, corrected. rewrite Hr.
  destruct (parent (deref ns r)) as [p|] eqn:Hparent; [|done].
  by rewrite (Hp p).
Qed.

Lemma pops_left_bounds (ns : list Node) (r : nat) :
  (1 ≤ pops_left ns r ≤ 2)%nat.
Proof. unfold pops_left. destruct (settled ns r); lia. Qed.

Lemma sum_list_with_ext {A : Type} (f f' : A → nat) (l : list A) :
  (∀ x, x ∈ l → f x = f' x) → sum_list_with f l = sum_list_with f' l.
Proof.
  induction l as [|x l IH]; intros Hext; simpl; [done|].
  rewrite (Hext x) by (by left). rewrite IH; [done|].
  intros y Hy. apply Hext. by right.
Qed.

Lemma sum_list_with_cons {A : Type} (f : A → nat) (x : A) (l : list A) :
  sum_list_with f (x :: l) = (f x + sum_list_with f l)%nat.
Proof. done. Qed.

(** Storing a new node does not change the pops left for the nodes that
    are on the frontier. *)
Lemma expand_round_potential covered (bound : nat) (s : Locals) (r : nat)
    (a : nat * nat) :
  Inv covered s →
  (length (nodes (expand_round env heuristic r s a)) ≤ bound)%nat →
  (potential bound (expand_round env heuristic r s a) ≤ potential bound s)%nat.
Proof.
  intros HI. unfold expand_round.
  destruct (negb _ && negb _); [|done]. unfold potential.
  cbn [nodes frontier]. rewrite length_app, heappush_items, sum_list_with_cons.
  cbn [length]. intros Hlen.
  pose proof (pops_left_bounds (nodes s ++ [make_child env heuristic (nodes s) r a])
                (length (nodes s))) as Hnew.
  rewrite (sum_list_with_ext _ (pops_left (nodes s)) (frontier s)); [lia|].
  intros q Hq.
  assert (q < length (nodes s))%nat as Hqlt.
  { eapply inv_refs; [done|]. apply elem_of_app. by left. }
  apply pops_left_ext; [by apply deref_app_old|].
  intros p Hp. apply deref_app_old.
  destruct (inv_parent_lt _ _ _ _ _ _ _ _ HI Hp) as (Hlt & _). lia.
Qed.

Lemma expand_rounds_potential (acts : list (nat * nat)) covered (bound : nat)
    (s : Locals) (r : nat) :
  Inv covered s → r ∈ explored s →
  (∀ a, a ∈ acts → a ∈ selectable_pairs JF (state (deref (nodes s) r))) →
  (length (nodes (foldl (expand_round env heuristic r) s acts)) ≤ bound)%nat →
  (potential bound (foldl (expand_round env heuristic r) s acts)
   ≤ potential bound s)%nat.
Proof.
  revert covered s. induction acts as [|a acts IH];
    intros covered s HI Hr Hacts Hlen; simpl in *; [done|].
  assert (r < length (nodes s))%nat as Hrlt.
  { eapply inv_refs; [done|]. apply elem_of_app. by right. }
  destruct (expand_round_inv JF env heuristic st covered s r a HI Hr)
    as (HI1 & Hex1 & _ & Hold1 & _).
  { apply Hacts. by left. }
  destruct (expand_rounds_inv JF env heuristic st acts _ _ r HI1) as (_ & _ & _ & _ & Hmono).
  { by rewrite Hex1. }
  { intros a' Ha'. rewrite Hold1 by done. apply Hacts. by right. }
  etrans; [eapply IH; [exact HI1| | |done]|].
  - by rewrite Hex1.
  - intros a' Ha'. rewrite Hold1 by done. apply Hacts. by right.
  - eapply expand_round_potential; [done|]. simpl in Hmono. lia.
Qed.

(** Every round that goes on lowers the potential. *)
Lemma round_potential (bound : nat) (s s' : Locals) :
  invariant JF env heuristic st s →
  iteration JF env heuristic s = Some (Continue s') →
  (length (nodes s') ≤ bound)%nat →
  (potential bound s' < potential bound s)%nat.
Proof.
  intros HI Hstep Hbound.
  destruct (round_cases JF env heuristic st s s' HI Hstep)
    as (r & rest & Hpop & Hperm & Hrlt & Hrex & Hcase).
  pose proof (frontier_NoDup _ _ _ _ _ _ HI) as Hnd. rewrite <-Hperm in Hnd.
  apply NoDup_cons_1_1 in Hnd as Hrrest.
  set (ns1 := <[r := set_g (deref (nodes s) r) (corrected (nodes s) r)]> (nodes s))
    in *.
  assert (∀ q, q ∈ rest → pops_left ns1 q = pops_left (nodes s) q) as Hrest.
  { intros q Hq. assert (q ≠ r) as Hqr by (by intros ->).
    apply pops_left_ext; [by apply deref_insert_ne|].
    intros p Hp. apply deref_insert_ne.
    destruct (inv_parent_lt _ _ _ _ _ _ _ _ HI Hp) as (_ & _ & _ & Hpe).
    by intros ->. }
  assert (potential bound s
          = 3 * (bound - length (nodes s)) + pops_left (nodes s) r
            + sum_list_with (pops_left (nodes s)) rest)%nat as Hs.
  { unfold potential. rewrite <-Hperm, sum_list_with_cons. lia. }
  pose proof (pops_left_bounds (nodes s) r) as Hr12.
  destruct Hcase as [(Hterm & Hg & ->)|(Hterm & ->)].
  - rewrite Hs. unfold potential. cbn [nodes frontier].
    rewrite heappush_items, sum_list_with_cons. unfold ns1 at 1.
    rewrite length_insert.
    rewrite (sum_list_with_ext _ (pops_left (nodes s)) rest) by done.
    assert (pops_left (nodes s) r = 2%nat) as Hold.
    { unfold pops_left, settled. rewrite Hterm. simpl.
      by rewrite bool_decide_eq_false_2. }
    assert (pops_left ns1 r = 1%nat) as Hnew.
    { unfold pops_left, settled, corrected.
      unfold ns1. rewrite deref_insert_eq by done. simpl. rewrite Hterm. simpl.
      rewrite bool_decide_eq_true_2; [done|]. unfold corrected.
      destruct (parent (deref (nodes s) r)) as [p|] eqn:Hp; [|done].
      destruct (inv_parent_lt _ _ _ _ _ _ _ _ HI Hp) as (_ & _ & _ & Hpe).
      rewrite deref_insert_ne; [done|]. by intros ->. }
    lia.
  - unfold expand in *.
    cbn [nodes frontier explored expansions branchFactor duplicate_states] in *.
    fold ns1 in Hbound |- *.
    set (s1 := {| nodes := ns1; frontier := rest; explored := explored s ++ [r];
                  expansions := S (expansions s); branchFactor := branchFactor s;
                  duplicate_states := duplicate_states s |}) in *.
    pose proof (closed_inv JF env heuristic st s r rest (S (expansions s))
                  (branchFactor s) (duplicate_states s) HI Hperm Hterm) as HI1.
    fold ns1 in HI1. fold s1 in HI1.
    eapply Nat.le_lt_trans.
    + eapply (expand_rounds_potential _ _ bound s1 r); [exact HI1| | |exact Hbound].
      * simpl. apply elem_of_app. right. by left.
      * done.
    + rewrite Hs. unfold potential, s1. cbn [nodes frontier]. unfold ns1 at 1.
      rewrite length_insert.
      rewrite (sum_list_with_ext _ (pops_left (nodes s)) rest) by done. lia.
Qed.

(** When every state that an action sequence reaches from the initial state
    is in [universe], no more nodes than that are ever stored. *)
Lemma store_bounded (universe : list State) (s : Locals) :
  (∀ acts rew x, plan JF env st acts rew x → x ∈ universe) →
  run JF env heuristic (AStar_start JF st) s →
  (length (nodes s) ≤ length universe)%nat.
Proof.
  intros Hall Hrun. pose proof (run_inv _ _ _ _ _ Hrun) as HI.
  rewrite <-(length_fmap state (nodes s)). apply submseteq_length.
  apply NoDup_submseteq; [by eapply run_states_distinct|].
  intros x (n & -> & (r & Hr)%list_elem_of_lookup_1)%list_elem_of_fmap.
  rewrite <-(deref_lookup _ _ _ Hr).
  eapply Hall, (node_plan JF env heuristic st); [done|]. by eapply lookup_lt_Some.
Qed.

Lemma loop_terminates (universe : list State) (n : nat) (s : Locals) :
  (∀ acts rew x, plan JF env st acts rew x → x ∈ universe) →
  run JF env heuristic (AStar_start JF st) s →
  (potential (length universe) s < n)%nat →
  ∃ res, AStar_loop JF env heuristic n s = Some res.
Proof.
  intros Hall. revert s. induction n as [|n IH]; intros s Hrun Hpot; [lia|].
  cbn [AStar_loop]. destruct (frontier s) as [|r0 fr] eqn:Hfr; [by eexists|].
  pose proof (run_inv _ _ _ _ _ Hrun) as HI.
  destruct (iteration JF env heuristic s) as [[s'|res]|] eqn:Hstep.
  - apply IH; [by eapply run_round|].
    assert (potential (length universe) s' < potential (length universe) s)%nat;
      [|lia].
    apply round_potential; [done|done|].
    apply store_bounded; [done|]. by eapply run_round.
  - by eexists.
  - unfold iteration in Hstep.
    destruct (heappop _ _) as [[r rest]|] eqn:Hpop; [done|].
    apply heappop_None in Hpop. congruence.
Qed.
End termination_facts.

(** X8: when the states that action sequences reach from the initial state
    are finitely many, all in the list [universe], [AStar] returns, after
    at most three rounds for every state of the list. *)
Theorem AStar_terminates (JF : Features) (env : Simulation)
    (heuristic : State → Qc) (st : State) (universe : list State) :
  (∀ acts rew s, plan JF env st acts rew s → s ∈ universe) →
  ∃ res, AStar JF env heuristic (3 * length universe) st = Some res.
Proof.
  intros Hall. apply (loop_terminates JF env heuristic st universe); [done|apply run_here|].
  assert (st ∈ universe) as Hst by (eapply Hall, plan_nil).
  destruct universe as [|x universe]; [by apply elem_of_nil in Hst|].
  unfold potential. cbn [AStar_start nodes frontier length].
  change (heappush _ [] 0%nat) with [0%nat]. rewrite sum_list_with_cons.
  pose proof (pops_left_bounds [Node_init (total_value JF st) None st 0 false] 0).
  cbn [sum_list_with]. lia.
Qed.

(** A list of states that holds the initial state and is closed under the
    selectable actions holds every state that an action sequence reaches. *)
Lemma plan_universe (JF : Features) (env : Simulation) (universe : list State)
    (s s' : State) (acts : list (nat * nat)) (rew : Qc) :
  (∀ x a, x ∈ universe → a ∈ selectable_pairs JF x →
          (update_state env a x).1.1 ∈ universe) →
  s ∈ universe → plan JF env s acts rew s' → s' ∈ universe.
Proof.
  intros Hclosed Hs Hplan.
  induction Hplan as [s|s act s1 r1 t1 acts rew s' Hact Hupd _ IH]; [done|].
  apply IH. specialize (Hclosed s act Hs Hact). by rewrite Hupd in Hclosed.
Qed.

Lemma AStar_terminates_witness :
  ∃ res, AStar sample_features sample_env default_heuristic 6 (single 1) = Some res.
Proof.
  apply (AStar_terminates sample_features sample_env default_heuristic (single 1)
           [single 1; after (0, 0)%nat (single 1)]).
  intros acts rew s.
  apply plan_universe; [|by left].
  intros x a [->|[->|[]%elem_of_nil]%elem_of_cons]%elem_of_cons Ha.
  - vm_compute in Ha. apply list_elem_of_singleton in Ha as ->. right. by left.
  - vm_compute in Ha. by apply elem_of_nil in Ha.
Defined.

(** ** More on the estimator *)


Lemma engagements_le_value (slots : nat) (p v : Qc) :
  0 ≤ v → 0 ≤ p → p ≤ 1 → engagements slots p v ≤ v.
Proof.
  intros Hv Hp0 Hp1. revert v Hv.
  induction slots as [|slots IH]; intros v Hv; cbn [engagements]; [done|].
  apply Qcle_trans with (v * p + (v - v * p)).
  - apply Qcplus_le_compat; [apply Qcle_refl|]. apply IH. by apply Qc_rest_nonneg.
  - replace (v * p + (v - v * p)) with v by ring. apply Qcle_refl.
Qed.

Lemma estimate_bounds (JF : Features) (s : State) (i : nat) (target : list Qc) :
  (∀ e, 0 ≤ opp_at s e i (OpportunityFeatures_PSUCCESS JF)
        ∧ opp_at s e i (OpportunityFeatures_PSUCCESS JF) ≤ 1) →
  0 ≤ feat (TaskFeatures_VALUE JF) target →
  0 ≤ estimate JF s i target
  ∧ estimate JF s i target ≤ feat (TaskFeatures_VALUE JF) target.
Proof.
  intros Hp Hv. unfold estimate.
  case_decide; [split; [apply Qcle_refl|done]|].
  case_decide; [split; [apply Qcle_refl|done]|].
  destruct (best_probability_at JF s i) as [e' ->]. destruct (Hp e') as [Hp0 Hp1].
  split; [by apply engagements_nonneg|by apply engagements_le_value].
Qed.

Lemma sum_imap_bounds {A : Type} (c : nat → A → Qc) (v : A → Qc) (l : list A) :
  (∀ i x, l !! i = Some x → 0 ≤ c i x ∧ c i x ≤ v x) →
  0 ≤ sum (imap c l) ∧ sum (imap c l) ≤ sum (v <$> l).
Proof.
  revert c. induction l as [|x l IH]; intros c Hc.
  { split; apply Qcle_refl. }
  rewrite imap_cons, fmap_cons, !sum_cons.
  destruct (Hc 0%nat x eq_refl) as [H0 Hv].
  destruct (IH (c ∘ S)) as [IH0 IHv].
  { intros i y Hy. by apply (Hc (S i)). }
  split.
  - replace 0 with (0 + 0) by ring. by apply Qcplus_le_compat.
  - by apply Qcplus_le_compat.
Qed.

(** X12: on a state whose values are not negative and whose success
    probabilities lie between 0 and 1 (flags 0 or 1, selected fractions in
    half steps), the estimate of [astar_heuristic] is not negative and does
    not exceed the sum of the values of the targets. *)
Theorem astar_heuristic_bounds (JF : Features) (sel : list Qc → nat) (s : State) :
  selects_largest sel → boolean_flags JF s → half_steps JF s →
  (∀ e t, 0 ≤ opp_at s e t (OpportunityFeatures_PSUCCESS JF)
          ∧ opp_at s e t (OpportunityFeatures_PSUCCESS JF) ≤ 1) →
  (∀ target, target ∈ Targets s → 0 ≤ feat (TaskFeatures_VALUE JF) target) →
  0 ≤ astar_heuristic JF sel s ∧ astar_heuristic JF sel s ≤ total_value JF s.
Proof.
  intros Hsel Hflags Hhalf Hp Hv.
  rewrite astar_heuristic_estimates by done. unfold total_value.
  apply sum_imap_bounds. intros i x Hx. apply estimate_bounds; [by intros e|].
  apply Hv. by eapply list_elem_of_lookup_2.
Qed.

Lemma astar_heuristic_bounds_witness :
  0 ≤ astar_heuristic sample_features argmax_last crossed
  ∧ astar_heuristic sample_features argmax_last crossed
    ≤ total_value sample_features crossed.
Proof.
  apply astar_heuristic_bounds.
  - apply argmax_last_largest.
  - apply crossed_boolean_flags.
  - apply crossed_half_steps.
  - apply (wf_probability crossed crossed_wf).
  - apply (wf_value crossed crossed_wf).
Defined.

Lemma sum_imap_zero {A : Type} (c : nat → A → Qc) (l : list A) :
  (∀ i x, l !! i = Some x → c i x = 0) → sum (imap c l) = 0.
Proof.
  revert c. induction l as [|x l IH]; intros c Hc; [done|].
  rewrite imap_cons, sum_cons, (Hc 0%nat x eq_refl), IH; [ring|].
  intros i y Hy. by apply (Hc (S i)).
Qed.

Lemma complete_estimate (JF : Features) (sel : list Qc → nat) (s : State) :
  selects_largest sel → boolean_flags JF s → half_steps JF s →
  complete JF s → astar_heuristic JF sel s = 0.
Proof.
  intros Hsel Hflags Hhalf Hdone.
  rewrite astar_heuristic_estimates by done.
  apply sum_imap_zero. intros i x _. unfold estimate.
  case_decide; [done|]. rewrite decide_True; [done|].
  destruct (decide (selectable_count JF s i = 0%nat)) as [|Hpos]; [done|].
  apply selectable_count_pos in Hpos as (e & He).
  by destruct (proj1 (complete_flags JF s) Hdone e i).
Qed.

(** X13: on a state in which no opportunity is selectable (flags 0 or 1,
    selected fractions in half steps), [astar_heuristic] estimates zero. *)
Theorem no_opportunity_no_estimate (JF : Features) (sel : list Qc → nat)
    (s : State) :
  selects_largest sel → boolean_flags JF s → half_steps JF s →
  selectable_pairs JF s = [] → astar_heuristic JF sel s = 0.
Proof. apply complete_estimate. Qed.

Lemma no_opportunity_no_estimate_witness :
  astar_heuristic sample_features argmax_last (single 0) = 0.
Proof.
  apply no_opportunity_no_estimate.
  - apply argmax_last_largest.
  - intros [|e] [|t]; left; by apply Qc_is_canon.
  - intros target [->|[]%elem_of_nil]%elem_of_cons. left. by apply Qc_is_canon.
  - by vm_compute.
Defined.

(** X14: with [astar_heuristic] and a transition function that flags a step
    as terminal exactly when it leaves no opportunity selectable (over
    states with flags 0 or 1 and selected fractions in half steps), a
    terminal node is accepted the first time it is popped: the branch that
    sends a node back to the heap is never taken. *)
Theorem estimator_accepts_at_first_pop (JF : Features) (env : Simulation)
    (sel : list Qc → nat) (st : State) (s : Locals) (r : nat) (rest : list nat) :
  selects_largest sel → flags_terminal JF env st →
  (∀ acts rew x, plan JF env st acts rew x → boolean_flags JF x ∧ half_steps JF x) →
  run JF env (astar_heuristic JF sel) (AStar_start JF st) s →
  heappop (ref_lt (nodes s)) (frontier s) = Some (r, rest) →
  terminal (deref (nodes s) r) = true →
  iteration JF env (astar_heuristic JF sel) s
  = Some (Return {| res_solution := steps (Solution (length (nodes s)) (nodes s) r);
                    res_g := Some (g (deref (nodes s) r));
                    res_expansions := S (expansions s);
                    res_branchFactor := branchFactor s |}).
Proof.
  intros Hsel Hflags Hdata Hrun Hpop Hterm.
  pose proof (run_inv _ _ _ _ _ Hrun) as HI.
  pose proof (heappop_items _ _ _ _ Hpop) as Hperm.
  assert (r < length (nodes s))%nat as Hrlt.
  { eapply inv_refs; [done|]. apply elem_of_app. left. rewrite <-Hperm. by left. }
  assert (r ≠ 0%nat) as Hr0.
  { intros ->. destruct (inv_root _ _ _ _ _ _ HI) as (n0 & Hn0 & Hroot).
    rewrite (deref_lookup _ _ _ Hn0) in Hterm.
    destruct Hroot as (_ & _ & _ & _ & Hroot & _). congruence. }
  destruct (inv_child _ _ _ _ _ _ HI r _ (lookup_deref _ _ Hrlt) Hr0)
    as (p & a & Hp & _ & Hplt & _ & Hsel_a & Hupd & Hg).
  apply (settled_accepted JF env _ st s r p rest HI Hpop Hp Hterm).
  destruct Hg as [Hg|[Hg _]]; [|done].
  assert (complete JF (state (deref (nodes s) r))) as Hdone.
  { eapply Hflags; [|done|done|done]. eapply node_plan; [done|lia]. }
  destruct (Hdata _ _ _ (node_plan JF env _ st _ s r HI Hrlt)) as [Hb Hh].
  rewrite Hg, (complete_estimate JF sel _ Hsel Hb Hh Hdone). ring.
Qed.

Lemma estimator_accepts_at_first_pop_witness :
  let JF := sample_features in
  let s := rounds JF sample_env default_heuristic 1 (AStar_start JF (single 1)) in
  iteration JF sample_env default_heuristic s
  = Some (Return {| res_solution := steps (Solution (length (nodes s)) (nodes s) 1);
                    res_g := Some (g (deref (nodes s) 1));
                    res_expansions := S (expansions s);
                    res_branchFactor := branchFactor s |}).
Proof.
  intros JF s.
  refine (estimator_accepts_at_first_pop JF sample_env argmax_last (single 1) s 1 []
            argmax_last_largest (sample_flags_terminal _) _ _ _ _).
  - intros acts rew x Hplan.
    assert (sample_wf x) as Hwf.
    { eapply plan_wf; [exact Hplan|]. split.
      - intros [|e] [|t]; by vm_compute.
      - intros [|e] [|t]; (by left; apply Qc_is_canon) || (by right; apply Qc_is_canon).
      - intros target [->|[]%elem_of_nil]%elem_of_cons. left. by apply Qc_is_canon.
      - intros target [->|[]%elem_of_nil]%elem_of_cons. simpl. lia.
      - intros target [->|[]%elem_of_nil]%elem_of_cons. by vm_compute.
      - intros [|t] target e Htarget; [|done]. injection Htarget as <-.
        intros Hfull. vm_compute in Hfull. discriminate. }
    split; [apply (wf_flags x Hwf)|apply (wf_half x Hwf)].
  - apply rounds_run.
  - vm_compute. reflexivity.
  - vm_compute. reflexivity.
Defined.

(** ** heapq on its own *)

(** X15: [heapq.heappush] on a heap gives a heap that holds the new item
    and the old ones, each as often as before. *)
Theorem heappush_heap {A : Type} (key : A → Qc) (heap : list A) (item : A) :
  heap_ordered key heap →
  heap_ordered key (heappush (key_lt key) heap item)
  ∧ heappush (key_lt key) heap item ≡ₚ item :: heap.
Proof.
  intros Hheap. split; [by apply heappush_ordered|apply heappush_items].
Qed.

Lemma heappush_heap_witness :
  heap_ordered id (heappush (key_lt id) [frac 1 1; frac 3 1] (frac 2 1))
  ∧ heappush (key_lt id) [frac 1 1; frac 3 1] (frac 2 1)
    ≡ₚ [frac 2 1; frac 1 1; frac 3 1].
Proof.
  apply (heappush_heap id [frac 1 1; frac 3 1] (frac 2 1)).
  intros i Hi x y Hx Hy. destruct i as [|[|i]]; [lia| |done].
  vm_compute in Hx, Hy. injection Hx as <-. injection Hy as <-. by vm_compute.
Defined.

(** X16: [heapq.heappop] on a heap that is not empty returns an item of
    least key and leaves a heap with the other items; on the empty list
    there is nothing to pop. *)
Theorem heappop_least {A : Type} (key : A → Qc) (heap : list A) :
  heap_ordered key heap →
  match heappop (key_lt key) heap with
  | Some (x, rest) =>
      x :: rest ≡ₚ heap ∧ heap_ordered key rest ∧ ∀ y, y ∈ heap → key x ≤ key y
  | None => heap = []
  end.
Proof.
  intros Hheap.
  destruct (heappop (key_lt key) heap) as [[x rest]|] eqn:Hpop.
  - pose proof (heappop_items _ _ _ _ Hpop) as Hperm.
    destruct (heappop_ordered key _ _ _ Hheap Hpop) as [Hrest Hleast].
    split_and!; [done|done|]. intros y Hy. rewrite <-Hperm in Hy.
    apply elem_of_cons in Hy as [->|Hy]; [apply Qcle_refl|by apply Hleast].
  - by apply heappop_None in Hpop.
Qed.

Lemma heappop_least_witness :
  match heappop (key_lt id) [frac 1 1; frac 3 1; frac 2 1] with
  | Some (x, rest) =>
      x :: rest ≡ₚ [frac 1 1; frac 3 1; frac 2 1] ∧ heap_ordered id rest
      ∧ ∀ y, y ∈ [frac 1 1; frac 3 1; frac 2 1] → id x ≤ id y
  | None => [frac 1 1; frac 3 1; frac 2 1] = []
  end.
Proof.
  apply (heappop_least id [frac 1 1; frac 3 1; frac 2 1]).
  intros i Hi x y Hx Hy. destruct i as [|[|[|i]]]; [lia| | |done];
    vm_compute in Hx, Hy; injection Hx as <-; injection Hy as <-; by vm_compute.
Defined.

(** ** The two counters that are returned *)

(** Every pop that goes on either closes the popped node or sends back a
    terminal node that had not been sent back before. *)
Lemma run_expansions (JF : Features) (env : Simulation) (heuristic : State → Qc)
    (st : State) (s : Locals) :
  run JF env heuristic (AStar_start JF st) s →
  (length (explored s) ≤ expansions s)%nat
  ∧ (expansions s
     ≤ length (explored s)
       + sum_list_with (λ r, 2 - pops_left (nodes s) r) (frontier s))%nat.
Proof.
  revert s. apply run_keeps.
  - simpl. lia.
  - intros s r rest HI Hperm Hterm Hg [Hlow Hhigh] ns1. simpl.
    split; [lia|]. rewrite heappush_items, sum_list_with_cons.
    pose proof (frontier_NoDup _ _ _ _ _ _ HI) as Hnd. rewrite <-Hperm in Hnd.
    apply NoDup_cons_1_1 in Hnd as Hrrest.
    assert (r < length (nodes s))%nat as Hrlt.
    { eapply inv_refs; [done|]. apply elem_of_app. left. rewrite <-Hperm. by left. }
    rewrite <-Hperm, sum_list_with_cons in Hhigh.
    assert (pops_left (nodes s) r = 2%nat) as Hr2.
    { unfold pops_left, settled. rewrite Hterm. simpl.
      by rewrite bool_decide_eq_false_2. }
    rewrite (sum_list_with_ext _ (λ q, 2 - pops_left (nodes s) q)%nat rest).
    + assert (pops_left ns1 r = 1%nat) as ->; [|lia].
      unfold pops_left, settled, ns1. rewrite deref_insert_eq by done. simpl.
      rewrite Hterm. simpl. rewrite bool_decide_eq_true_2; [done|].
      unfold corrected. rewrite deref_insert_eq by done. simpl.
      destruct (parent (deref (nodes s) r)) as [p|] eqn:Hp; [|done].
      destruct (inv_parent_lt _ _ _ _ _ _ _ _ HI Hp) as (Hlt & _).
      rewrite deref_insert_ne by lia. done.
    + intros q Hq. f_equal. assert (q ≠ r) as Hqr by (by intros ->).
      apply pops_left_ext; [by apply deref_insert_ne|].
      intros p Hp. apply deref_insert_ne.
      destruct (inv_parent_lt _ _ _ _ _ _ _ _ HI Hp) as (_ & _ & _ & Hpe).
      destruct (popped_fresh _ _ _ _ _ _ _ _ HI Hperm) as [Hrex _].
      by intros ->.
  - intros s r rest HI Hperm Hterm [Hlow Hhigh]. simpl.
    rewrite length_app. simpl. split; [lia|].
    pose proof (frontier_NoDup _ _ _ _ _ _ HI) as Hnd. rewrite <-Hperm in Hnd.
    apply NoDup_cons_1_1 in Hnd as Hrrest.
    rewrite <-Hperm, sum_list_with_cons in Hhigh.
    assert (pops_left (nodes s) r = 2%nat) as Hr2.
    { unfold pops_left, settled. by rewrite Hterm. }
    rewrite (sum_list_with_ext _ (λ q, 2 - pops_left (nodes s) q)%nat rest); [lia|].
    intros q Hq. f_equal. assert (q ≠ r) as Hqr by (by intros ->).
    apply pops_left_ext; [by apply deref_insert_ne|].
    intros p Hp. apply deref_insert_ne.
    destruct (inv_parent_lt _ _ _ _ _ _ _ _ HI Hp) as (_ & _ & _ & Hpe).
    destruct (popped_fresh _ _ _ _ _ _ _ _ HI Hperm) as [Hrex _].
    by intros ->.
  - intros covered s r a HI Hr Ha [Hlow Hhigh]. unfold expand_round.
    destruct (negb _ && negb _); [|done].
    cbn [nodes frontier explored expansions]. split; [done|].
    rewrite heappush_items, sum_list_with_cons.
    rewrite (sum_list_with_ext _ (λ q, 2 - pops_left (nodes s) q)%nat (frontier s));
      [lia|].
    intros q Hq. f_equal.
    assert (q < length (nodes s))%nat as Hqlt.
    { eapply inv_refs; [done|]. apply elem_of_app. by left. }
    apply pops_left_ext; [by apply deref_app_old|].
    intros p Hp. apply deref_app_old.
    destruct (inv_parent_lt _ _ _ _ _ _ _ _ HI Hp) as (Hlt & _). lia.
Qed.

Lemma sum_list_with_le {A : Type} (f : A → nat) (c : nat) (l : list A) :
  (∀ x, x ∈ l → (f x ≤ c)%nat) → (sum_list_with f l ≤ c * length l)%nat.
Proof.
  induction l as [|x l IH]; intros Hl; simpl; [lia|].
  pose proof (Hl x ltac:(by left)).
  assert (sum_list_with f l ≤ c * length l)%nat.
  { apply IH. intros y Hy. apply Hl. by right. }
  lia.
Qed.

(** X10: the two counters that [AStar] returns are tied to each other:
    the expansion count never exceeds the branch factor by more than two,
    and when the search reports failure it is the branch factor plus one,
    every stored node having been popped exactly once. *)
Theorem returned_counters (JF : Features) (env : Simulation)
    (heuristic : State → Qc) (st : State) (fuel : nat) (res : Result) :
  AStar JF env heuristic fuel st = Some res →
  (res_expansions res ≤ res_branchFactor res + 2)%nat
  ∧ (res_solution res = failed →
     res_expansions res = S (res_branchFactor res)).
Proof.
  intros Hres.
  apply AStar_loop_returns in Hres as (s & Hrun & Hcase).
  pose proof (run_inv _ _ _ _ _ Hrun) as HI.
  destruct (run_accounted _ _ _ _ _ Hrun) as [Hacc Hlen].
  destruct (run_expansions _ _ _ _ _ Hrun) as [Hlow Hhigh].
  apply Permutation_length in Hacc. rewrite length_app, length_seq in Hacc.
  assert (sum_list_with (λ r, 2 - pops_left (nodes s) r) (frontier s)
          ≤ 1 * length (frontier s))%nat as Hsum.
  { apply sum_list_with_le. intros r _.
    pose proof (pops_left_bounds (nodes s) r). lia. }
  destruct Hcase as [[Hempty ->]|Hret]; simpl.
  - rewrite Hempty in *. simpl in *. lia.
  - destruct (round_returns JF env heuristic st s res HI Hret)
      as (n & rest & p & _ & _ & _ & _ & ->). simpl. split; [lia|done].
Qed.

Lemma returned_counters_witness :
  ∃ res,
    AStar sample_features sample_env default_heuristic 6 crossed = Some res
    ∧ (res_expansions res ≤ res_branchFactor res + 2)%nat
    ∧ (res_solution res = failed → res_expansions res = S (res_branchFactor res)).
Proof.
  destruct (AStar sample_features sample_env default_heuristic 6 crossed)
    as [res|] eqn:Hres; [|by vm_compute in Hres].
  exists res. split; [reflexivity|].
  exact (returned_counters sample_features sample_env default_heuristic crossed 6
           res Hres).
Defined.

(** * The rows of the batch tooling *)

Lemma pairs_length {A B : Type} (a b : nat → A → B) (l : list A) :
  length (mjoin (imap (λ k x, [a k x; b k x]) l)) = (2 * length l)%nat.
Proof.
  revert a b. induction l as [|y l IH]; intros a b; [done|].
  rewrite imap_cons. cbn [mjoin list_join]. rewrite length_app.
  etrans; [apply f_equal, (IH (a ∘ S) (b ∘ S))|]. simpl. lia.
Qed.

Lemma pairs_lookup {A B : Type} (a b : nat → A → B) (l : list A) (k : nat) (x : A) :
  l !! k = Some x →
  mjoin (imap (λ k x, [a k x; b k x]) l) !! (2 * k)%nat = Some (a k x)
  ∧ mjoin (imap (λ k x, [a k x; b k x]) l) !! S (2 * k) = Some (b k x).
Proof.
  revert a b k. induction l as [|y l IH]; intros a b k Hk; [done|].
  rewrite imap_cons. cbn [mjoin list_join].
  destruct k as [|k].
  { injection Hk as <-. done. }
  replace (2 * S k)%nat with (S (S (2 * k))) by lia.
  apply (IH (a ∘ S) (b ∘ S) k) in Hk. exact Hk.
Qed.

Lemma framed_pairs_lookup {A B : Type} (x0 x1 z : B) (a b : nat → A → B)
    (l : list A) (k : nat) (x : A) :
  l !! k = Some x →
  (([x0; x1] ++ mjoin (imap (λ k x, [a k x; b k x]) l)) ++ [z]) !! (2 + 2 * k)%nat
  = Some (a k x)
  ∧ (([x0; x1] ++ mjoin (imap (λ k x, [a k x; b k x]) l)) ++ [z]) !! (3 + 2 * k)%nat
    = Some (b k x).
Proof.
  intros Hk. destruct (pairs_lookup a b l k x Hk) as [Ha Hb].
  assert (2 * k < 2 * length l)%nat as Hlt.
  { apply lookup_lt_Some in Hk. lia. }
  split.
  - rewrite lookup_app_l by (rewrite length_app, pairs_length; simpl; lia).
    rewrite lookup_app_r by (simpl; lia). cbn [length].
    by replace (2 + 2 * k - 2)%nat with (2 * k)%nat by lia.
  - rewrite lookup_app_l by (rewrite length_app, pairs_length; simpl; lia).
    rewrite lookup_app_r by (simpl; lia). cbn [length].
    by replace (3 + 2 * k - 2)%nat with (S (2 * k)) by lia.
Qed.

Section rows_facts.
Context {Sol : Type} (JF : Features).

Lemma selected_cons_true (solver : solver_entry Sol) (solvers : list (solver_entry Sol)) :
  solver_solve solver = true →
  selected_solvers (solver :: solvers) = solver :: selected_solvers solvers.
Proof. intros Hsolve. unfold selected_solvers. by rewrite filter_cons, decide_True. Qed.

Lemma selected_cons_false (solver : solver_entry Sol) (solvers : list (solver_entry Sol)) :
  solver_solve solver = false →
  selected_solvers (solver :: solvers) = selected_solvers solvers.
Proof.
  intros Hsolve. unfold selected_solvers.
  by rewrite filter_cons, decide_False by (by rewrite Hsolve).
Qed.

(** The header loop in closed form. *)
Lemma solver_header_rounds (solvers : list (solver_entry Sol))
    (csv_row : list (cell Sol)) :
  foldl solver_header_round csv_row solvers
  = csv_row ++ mjoin (imap (λ _ solver,
                              [Text (solver_name solver);
                               Text (solver_name solver +:+ " runtime")])
                           (selected_solvers solvers)).
Proof.
  revert csv_row. induction solvers as [|solver solvers IH]; intros csv_row.
  { simpl. by rewrite (right_id [] (++)). }
  cbn [foldl]. rewrite IH. unfold solver_header_round.
  destruct (solver_solve solver) eqn:Hsolve.
  - rewrite selected_cons_true by done. rewrite imap_cons. cbn [mjoin list_join].
    rewrite last_snoc. cbn [default cell_text].
    rewrite <-!(assoc (++)). f_equal.
  - by rewrite selected_cons_false.
Qed.

(** The loop over the solvers in closed form: the [k]-th selected solver
    reads the clock for the [2 k]-th and the [2 k + 1]-st time. *)
Lemma solver_row_rounds (simProblem : State) (R : Qc) (time : nat → Qc)
    (solvers : list (solver_entry Sol)) (csv_row : list (cell Sol))
    (solution : option Sol) (tick : nat) :
  foldl (solver_row_round simProblem R time) (csv_row, solution, tick) solvers
  = (csv_row
     ++ mjoin (imap (λ k solver,
                       [Number (R - (solver_function solver simProblem).1);
                        Number (time (tick + 2 * k)%nat
                                - time (S (tick + 2 * k)))])
                    (selected_solvers solvers)),
     from_option (λ solver, Some (solver_function solver simProblem).2) solution
                 (last (selected_solvers solvers)),
     (tick + 2 * length (selected_solvers solvers))%nat).
Proof.
  revert csv_row solution tick.
  induction solvers as [|solver solvers IH]; intros csv_row solution tick.
  { simpl. by rewrite (right_id [] (++)), Nat.add_0_r. }
  cbn [foldl]. unfold solver_row_round at 2.
  destruct (solver_solve solver) eqn:Hsolve.
  - rewrite selected_cons_true by done.
    destruct (solver_function solver simProblem) as [g solution'] eqn:Hf.
    rewrite IH. rewrite imap_cons. cbn [mjoin list_join length].
    rewrite Hf. cbn [fst snd]. f_equal; [f_equal|lia].
    + rewrite <-!(assoc (++)). f_equal. cbn [app].
      rewrite Nat.add_0_r. do 3 f_equal.
      apply imap_ext. intros k s _. cbn [compose].
      by replace (S (S tick) + 2 * k)%nat with (tick + 2 * S k)%nat by lia.
    + destruct (selected_solvers solvers) as [|s l] eqn:Hsel.
      * simpl. by rewrite Hf.
      * rewrite last_cons_cons. destruct (last (s :: l)) eqn:Hlast; [done|].
        by apply last_None in Hlast.
  - rewrite selected_cons_false by done. apply IH.
Qed.
End rows_facts.

(** The row of a problem in closed form. *)
Lemma solver_row_closed {Sol : Type} (JF : Features)
    (solvers : list (solver_entry Sol)) (filename : string)
    (simProblem : State) (time : nat → Qc) (tick : nat) (final : solver_entry Sol) :
  last (selected_solvers solvers) = Some final →
  solver_row JF solvers filename simProblem time tick
  = (Some (([Text filename; Number (total_value JF simProblem)]
            ++ mjoin (imap (λ k solver,
                 [Number (total_value JF simProblem
                          - (solver_function solver simProblem).1);
                  Number (time (tick + 2 * k)%nat - time (S (tick + 2 * k)))])
                 (selected_solvers solvers)))
           ++ [Answer (solver_function final simProblem).2]),
     (tick + 2 * length (selected_solvers solvers))%nat).
Proof.
  intros Hlast. unfold solver_row. rewrite solver_row_rounds, Hlast. done.
Qed.

Lemma solver_header_closed {Sol : Type} (solvers : list (solver_entry Sol)) :
  solver_header solvers
  = ([Text "filename"; Text "total reward"]
     ++ mjoin (imap (λ _ solver,
                       [Text (solver_name solver);
                        Text (solver_name solver +:+ " runtime")])
                    (selected_solvers solvers)))
    ++ [Text "solution"].
Proof. unfold solver_header. by rewrite solver_header_rounds. Qed.

(** X17: when at least one solver is selected, [solver] builds for every
    problem a row with as many cells as the header, three and two for
    every selected solver; the two cells of a selected solver stand under
    its name and under its name followed by " runtime", the first holding
    the total value minus what the solver returned; and the last cell is
    the solution that the last selected solver returned. *)
Theorem solver_columns_line_up {Sol : Type} (JF : Features)
    (solvers : list (solver_entry Sol))
    (filename : string) (simProblem : State) (time : nat → Qc) (tick : nat) :
  selected_solvers solvers ≠ [] →
  ∃ row,
    (solver_row JF solvers filename simProblem time tick).1 = Some row
    ∧ length row = length (solver_header solvers)
    ∧ length row = (3 + 2 * length (selected_solvers solvers))%nat
    ∧ (∀ k solver, selected_solvers solvers !! k = Some solver →
         solver_header solvers !! (2 + 2 * k)%nat = Some (Text (solver_name solver))
         ∧ row !! (2 + 2 * k)%nat
           = Some (Number (total_value JF simProblem
                           - (solver_function solver simProblem).1))
         ∧ solver_header solvers !! (3 + 2 * k)%nat
           = Some (Text (solver_name solver +:+ " runtime"))
         ∧ ∃ total_time, row !! (3 + 2 * k)%nat = Some (Number total_time))
    ∧ ∃ final, last (selected_solvers solvers) = Some final
               ∧ last row = Some (Answer (solver_function final simProblem).2).
Proof.
  intros Hsome.
  destruct (last (selected_solvers solvers)) as [final|] eqn:Hlast; last first.
  { by apply last_None in Hlast. }
  rewrite (solver_row_closed JF solvers filename simProblem time tick final Hlast).
  rewrite solver_header_closed. eexists. split; [done|].
  rewrite !length_app, !pairs_length. cbn [length].
  split_and!; [done|lia| |].
  - intros k solver Hk.
    destruct (framed_pairs_lookup (Text "filename") (Text "total reward")
                (Text "solution")
                (λ _ s, Text (Sol := Sol) (solver_name s))
                (λ _ s, Text (solver_name s +:+ " runtime"))
                _ k solver Hk) as [Hname Hruntime].
    destruct (framed_pairs_lookup (Text filename)
                (Number (total_value JF simProblem))
                (Answer (solver_function final simProblem).2)
                (λ _ s, Number (Sol := Sol)
                          (total_value JF simProblem - (solver_function s simProblem).1))
                (λ k s, Number (time (tick + 2 * k)%nat - time (S (tick + 2 * k))))
                _ k solver Hk) as [Hreward Htime].
    split_and!; [exact Hname|exact Hreward|exact Hruntime|].
    eexists. exact Htime.
  - exists final. split; [done|]. by rewrite last_snoc.
Qed.

(** X18: [solver] records as the runtime of a solver the clock reading
    before the call minus the reading after it: with a clock that does not
    run backwards the runtime cell of every selected solver holds a number
    that is not positive. *)
Theorem solver_runtime_not_positive {Sol : Type} (JF : Features)
    (solvers : list (solver_entry Sol))
    (filename : string) (simProblem : State) (time : nat → Qc) (tick k : nat)
    (solver : solver_entry Sol) (row : list (cell Sol)) :
  (∀ n, time n ≤ time (S n)) →
  (solver_row JF solvers filename simProblem time tick).1 = Some row →
  selected_solvers solvers !! k = Some solver →
  ∃ total_time,
    row !! (3 + 2 * k)%nat = Some (Number total_time)
    ∧ total_time = time (tick + 2 * k)%nat - time (S (tick + 2 * k))
    ∧ total_time ≤ 0.
Proof.
  intros Hclock Hrow Hk.
  destruct (last (selected_solvers solvers)) as [final|] eqn:Hlast; last first.
  { apply last_None in Hlast. by rewrite Hlast in Hk. }
  rewrite (solver_row_closed JF solvers filename simProblem time tick final Hlast)
    in Hrow.
  injection Hrow as <-. eexists. split_and!; [|done|].
  - by destruct (framed_pairs_lookup (Text filename)
                (Number (total_value JF simProblem))
                (Answer (solver_function final simProblem).2)
                (λ _ s, Number (Sol := Sol)
                          (total_value JF simProblem - (solver_function s simProblem).1))
                (λ k s, Number (time (tick + 2 * k)%nat - time (S (tick + 2 * k))))
                _ k solver Hk) as [_ Htime].
  - apply Qc_le_sub.
    replace (0 - (time (tick + 2 * k)%nat - time (S (tick + 2 * k))))
      with (time (S (tick + 2 * k)) - time (tick + 2 * k)%nat) by ring.
    apply Qc_sub_nonneg, Hclock.
Qed.

Lemma solver_columns_line_up_witness :
  ∃ row,
    (solver_row sample_features sample_solvers "00000.json" (single 1)
                sample_clock 0).1 = Some row
    ∧ length row = length (solver_header sample_solvers)
    ∧ length row = (3 + 2 * length (selected_solvers sample_solvers))%nat
    ∧ (∀ k solver, selected_solvers sample_solvers !! k = Some solver →
         solver_header sample_solvers !! (2 + 2 * k)%nat
         = Some (Text (solver_name solver))
         ∧ row !! (2 + 2 * k)%nat
           = Some (Number (total_value sample_features (single 1)
                           - (solver_function solver (single 1)).1))
         ∧ solver_header sample_solvers !! (3 + 2 * k)%nat
           = Some (Text (solver_name solver +:+ " runtime"))
         ∧ ∃ total_time, row !! (3 + 2 * k)%nat = Some (Number total_time))
    ∧ ∃ final, last (selected_solvers sample_solvers) = Some final
               ∧ last row = Some (Answer (solver_function final (single 1)).2).
Proof. by apply solver_columns_line_up. Defined.

Lemma solver_runtime_not_positive_witness :
  ∃ total_time,
    default [] (solver_row sample_features sample_solvers "00000.json" (single 1)
                           sample_clock 0).1 !! 5%nat
    = Some (Number total_time)
    ∧ total_time = sample_clock 2 - sample_clock 3
    ∧ total_time ≤ 0.
Proof.
  refine (solver_runtime_not_positive sample_features sample_solvers "00000.json"
            (single 1) sample_clock 0 1 _ _ _ _ _).
  - intros n. unfold sample_clock. apply (proj1 (Z2Qc_inj_le _ _)). lia.
  - vm_compute. reflexivity.
  - vm_compute. reflexivity.
Defined.

Lemma sum_zeros (l : list Qc) : (∀ x, x ∈ l → x = 0) → sum l = 0.
Proof.
  induction l as [|x l IH]; intros Hl; [done|].
  rewrite sum_cons, (Hl x) by (by left). rewrite IH; [ring|].
  intros y Hy. apply Hl. by right.
Qed.

Lemma selectable_opportunities_none (JF : Features) (simProblem : State) :
  boolean_flags JF simProblem → selectable_pairs JF simProblem = [] →
  selectable_opportunities JF simProblem = 0.
Proof.
  intros Hflags Hnone. apply sum_zeros.
  intros x (l & Hx & (row & -> & (e & Hrow)%list_elem_of_lookup_1)%list_elem_of_fmap)%list_elem_of_join.
  apply list_elem_of_fmap in Hx as (opp & -> & (t & Hopp)%list_elem_of_lookup_1).
  rewrite <-(opp_at_inside simProblem e t _ row opp Hrow Hopp).
  destruct (Hflags e t) as [H0|H1]; [done|].
  by destruct (proj1 (complete_flags JF simProblem) Hnone e t).
Qed.

(** X19: the problem that [generate_dataset] saves is the first generated
    one whose selectable flags do not sum to less than one; the ones
    generated before it are dropped; with flags that are 0 or 1 it has a
    selectable opportunity. *)
Theorem generated_problem_usable (JF : Features) (generated : list State)
    (simProblem : State) :
  first_usable JF generated = Some simProblem →
  (∃ dropped later,
     generated = dropped ++ simProblem :: later
     ∧ ∀ p, p ∈ dropped → selectable_opportunities JF p < 1)
  ∧ ¬ selectable_opportunities JF simProblem < 1
  ∧ (boolean_flags JF simProblem → selectable_pairs JF simProblem ≠ []).
Proof.
  intros Hfirst.
  assert ((∃ dropped later,
             generated = dropped ++ simProblem :: later
             ∧ ∀ p, p ∈ dropped → selectable_opportunities JF p < 1)
          ∧ ¬ selectable_opportunities JF simProblem < 1) as [Hsplit Hsum].
  { induction generated as [|p generated IH]; [done|].
    cbn [first_usable] in Hfirst. case_decide as Hp.
    - destruct (IH Hfirst) as [(dropped & later & -> & Hdropped) Hsum].
      split; [|done]. exists (p :: dropped), later. split; [done|].
      intros q [->|Hq]%elem_of_cons; [done|by apply Hdropped].
    - injection Hfirst as ->. split; [|done]. exists [], generated.
      split; [done|]. by intros q Hq%elem_of_nil. }
  split_and!; [done|done|].
  intros Hflags Hnone. apply Hsum.
  by rewrite (selectable_opportunities_none JF simProblem Hflags Hnone).
Qed.

Lemma generated_problem_usable_witness :
  (∃ dropped later,
     [single 0; single 1; crossed] = dropped ++ single 1 :: later
     ∧ ∀ p, p ∈ dropped → selectable_opportunities sample_features p < 1)
  ∧ ¬ selectable_opportunities sample_features (single 1) < 1
  ∧ (boolean_flags sample_features (single 1)
     → selectable_pairs sample_features (single 1) ≠ []).
Proof.
  apply (generated_problem_usable sample_features [single 0; single 1; crossed]).
  vm_compute. reflexivity.
Defined.

(** * The names of the problem files *)

Lemma string_app_inv_head (s t1 t2 : string) : s +:+ t1 = s +:+ t2 → t1 = t2.
Proof. induction s as [|c s IH]; simpl; [done|]. intros [= H]. by apply IH. Qed.

Lemma string_app_length (s t : string) :
  String.length (s +:+ t) = (String.length s + String.length t)%nat.
Proof. induction s as [|c s IH]; simpl; [done|]. by rewrite IH. Qed.

Lemma string_app_inv_tail (s1 s2 t : string) : s1 +:+ t = s2 +:+ t → s1 = s2.
Proof.
  revert s2. induction s1 as [|c1 s1 IH]; intros [|c2 s2] Heq; simpl in Heq.
  - done.
  - apply (f_equal String.length) in Heq.
    rewrite !string_app_length in Heq. simpl in Heq. lia.
  - apply (f_equal String.length) in Heq.
    rewrite !string_app_length in Heq. simpl in Heq. lia.
  - injection Heq as -> Heq. f_equal. by apply IH.
Qed.

(** The decimal text of a positive number does not begin with a zero. *)
Lemma pretty_N_go_head (x : N) (s : string) :
  (0 < x)%N → ∃ c rest, pretty_N_go x s = String c rest ∧ c ≠ "0"%char.
Proof.
  revert s. induction (N.lt_wf_0 x) as [x _ IH]; intros s Hx.
  rewrite pretty_N_go_step by done.
  destruct (N.eq_0_gt_0_cases (x `div` 10)) as [Hdiv|Hdiv].
  - rewrite Hdiv, pretty_N_go_0. eexists _, _. split; [done|].
    assert (x < 10)%N as Hlt by (by apply N.div_small_iff).
    rewrite N.mod_small by done.
    intros Hzero. apply (pretty_N_char_inj x 0) in Hzero; lia.
  - apply IH; [|done]. by apply N.div_lt.
Qed.

Lemma pretty_nat_head (i : nat) :
  pretty i = "0" ∨ ∃ c rest, pretty i = String c rest ∧ c ≠ "0"%char.
Proof.
  unfold pretty, pretty_nat, pretty, pretty_N. case_decide; [by left|right].
  apply pretty_N_go_head. lia.
Qed.

Lemma zeros_before_inj (k1 k2 : nat) (i j : nat) :
  zeros_before k1 (pretty i) = zeros_before k2 (pretty j) → i = j.
Proof.
  revert k2. induction k1 as [|k1 IH]; intros [|k2] Heq; simpl in Heq.
  - by apply (inj pretty).
  - destruct (pretty_nat_head i) as [Hi|(c & rest & Hi & Hc)];
      rewrite Hi in Heq; [|congruence].
    injection Heq as Heq. destruct k2; simpl in Heq; [|done].
    destruct (pretty_nat_head j) as [Hj|(c & rest & Hj & _)];
      by rewrite Hj in Heq.
  - destruct (pretty_nat_head j) as [Hj|(c & rest & Hj & Hc)];
      rewrite Hj in Heq; [|congruence].
    injection Heq as Heq. destruct k1; simpl in Heq; [|done].
    destruct (pretty_nat_head i) as [Hi|(c & rest & Hi & _)];
      by rewrite Hi in Heq.
  - injection Heq as Heq. by eapply IH.
Qed.

(** X20: the names of the problem files of a batch are pairwise different:
    two indices with the same file name are the same index. *)
Theorem problem_filename_injective (prefix suffix : string) (digits i j : nat) :
  problem_filename prefix suffix digits i = problem_filename prefix suffix digits j →
  i = j.
Proof.
  unfold problem_filename, zfill.
  intros Heq%string_app_inv_tail%string_app_inv_tail%string_app_inv_head.
  by eapply zeros_before_inj.
Qed.

Lemma problem_filename_injective_witness : 42%nat = 42%nat.
Proof.
  apply (problem_filename_injective "validation_" "_3x9" 5 42 42). reflexivity.
Defined.

(** The file name of the problem with index 42. *)
Lemma problem_filename_42 :
  problem_filename "validation_" "_3x9" 5 42 = "validation_00042_3x9.json".
Proof. vm_compute. reflexivity. Qed.
